(** * Chrono interior-point solver and CSR matrix accounting

    A shallow embedding of
      - [ChSparsityPatternLearner] and the NNZ accounting of [ChCSR3Matrix]
        (core/ChCSR3Matrix.h),
      - the primal-dual predictor-corrector solver [ChInteriorPoint]
        (chrono_mumps/ChInteriorPoint.cpp, with the declarations of
        chrono_interiorpoint/ChInteriorPoint.h),
      - the clamping loop of the older solver
        (chrono_mkl/ChInteriorPoint.cpp),
    followed by the properties proved about them.

    Numbers.  A C++ [double] is read as an exact rational ([Q]): rounding,
    infinities and NaN are outside the model, and a division by zero yields
    0 as it does in [Q].  [size_t] counters are [nat] and [int] indices are
    [Z], both without wrap-around.

    Collaborators.  The direct linear solver, [std::exp] and
    [ChMatrix::NormTwo] are not part of the sources; they are the fields of
    an environment record.  The system descriptor is a record of what its
    methods hand back.  Console output, file dumps and the history file are
    not modelled. *)

From Stdlib Require Import QArith Qabs Qminmax Lqa ZArith Lia List Permutation
  Sorting.Mergesort Sorting.Sorted Orders.
From stdpp Require Import base option list gmap.

Open Scope Q_scope.

(* ===================================================================== *)
(** * Dense column vectors ([ChMatrixDynamic<double>] with one column)    *)
(* ===================================================================== *)

Abbreviation vector := (list Q).

(** [a < b] on doubles. *)
Definition Qltb (a b : Q) : bool := negb (Qle_bool b a).

(** [std::min(a, b)]: [(b < a) ? b : a]. *)
Definition std_min (a b : Q) : Q := if Qltb b a then b else a.

(** [for (i = 0; i < k; i++) body(i)] over a threaded state. *)
Definition for_loop {S : Type} (k : nat) (body : nat -> S -> S) (s : S) : S :=
  fold_left (fun s i => body i s) (seq 0 k) s.

Module Vec.

(** [v(i)] / [v.GetElement(i, 0)]; a read outside the vector is not defined
    by the library and is given the value 0 here. *)
Definition GetElement (v : vector) (i : nat) : Q := default 0 (v !! i).

(** [v.SetElement(i, 0, a)] / [v(i) = a]; the solver only writes inside the
    vector, a write outside leaves it unchanged here. *)
Definition SetElement (v : vector) (i : nat) (a : Q) : vector := <[i := a]> v.

(** [v.Resize(k, 1)]: storage is kept when the size is unchanged and is
    reallocated zero-filled otherwise. *)
Definition Resize (k : nat) (v : vector) : vector :=
  if Nat.eqb (length v) k then v else replicate k 0.

(** [v.FillElem(a)]. *)
Definition FillElem (a : Q) (v : vector) : vector := map (fun _ => a) v.

(** [v.MatrScale(factor)]. *)
Definition MatrScale (factor : Q) (v : vector) : vector :=
  map (fun e => e * factor) v.

(** [v.MatrScale(w)]: element-wise product. *)
Definition MatrScaleV (w v : vector) : vector := zip_with Qmult v w.

(** [v.MatrAdd(a)] as the solver uses it: [a] added to every element. *)
Definition MatrAddScalar (a : Q) (v : vector) : vector :=
  map (fun e => e + a) v.

(** [v += w] and [v -= w]. *)
Definition add (v w : vector) : vector := zip_with Qplus v w.
Definition sub (v w : vector) : vector := zip_with Qminus v w.

(** [MatrDot(&a, &b)]. *)
Definition MatrDot (a b : vector) : Q :=
  fold_left (fun tot p => tot + fst p * snd p) (combine a b) 0.

End Vec.

(* ===================================================================== *)
(** * [ChSparsityPatternLearner]                                          *)
(* ===================================================================== *)

Module ZOrder <: TotalLeBool.
Definition t := Z.
Definition leb (a b : Z) : bool := Z.leb a b.
Definition leb_total (a b : Z) : leb a b = true \/ leb b a = true :=
  match Zle_bool_total a b with
  | left H => or_introl H
  | right H => or_intror H
  end.
End ZOrder.

Module ZSort := Sort ZOrder.

Module ChSparsityPatternLearner.

Record t := {
  m_num_rows : nat;
  m_num_cols : nat;
  m_nnz : nat;
  row_lists : list (list Z);
  row_major_format : bool
}.

Definition leading_dimension (s : t) : nat :=
  if row_major_format s then m_num_rows s else m_num_cols s.

Definition trailing_dimension (s : t) : nat :=
  if row_major_format s then m_num_cols s else m_num_rows s.

(** Constructor: [row_lists.resize(n)] with [n = *leading_dimension]. *)
Definition make (nrows ncols : nat) (row_major_format_in : bool) : t :=
  {| m_num_rows := nrows; m_num_cols := ncols; m_nnz := 0%nat;
     row_lists := replicate (if row_major_format_in then nrows else ncols) [];
     row_major_format := row_major_format_in |}.

(** [SetElement(insrow, inscol, insval, overwrite)]:
    [row_lists[insrow].push_back(inscol)].  [insrow] indexes the vector
    unchecked; a call with [insrow] outside it has no defined behaviour in
    C++ and leaves the learner unchanged here. *)
Definition SetElement (insrow : nat) (inscol : Z) (insval : Q) (overwrite : bool)
    (s : t) : t :=
  {| m_num_rows := m_num_rows s; m_num_cols := m_num_cols s; m_nnz := m_nnz s;
     row_lists := alter (fun l => l ++ [inscol]) insrow (row_lists s);
     row_major_format := row_major_format s |}.

Definition GetElement (row col : nat) (s : t) : Q := 0.

(** [std::list<int>::sort()]: a merge sort, ascending. *)
Definition list_sort (l : list Z) : list Z := ZSort.sort l.

(** [std::list<int>::unique()]: of every run of equal consecutive elements
    one is kept. *)
Fixpoint list_unique (l : list Z) : list Z :=
  match l with
  | [] => []
  | a :: rest =>
      match rest with
      | [] => [a]
      | a' :: _ => if Z.eqb a a' then list_unique rest else a :: list_unique rest
      end
  end.

(** [GetSparsityPattern()]: sorts and uniques every row list in place and
    returns a reference to [row_lists]. *)
Definition GetSparsityPattern (s : t) : list (list Z) * t :=
  let lists := map (fun l => list_unique (list_sort l)) (row_lists s) in
  (lists,
   {| m_num_rows := m_num_rows s; m_num_cols := m_num_cols s; m_nnz := m_nnz s;
      row_lists := lists; row_major_format := row_major_format s |}).

(** [GetNNZ()]: sums the list sizes and caches the sum in [m_nnz]. *)
Definition GetNNZ (s : t) : nat * t :=
  let nnz_temp := fold_left (fun acc l => (acc + length l)%nat) (row_lists s) 0%nat in
  (nnz_temp,
   {| m_num_rows := m_num_rows s; m_num_cols := m_num_cols s; m_nnz := nnz_temp;
      row_lists := row_lists s; row_major_format := row_major_format s |}).

(** A recorded call [SetElement(insrow, inscol, insval, overwrite)]. *)
Record call := {
  insrow : nat;
  inscol : Z;
  insval : Q;
  overwrite : bool
}.

Definition apply_call (s : t) (k : call) : t :=
  SetElement (insrow k) (inscol k) (insval k) (overwrite k) s.

Definition apply_calls (calls : list call) (s : t) : t :=
  fold_left apply_call calls s.

(** The column indices a call sequence inserted into row [r], in call
    order. *)
Definition inserted_cols (r : nat) (calls : list call) : list Z :=
  map inscol (filter (fun k => Nat.eqb (insrow k) r) calls).

(** The (row, col) pairs of a call sequence. *)
Definition inserted_pairs (calls : list call) : list (nat * Z) :=
  map (fun k => (insrow k, inscol k)) calls.

(** [Reset(row, col, nonzeros)]: the two dimensions are written through
    [leading_dimension] and [trailing_dimension], which the constructor
    pointed at [m_num_rows] and [m_num_cols] according to the format; then
    [row_lists] is cleared and resized to the leading dimension. *)
Definition Reset (row col : nat) (nonzeros : Z) (s : t) : t :=
  let lead := if row_major_format s then row else col in
  let trail := if row_major_format s then col else row in
  {| m_num_rows := if row_major_format s then lead else trail;
     m_num_cols := if row_major_format s then trail else lead;
     m_nnz := m_nnz s;
     row_lists := replicate lead [];
     row_major_format := row_major_format s |}.

(** [Resize(nrows, ncols, nonzeros)]: [Reset], and [true]. *)
Definition Resize (nrows ncols : nat) (nonzeros : Z) (s : t) : bool * t :=
  (true, Reset nrows ncols nonzeros s).

Definition isRowMajor (s : t) : bool := row_major_format s.

End ChSparsityPatternLearner.

(* ===================================================================== *)
(** * [ChCSR3Matrix]: storage and NNZ accounting                          *)
(* ===================================================================== *)

Module ChCSR3Matrix.

Record t := {
  m_num_rows : nat;
  m_num_cols : nat;
  row_major_format : bool;
  isCompressed : bool;
  max_shifts : Z;
  leadIndex : list Z;
  trailIndex : list Z;
  values : vector;
  initialized_element : list bool;
  m_lock_broken : bool
}.

(** [*leading_dimension]: points to [m_num_rows] or [m_num_cols] depending
    on the format. *)
Definition leading_dimension (M : t) : nat :=
  if row_major_format M then m_num_rows M else m_num_cols M.

(** [GetTrailingIndexLength()]: [leadIndex[*leading_dimension]]. *)
Definition GetTrailingIndexLength (M : t) : Z :=
  default 0%Z (leadIndex M !! leading_dimension M).

(** [GetNNZ()]. *)
Definition GetNNZ (M : t) : Z := GetTrailingIndexLength M.

Definition IsCompressed (M : t) : bool := isCompressed M.
Definition IsRowMajor (M : t) : bool := row_major_format M.

(** The number of [true] flags in [initialized_element]. *)
Definition initialized_count (M : t) : Z :=
  Z.of_nat (length (filter (fun f => f = true) (initialized_element M))).

(** No gaps: exactly the slots below [leadIndex[*leading_dimension]] are
    initialized. *)
Definition no_gaps (M : t) : Prop :=
  (0 <= GetTrailingIndexLength M)%Z /\
  forall k : nat,
    initialized_element M !! k = Some true <->
    (Z.of_nat k < GetTrailingIndexLength M)%Z.

End ChCSR3Matrix.

(* ===================================================================== *)
(** * The sparse matrix the solver assembles ([BigMat], [SmallMat], [E])  *)
(* ===================================================================== *)

Module SparseMatrix.

(** Modelled from the spec: the sparse matrix class of [BigMat]
    ([ChCOOMatrix] / [ChCSR3Matrix]) has no implementation file in the
    sources.  It is a shape and the stored entries by (row, column). *)
Record t := {
  rows : nat;
  cols : nat;
  elems : gmap (nat * nat) Q
}.

(** Modelled from the spec: [getElement(r, c)] of the matrix class, which
    is missing from the sources, "returns 0 if absent". *)
Definition GetElement (M : t) (r c : nat) : Q := default 0 (elems M !! (r, c)).

(** Modelled from the spec: [setElement(r, c, v, overwrite)] of the matrix
    class, which is missing from the sources: "ensures a slot for (r, c)
    exists, writes v (adds v if overwrite=false and an initialized entry
    already exists)". *)
Definition SetElement (M : t) (r c : nat) (v : Q) (overwrite : bool) : t :=
  {| rows := rows M; cols := cols M;
     elems := <[(r, c) := match elems M !! (r, c) with
                          | Some old => if overwrite then v else old + v
                          | None => v
                          end]> (elems M) |}.

(** Modelled from the spec: [reset(r, c, hint)] of the matrix class, which
    is missing from the sources; either way every entry reads 0 afterwards.  *)
Definition Reset (r c : nat) (M : t) : t :=
  {| rows := r; cols := c; elems := ∅ |}.

(** Modelled from the spec: [matMultiplyClipped] of the matrix class, which
    is missing from the sources: "y_out[yOffset + i] = sum over j in
    [colStart, colEnd], (i, j) stored, of values * x_in[xOffset + j -
    colStart] for i in [rowStart, rowEnd]", rows counted from [rowStart].
    The bounds are [int]s: an empty range has [end = start - 1]. *)
Definition MatMultiplyClipped (M : t) (vect_in vect_out : vector)
    (start_row end_row start_col end_col : Z)
    (start_row_matB start_row_mat_out : Z) : vector :=
  for_loop (Z.to_nat (end_row - start_row + 1))
    (fun i out =>
       Vec.SetElement out (Z.to_nat start_row_mat_out + i)
         (for_loop (Z.to_nat (end_col - start_col + 1))
            (fun j tot =>
               tot + GetElement M (Z.to_nat start_row + i) (Z.to_nat start_col + j)
                     * Vec.GetElement vect_in (Z.to_nat start_row_matB + j))
            0))
    vect_out.

(** Modelled from the spec: the mat-vec without offsets of the matrix
    class, which is missing from the sources, "degenerates to full
    mat-vec". *)
Definition MatMultiply (M : t) (vect_in vect_out : vector) : vector :=
  MatMultiplyClipped M vect_in vect_out
    0 (Z.of_nat (rows M) - 1) 0 (Z.of_nat (cols M) - 1) 0 0.

(** Modelled from the spec: a visit of the stored entries "may read or
    update v in place" ([forEachExistentValue]); the sources reach the
    entries through the raw arrays of the matrix class, which is missing. *)
Definition map_entries (f : nat -> nat -> Q -> Q) (M : t) : t :=
  {| rows := rows M; cols := cols M;
     elems := map_imap (fun rc v => Some (f (fst rc) (snd rc) v)) (elems M) |}.

(** [M *= a]. *)
Definition scale (a : Q) (M : t) : t := map_entries (fun _ _ v => v * a) M.

(** The matrix as its constructor leaves it: no stored entry. *)
Definition make (r c : nat) : t := {| rows := r; cols := c; elems := ∅ |}.

End SparseMatrix.

(* ===================================================================== *)
(** * [ChInteriorPoint]                                                   *)
(* ===================================================================== *)

(** The preprocessor switches of ChInteriorPoint.cpp. *)
Record Macros := {
  SKIP_CONTACTS_UV : bool;
  ADD_COMPLIANCE : bool;
  REUSE_OLD_SOLUTIONS : bool
}.

(** Their values in the source file. *)
Definition source_macros : Macros :=
  {| SKIP_CONTACTS_UV := true; ADD_COMPLIANCE := false;
     REUSE_OLD_SOLUTIONS := false |}.

(** What the solver calls but the sources do not define. *)
Record Env := {
  (** [mumps_engine.SetProblem(Z, rhs); mumps_engine.MumpsCall()]: the
      solution overwrites the right-hand side. *)
  MumpsCall : SparseMatrix.t -> vector -> vector;
  (** [exp] of <cmath>. *)
  std_exp : Q -> Q;
  (** [ChMatrix::NormTwo()]. *)
  NormTwo : vector -> Q
}.

(** What the solver asks of [ChLcpSystemDescriptor]. *)
Record ChLcpSystemDescriptor := {
  CountActiveVariables : nat;
  (** [CountActiveConstraints(only_bilaterals, skip_contacts_uv)] *)
  CountActiveConstraints : bool -> bool -> nat;
  (** [ConvertToMatrixForm(&Z, nullptr, only_bilaterals, skip_contacts_uv,
      mode)]: the matrix it leaves in [Z]. *)
  ConvertToMatrixForm_Z : SparseMatrix.t -> bool -> bool -> Z -> SparseMatrix.t;
  (** [ConvertToMatrixForm(&Cq, &M, nullptr, nullptr, nullptr, nullptr,
      only_bilaterals, skip_contacts_uv)]: what it leaves in [Cq] and [M]. *)
  ConvertToMatrixForm_Cq_M :
    SparseMatrix.t -> SparseMatrix.t -> bool -> bool ->
    SparseMatrix.t * SparseMatrix.t;
  (** the same call with only [&E], and with only [&Fvector, &Bvector]. *)
  ConvertToMatrixForm_E : SparseMatrix.t -> bool -> bool -> SparseMatrix.t;
  ConvertToMatrixForm_Fvector : vector -> bool -> bool -> vector;
  ConvertToMatrixForm_Bvector : vector -> bool -> bool -> vector
}.

Module ChInteriorPoint.

Inductive KKT_SOLUTION_METHOD := STANDARD | AUGMENTED | NORMAL.

Record IPresidual_t := {
  rp_nnorm : Q;
  rd_nnorm : Q
}.

Record t := {
  m : nat;  (* size of lam, y, A rows *)
  n : nat;  (* size of x, G, A columns *)
  solver_call : nat;
  iteration_count : nat;
  iteration_count_max : nat;
  EQUAL_STEP_LENGTH : bool;
  ADAPTIVE_ETA : bool;
  ONLY_PREDICT : bool;
  warm_start_broken : bool;
  warm_start : bool;
  IPtolerances : IPresidual_t;
  IPres : IPresidual_t;
  mu_tolerance : Q;  (* stop iterations if mu under this threshold *)
  KKT_solve_method : KKT_SOLUTION_METHOD;
  x : vector;  (* primal *)
  y : vector;  (* slack *)
  lam : vector;  (* dual *)
  x_pred : vector;
  y_pred : vector;
  lam_pred : vector;
  x_corr : vector;
  y_corr : vector;
  lam_corr : vector;
  Dx : vector;
  Dy : vector;
  Dlam : vector;
  b : vector;  (* rhs of constraints *)
  c : vector;  (* part of minimization function *)
  rp : vector;  (* primal constraint A*x - y - b = 0 *)
  rd : vector;  (* dual constraint G*x - AT*lam + c = 0 *)
  rpd : vector;  (* primal-dual constraints *)
  mu : Q;  (* complementarity measure *)
  rhs_sol : vector;
  BigMat : SparseMatrix.t;
  SmallMat : SparseMatrix.t;
  E : SparseMatrix.t;  (* compliance matrix *)
  vectn : vector;
  vectm : vector;
  sol_chrono : vector;
  verbose : bool  (* inherited from the solver base class *)
}.

(** Field updates of the solver object.  The switches [EQUAL_STEP_LENGTH],
    [ADAPTIVE_ETA], [ONLY_PREDICT], [warm_start] and [warm_start_broken] get
    their value in the constructor and no member function writes them. *)
Definition set_m (v : nat) (s : t) : t :=
  {| m := v; n := n s; solver_call := solver_call s;
     iteration_count := iteration_count s;
     iteration_count_max := iteration_count_max s;
     EQUAL_STEP_LENGTH := EQUAL_STEP_LENGTH s;
     ADAPTIVE_ETA := ADAPTIVE_ETA s; ONLY_PREDICT := ONLY_PREDICT s;
     warm_start_broken := warm_start_broken s; warm_start := warm_start s;
     IPtolerances := IPtolerances s; IPres := IPres s;
     mu_tolerance := mu_tolerance s; KKT_solve_method := KKT_solve_method s;
     x := x s; y := y s; lam := lam s; x_pred := x_pred s;
     y_pred := y_pred s; lam_pred := lam_pred s; x_corr := x_corr s;
     y_corr := y_corr s; lam_corr := lam_corr s; Dx := Dx s; Dy := Dy s;
     Dlam := Dlam s; b := b s; c := c s; rp := rp s; rd := rd s;
     rpd := rpd s; mu := mu s; rhs_sol := rhs_sol s; BigMat := BigMat s;
     SmallMat := SmallMat s; E := E s; vectn := vectn s; vectm := vectm s;
     sol_chrono := sol_chrono s; verbose := verbose s |}.
Definition set_n (v : nat) (s : t) : t :=
  {| m := m s; n := v; solver_call := solver_call s;
     iteration_count := iteration_count s;
     iteration_count_max := iteration_count_max s;
     EQUAL_STEP_LENGTH := EQUAL_STEP_LENGTH s;
     ADAPTIVE_ETA := ADAPTIVE_ETA s; ONLY_PREDICT := ONLY_PREDICT s;
     warm_start_broken := warm_start_broken s; warm_start := warm_start s;
     IPtolerances := IPtolerances s; IPres := IPres s;
     mu_tolerance := mu_tolerance s; KKT_solve_method := KKT_solve_method s;
     x := x s; y := y s; lam := lam s; x_pred := x_pred s;
     y_pred := y_pred s; lam_pred := lam_pred s; x_corr := x_corr s;
     y_corr := y_corr s; lam_corr := lam_corr s; Dx := Dx s; Dy := Dy s;
     Dlam := Dlam s; b := b s; c := c s; rp := rp s; rd := rd s;
     rpd := rpd s; mu := mu s; rhs_sol := rhs_sol s; BigMat := BigMat s;
     SmallMat := SmallMat s; E := E s; vectn := vectn s; vectm := vectm s;
     sol_chrono := sol_chrono s; verbose := verbose s |}.
Definition set_solver_call (v : nat) (s : t) : t :=
  {| m := m s; n := n s; solver_call := v;
     iteration_count := iteration_count s;
     iteration_count_max := iteration_count_max s;
     EQUAL_STEP_LENGTH := EQUAL_STEP_LENGTH s;
     ADAPTIVE_ETA := ADAPTIVE_ETA s; ONLY_PREDICT := ONLY_PREDICT s;
     warm_start_broken := warm_start_broken s; warm_start := warm_start s;
     IPtolerances := IPtolerances s; IPres := IPres s;
     mu_tolerance := mu_tolerance s; KKT_solve_method := KKT_solve_method s;
     x := x s; y := y s; lam := lam s; x_pred := x_pred s;
     y_pred := y_pred s; lam_pred := lam_pred s; x_corr := x_corr s;
     y_corr := y_corr s; lam_corr := lam_corr s; Dx := Dx s; Dy := Dy s;
     Dlam := Dlam s; b := b s; c := c s; rp := rp s; rd := rd s;
     rpd := rpd s; mu := mu s; rhs_sol := rhs_sol s; BigMat := BigMat s;
     SmallMat := SmallMat s; E := E s; vectn := vectn s; vectm := vectm s;
     sol_chrono := sol_chrono s; verbose := verbose s |}.
Definition set_iteration_count (v : nat) (s : t) : t :=
  {| m := m s; n := n s; solver_call := solver_call s; iteration_count := v;
     iteration_count_max := iteration_count_max s;
     EQUAL_STEP_LENGTH := EQUAL_STEP_LENGTH s;
     ADAPTIVE_ETA := ADAPTIVE_ETA s; ONLY_PREDICT := ONLY_PREDICT s;
     warm_start_broken := warm_start_broken s; warm_start := warm_start s;
     IPtolerances := IPtolerances s; IPres := IPres s;
     mu_tolerance := mu_tolerance s; KKT_solve_method := KKT_solve_method s;
     x := x s; y := y s; lam := lam s; x_pred := x_pred s;
     y_pred := y_pred s; lam_pred := lam_pred s; x_corr := x_corr s;
     y_corr := y_corr s; lam_corr := lam_corr s; Dx := Dx s; Dy := Dy s;
     Dlam := Dlam s; b := b s; c := c s; rp := rp s; rd := rd s;
     rpd := rpd s; mu := mu s; rhs_sol := rhs_sol s; BigMat := BigMat s;
     SmallMat := SmallMat s; E := E s; vectn := vectn s; vectm := vectm s;
     sol_chrono := sol_chrono s; verbose := verbose s |}.
Definition set_iteration_count_max (v : nat) (s : t) : t :=
  {| m := m s; n := n s; solver_call := solver_call s;
     iteration_count := iteration_count s; iteration_count_max := v;
     EQUAL_STEP_LENGTH := EQUAL_STEP_LENGTH s;
     ADAPTIVE_ETA := ADAPTIVE_ETA s; ONLY_PREDICT := ONLY_PREDICT s;
     warm_start_broken := warm_start_broken s; warm_start := warm_start s;
     IPtolerances := IPtolerances s; IPres := IPres s;
     mu_tolerance := mu_tolerance s; KKT_solve_method := KKT_solve_method s;
     x := x s; y := y s; lam := lam s; x_pred := x_pred s;
     y_pred := y_pred s; lam_pred := lam_pred s; x_corr := x_corr s;
     y_corr := y_corr s; lam_corr := lam_corr s; Dx := Dx s; Dy := Dy s;
     Dlam := Dlam s; b := b s; c := c s; rp := rp s; rd := rd s;
     rpd := rpd s; mu := mu s; rhs_sol := rhs_sol s; BigMat := BigMat s;
     SmallMat := SmallMat s; E := E s; vectn := vectn s; vectm := vectm s;
     sol_chrono := sol_chrono s; verbose := verbose s |}.
Definition set_EQUAL_STEP_LENGTH (v : bool) (s : t) : t :=
  {| m := m s; n := n s; solver_call := solver_call s;
     iteration_count := iteration_count s;
     iteration_count_max := iteration_count_max s; EQUAL_STEP_LENGTH := v;
     ADAPTIVE_ETA := ADAPTIVE_ETA s; ONLY_PREDICT := ONLY_PREDICT s;
     warm_start_broken := warm_start_broken s; warm_start := warm_start s;
     IPtolerances := IPtolerances s; IPres := IPres s;
     mu_tolerance := mu_tolerance s; KKT_solve_method := KKT_solve_method s;
     x := x s; y := y s; lam := lam s; x_pred := x_pred s;
     y_pred := y_pred s; lam_pred := lam_pred s; x_corr := x_corr s;
     y_corr := y_corr s; lam_corr := lam_corr s; Dx := Dx s; Dy := Dy s;
     Dlam := Dlam s; b := b s; c := c s; rp := rp s; rd := rd s;
     rpd := rpd s; mu := mu s; rhs_sol := rhs_sol s; BigMat := BigMat s;
     SmallMat := SmallMat s; E := E s; vectn := vectn s; vectm := vectm s;
     sol_chrono := sol_chrono s; verbose := verbose s |}.
Definition set_ADAPTIVE_ETA (v : bool) (s : t) : t :=
  {| m := m s; n := n s; solver_call := solver_call s;
     iteration_count := iteration_count s;
     iteration_count_max := iteration_count_max s;
     EQUAL_STEP_LENGTH := EQUAL_STEP_LENGTH s; ADAPTIVE_ETA := v;
     ONLY_PREDICT := ONLY_PREDICT s;
     warm_start_broken := warm_start_broken s; warm_start := warm_start s;
     IPtolerances := IPtolerances s; IPres := IPres s;
     mu_tolerance := mu_tolerance s; KKT_solve_method := KKT_solve_method s;
     x := x s; y := y s; lam := lam s; x_pred := x_pred s;
     y_pred := y_pred s; lam_pred := lam_pred s; x_corr := x_corr s;
     y_corr := y_corr s; lam_corr := lam_corr s; Dx := Dx s; Dy := Dy s;
     Dlam := Dlam s; b := b s; c := c s; rp := rp s; rd := rd s;
     rpd := rpd s; mu := mu s; rhs_sol := rhs_sol s; BigMat := BigMat s;
     SmallMat := SmallMat s; E := E s; vectn := vectn s; vectm := vectm s;
     sol_chrono := sol_chrono s; verbose := verbose s |}.
Definition set_ONLY_PREDICT (v : bool) (s : t) : t :=
  {| m := m s; n := n s; solver_call := solver_call s;
     iteration_count := iteration_count s;
     iteration_count_max := iteration_count_max s;
     EQUAL_STEP_LENGTH := EQUAL_STEP_LENGTH s;
     ADAPTIVE_ETA := ADAPTIVE_ETA s; ONLY_PREDICT := v;
     warm_start_broken := warm_start_broken s; warm_start := warm_start s;
     IPtolerances := IPtolerances s; IPres := IPres s;
     mu_tolerance := mu_tolerance s; KKT_solve_method := KKT_solve_method s;
     x := x s; y := y s; lam := lam s; x_pred := x_pred s;
     y_pred := y_pred s; lam_pred := lam_pred s; x_corr := x_corr s;
     y_corr := y_corr s; lam_corr := lam_corr s; Dx := Dx s; Dy := Dy s;
     Dlam := Dlam s; b := b s; c := c s; rp := rp s; rd := rd s;
     rpd := rpd s; mu := mu s; rhs_sol := rhs_sol s; BigMat := BigMat s;
     SmallMat := SmallMat s; E := E s; vectn := vectn s; vectm := vectm s;
     sol_chrono := sol_chrono s; verbose := verbose s |}.
Definition set_warm_start_broken (v : bool) (s : t) : t :=
  {| m := m s; n := n s; solver_call := solver_call s;
     iteration_count := iteration_count s;
     iteration_count_max := iteration_count_max s;
     EQUAL_STEP_LENGTH := EQUAL_STEP_LENGTH s;
     ADAPTIVE_ETA := ADAPTIVE_ETA s; ONLY_PREDICT := ONLY_PREDICT s;
     warm_start_broken := v; warm_start := warm_start s;
     IPtolerances := IPtolerances s; IPres := IPres s;
     mu_tolerance := mu_tolerance s; KKT_solve_method := KKT_solve_method s;
     x := x s; y := y s; lam := lam s; x_pred := x_pred s;
     y_pred := y_pred s; lam_pred := lam_pred s; x_corr := x_corr s;
     y_corr := y_corr s; lam_corr := lam_corr s; Dx := Dx s; Dy := Dy s;
     Dlam := Dlam s; b := b s; c := c s; rp := rp s; rd := rd s;
     rpd := rpd s; mu := mu s; rhs_sol := rhs_sol s; BigMat := BigMat s;
     SmallMat := SmallMat s; E := E s; vectn := vectn s; vectm := vectm s;
     sol_chrono := sol_chrono s; verbose := verbose s |}.
Definition set_warm_start (v : bool) (s : t) : t :=
  {| m := m s; n := n s; solver_call := solver_call s;
     iteration_count := iteration_count s;
     iteration_count_max := iteration_count_max s;
     EQUAL_STEP_LENGTH := EQUAL_STEP_LENGTH s;
     ADAPTIVE_ETA := ADAPTIVE_ETA s; ONLY_PREDICT := ONLY_PREDICT s;
     warm_start_broken := warm_start_broken s; warm_start := v;
     IPtolerances := IPtolerances s; IPres := IPres s;
     mu_tolerance := mu_tolerance s; KKT_solve_method := KKT_solve_method s;
     x := x s; y := y s; lam := lam s; x_pred := x_pred s;
     y_pred := y_pred s; lam_pred := lam_pred s; x_corr := x_corr s;
     y_corr := y_corr s; lam_corr := lam_corr s; Dx := Dx s; Dy := Dy s;
     Dlam := Dlam s; b := b s; c := c s; rp := rp s; rd := rd s;
     rpd := rpd s; mu := mu s; rhs_sol := rhs_sol s; BigMat := BigMat s;
     SmallMat := SmallMat s; E := E s; vectn := vectn s; vectm := vectm s;
     sol_chrono := sol_chrono s; verbose := verbose s |}.
Definition set_IPtolerances (v : IPresidual_t) (s : t) : t :=
  {| m := m s; n := n s; solver_call := solver_call s;
     iteration_count := iteration_count s;
     iteration_count_max := iteration_count_max s;
     EQUAL_STEP_LENGTH := EQUAL_STEP_LENGTH s;
     ADAPTIVE_ETA := ADAPTIVE_ETA s; ONLY_PREDICT := ONLY_PREDICT s;
     warm_start_broken := warm_start_broken s; warm_start := warm_start s;
     IPtolerances := v; IPres := IPres s; mu_tolerance := mu_tolerance s;
     KKT_solve_method := KKT_solve_method s; x := x s; y := y s;
     lam := lam s; x_pred := x_pred s; y_pred := y_pred s;
     lam_pred := lam_pred s; x_corr := x_corr s; y_corr := y_corr s;
     lam_corr := lam_corr s; Dx := Dx s; Dy := Dy s; Dlam := Dlam s;
     b := b s; c := c s; rp := rp s; rd := rd s; rpd := rpd s; mu := mu s;
     rhs_sol := rhs_sol s; BigMat := BigMat s; SmallMat := SmallMat s;
     E := E s; vectn := vectn s; vectm := vectm s;
     sol_chrono := sol_chrono s; verbose := verbose s |}.
Definition set_IPres (v : IPresidual_t) (s : t) : t :=
  {| m := m s; n := n s; solver_call := solver_call s;
     iteration_count := iteration_count s;
     iteration_count_max := iteration_count_max s;
     EQUAL_STEP_LENGTH := EQUAL_STEP_LENGTH s;
     ADAPTIVE_ETA := ADAPTIVE_ETA s; ONLY_PREDICT := ONLY_PREDICT s;
     warm_start_broken := warm_start_broken s; warm_start := warm_start s;
     IPtolerances := IPtolerances s; IPres := v;
     mu_tolerance := mu_tolerance s; KKT_solve_method := KKT_solve_method s;
     x := x s; y := y s; lam := lam s; x_pred := x_pred s;
     y_pred := y_pred s; lam_pred := lam_pred s; x_corr := x_corr s;
     y_corr := y_corr s; lam_corr := lam_corr s; Dx := Dx s; Dy := Dy s;
     Dlam := Dlam s; b := b s; c := c s; rp := rp s; rd := rd s;
     rpd := rpd s; mu := mu s; rhs_sol := rhs_sol s; BigMat := BigMat s;
     SmallMat := SmallMat s; E := E s; vectn := vectn s; vectm := vectm s;
     sol_chrono := sol_chrono s; verbose := verbose s |}.
Definition set_mu_tolerance (v : Q) (s : t) : t :=
  {| m := m s; n := n s; solver_call := solver_call s;
     iteration_count := iteration_count s;
     iteration_count_max := iteration_count_max s;
     EQUAL_STEP_LENGTH := EQUAL_STEP_LENGTH s;
     ADAPTIVE_ETA := ADAPTIVE_ETA s; ONLY_PREDICT := ONLY_PREDICT s;
     warm_start_broken := warm_start_broken s; warm_start := warm_start s;
     IPtolerances := IPtolerances s; IPres := IPres s; mu_tolerance := v;
     KKT_solve_method := KKT_solve_method s; x := x s; y := y s;
     lam := lam s; x_pred := x_pred s; y_pred := y_pred s;
     lam_pred := lam_pred s; x_corr := x_corr s; y_corr := y_corr s;
     lam_corr := lam_corr s; Dx := Dx s; Dy := Dy s; Dlam := Dlam s;
     b := b s; c := c s; rp := rp s; rd := rd s; rpd := rpd s; mu := mu s;
     rhs_sol := rhs_sol s; BigMat := BigMat s; SmallMat := SmallMat s;
     E := E s; vectn := vectn s; vectm := vectm s;
     sol_chrono := sol_chrono s; verbose := verbose s |}.
Definition set_KKT_solve_method (v : KKT_SOLUTION_METHOD) (s : t) : t :=
  {| m := m s; n := n s; solver_call := solver_call s;
     iteration_count := iteration_count s;
     iteration_count_max := iteration_count_max s;
     EQUAL_STEP_LENGTH := EQUAL_STEP_LENGTH s;
     ADAPTIVE_ETA := ADAPTIVE_ETA s; ONLY_PREDICT := ONLY_PREDICT s;
     warm_start_broken := warm_start_broken s; warm_start := warm_start s;
     IPtolerances := IPtolerances s; IPres := IPres s;
     mu_tolerance := mu_tolerance s; KKT_solve_method := v; x := x s;
     y := y s; lam := lam s; x_pred := x_pred s; y_pred := y_pred s;
     lam_pred := lam_pred s; x_corr := x_corr s; y_corr := y_corr s;
     lam_corr := lam_corr s; Dx := Dx s; Dy := Dy s; Dlam := Dlam s;
     b := b s; c := c s; rp := rp s; rd := rd s; rpd := rpd s; mu := mu s;
     rhs_sol := rhs_sol s; BigMat := BigMat s; SmallMat := SmallMat s;
     E := E s; vectn := vectn s; vectm := vectm s;
     sol_chrono := sol_chrono s; verbose := verbose s |}.
Definition set_x (v : vector) (s : t) : t :=
  {| m := m s; n := n s; solver_call := solver_call s;
     iteration_count := iteration_count s;
     iteration_count_max := iteration_count_max s;
     EQUAL_STEP_LENGTH := EQUAL_STEP_LENGTH s;
     ADAPTIVE_ETA := ADAPTIVE_ETA s; ONLY_PREDICT := ONLY_PREDICT s;
     warm_start_broken := warm_start_broken s; warm_start := warm_start s;
     IPtolerances := IPtolerances s; IPres := IPres s;
     mu_tolerance := mu_tolerance s; KKT_solve_method := KKT_solve_method s;
     x := v; y := y s; lam := lam s; x_pred := x_pred s; y_pred := y_pred s;
     lam_pred := lam_pred s; x_corr := x_corr s; y_corr := y_corr s;
     lam_corr := lam_corr s; Dx := Dx s; Dy := Dy s; Dlam := Dlam s;
     b := b s; c := c s; rp := rp s; rd := rd s; rpd := rpd s; mu := mu s;
     rhs_sol := rhs_sol s; BigMat := BigMat s; SmallMat := SmallMat s;
     E := E s; vectn := vectn s; vectm := vectm s;
     sol_chrono := sol_chrono s; verbose := verbose s |}.
Definition set_y (v : vector) (s : t) : t :=
  {| m := m s; n := n s; solver_call := solver_call s;
     iteration_count := iteration_count s;
     iteration_count_max := iteration_count_max s;
     EQUAL_STEP_LENGTH := EQUAL_STEP_LENGTH s;
     ADAPTIVE_ETA := ADAPTIVE_ETA s; ONLY_PREDICT := ONLY_PREDICT s;
     warm_start_broken := warm_start_broken s; warm_start := warm_start s;
     IPtolerances := IPtolerances s; IPres := IPres s;
     mu_tolerance := mu_tolerance s; KKT_solve_method := KKT_solve_method s;
     x := x s; y := v; lam := lam s; x_pred := x_pred s; y_pred := y_pred s;
     lam_pred := lam_pred s; x_corr := x_corr s; y_corr := y_corr s;
     lam_corr := lam_corr s; Dx := Dx s; Dy := Dy s; Dlam := Dlam s;
     b := b s; c := c s; rp := rp s; rd := rd s; rpd := rpd s; mu := mu s;
     rhs_sol := rhs_sol s; BigMat := BigMat s; SmallMat := SmallMat s;
     E := E s; vectn := vectn s; vectm := vectm s;
     sol_chrono := sol_chrono s; verbose := verbose s |}.
Definition set_lam (v : vector) (s : t) : t :=
  {| m := m s; n := n s; solver_call := solver_call s;
     iteration_count := iteration_count s;
     iteration_count_max := iteration_count_max s;
     EQUAL_STEP_LENGTH := EQUAL_STEP_LENGTH s;
     ADAPTIVE_ETA := ADAPTIVE_ETA s; ONLY_PREDICT := ONLY_PREDICT s;
     warm_start_broken := warm_start_broken s; warm_start := warm_start s;
     IPtolerances := IPtolerances s; IPres := IPres s;
     mu_tolerance := mu_tolerance s; KKT_solve_method := KKT_solve_method s;
     x := x s; y := y s; lam := v; x_pred := x_pred s; y_pred := y_pred s;
     lam_pred := lam_pred s; x_corr := x_corr s; y_corr := y_corr s;
     lam_corr := lam_corr s; Dx := Dx s; Dy := Dy s; Dlam := Dlam s;
     b := b s; c := c s; rp := rp s; rd := rd s; rpd := rpd s; mu := mu s;
     rhs_sol := rhs_sol s; BigMat := BigMat s; SmallMat := SmallMat s;
     E := E s; vectn := vectn s; vectm := vectm s;
     sol_chrono := sol_chrono s; verbose := verbose s |}.
Definition set_x_pred (v : vector) (s : t) : t :=
  {| m := m s; n := n s; solver_call := solver_call s;
     iteration_count := iteration_count s;
     iteration_count_max := iteration_count_max s;
     EQUAL_STEP_LENGTH := EQUAL_STEP_LENGTH s;
     ADAPTIVE_ETA := ADAPTIVE_ETA s; ONLY_PREDICT := ONLY_PREDICT s;
     warm_start_broken := warm_start_broken s; warm_start := warm_start s;
     IPtolerances := IPtolerances s; IPres := IPres s;
     mu_tolerance := mu_tolerance s; KKT_solve_method := KKT_solve_method s;
     x := x s; y := y s; lam := lam s; x_pred := v; y_pred := y_pred s;
     lam_pred := lam_pred s; x_corr := x_corr s; y_corr := y_corr s;
     lam_corr := lam_corr s; Dx := Dx s; Dy := Dy s; Dlam := Dlam s;
     b := b s; c := c s; rp := rp s; rd := rd s; rpd := rpd s; mu := mu s;
     rhs_sol := rhs_sol s; BigMat := BigMat s; SmallMat := SmallMat s;
     E := E s; vectn := vectn s; vectm := vectm s;
     sol_chrono := sol_chrono s; verbose := verbose s |}.
Definition set_y_pred (v : vector) (s : t) : t :=
  {| m := m s; n := n s; solver_call := solver_call s;
     iteration_count := iteration_count s;
     iteration_count_max := iteration_count_max s;
     EQUAL_STEP_LENGTH := EQUAL_STEP_LENGTH s;
     ADAPTIVE_ETA := ADAPTIVE_ETA s; ONLY_PREDICT := ONLY_PREDICT s;
     warm_start_broken := warm_start_broken s; warm_start := warm_start s;
     IPtolerances := IPtolerances s; IPres := IPres s;
     mu_tolerance := mu_tolerance s; KKT_solve_method := KKT_solve_method s;
     x := x s; y := y s; lam := lam s; x_pred := x_pred s; y_pred := v;
     lam_pred := lam_pred s; x_corr := x_corr s; y_corr := y_corr s;
     lam_corr := lam_corr s; Dx := Dx s; Dy := Dy s; Dlam := Dlam s;
     b := b s; c := c s; rp := rp s; rd := rd s; rpd := rpd s; mu := mu s;
     rhs_sol := rhs_sol s; BigMat := BigMat s; SmallMat := SmallMat s;
     E := E s; vectn := vectn s; vectm := vectm s;
     sol_chrono := sol_chrono s; verbose := verbose s |}.
Definition set_lam_pred (v : vector) (s : t) : t :=
  {| m := m s; n := n s; solver_call := solver_call s;
     iteration_count := iteration_count s;
     iteration_count_max := iteration_count_max s;
     EQUAL_STEP_LENGTH := EQUAL_STEP_LENGTH s;
     ADAPTIVE_ETA := ADAPTIVE_ETA s; ONLY_PREDICT := ONLY_PREDICT s;
     warm_start_broken := warm_start_broken s; warm_start := warm_start s;
     IPtolerances := IPtolerances s; IPres := IPres s;
     mu_tolerance := mu_tolerance s; KKT_solve_method := KKT_solve_method s;
     x := x s; y := y s; lam := lam s; x_pred := x_pred s;
     y_pred := y_pred s; lam_pred := v; x_corr := x_corr s;
     y_corr := y_corr s; lam_corr := lam_corr s; Dx := Dx s; Dy := Dy s;
     Dlam := Dlam s; b := b s; c := c s; rp := rp s; rd := rd s;
     rpd := rpd s; mu := mu s; rhs_sol := rhs_sol s; BigMat := BigMat s;
     SmallMat := SmallMat s; E := E s; vectn := vectn s; vectm := vectm s;
     sol_chrono := sol_chrono s; verbose := verbose s |}.
Definition set_x_corr (v : vector) (s : t) : t :=
  {| m := m s; n := n s; solver_call := solver_call s;
     iteration_count := iteration_count s;
     iteration_count_max := iteration_count_max s;
     EQUAL_STEP_LENGTH := EQUAL_STEP_LENGTH s;
     ADAPTIVE_ETA := ADAPTIVE_ETA s; ONLY_PREDICT := ONLY_PREDICT s;
     warm_start_broken := warm_start_broken s; warm_start := warm_start s;
     IPtolerances := IPtolerances s; IPres := IPres s;
     mu_tolerance := mu_tolerance s; KKT_solve_method := KKT_solve_method s;
     x := x s; y := y s; lam := lam s; x_pred := x_pred s;
     y_pred := y_pred s; lam_pred := lam_pred s; x_corr := v;
     y_corr := y_corr s; lam_corr := lam_corr s; Dx := Dx s; Dy := Dy s;
     Dlam := Dlam s; b := b s; c := c s; rp := rp s; rd := rd s;
     rpd := rpd s; mu := mu s; rhs_sol := rhs_sol s; BigMat := BigMat s;
     SmallMat := SmallMat s; E := E s; vectn := vectn s; vectm := vectm s;
     sol_chrono := sol_chrono s; verbose := verbose s |}.
Definition set_y_corr (v : vector) (s : t) : t :=
  {| m := m s; n := n s; solver_call := solver_call s;
     iteration_count := iteration_count s;
     iteration_count_max := iteration_count_max s;
     EQUAL_STEP_LENGTH := EQUAL_STEP_LENGTH s;
     ADAPTIVE_ETA := ADAPTIVE_ETA s; ONLY_PREDICT := ONLY_PREDICT s;
     warm_start_broken := warm_start_broken s; warm_start := warm_start s;
     IPtolerances := IPtolerances s; IPres := IPres s;
     mu_tolerance := mu_tolerance s; KKT_solve_method := KKT_solve_method s;
     x := x s; y := y s; lam := lam s; x_pred := x_pred s;
     y_pred := y_pred s; lam_pred := lam_pred s; x_corr := x_corr s;
     y_corr := v; lam_corr := lam_corr s; Dx := Dx s; Dy := Dy s;
     Dlam := Dlam s; b := b s; c := c s; rp := rp s; rd := rd s;
     rpd := rpd s; mu := mu s; rhs_sol := rhs_sol s; BigMat := BigMat s;
     SmallMat := SmallMat s; E := E s; vectn := vectn s; vectm := vectm s;
     sol_chrono := sol_chrono s; verbose := verbose s |}.
Definition set_lam_corr (v : vector) (s : t) : t :=
  {| m := m s; n := n s; solver_call := solver_call s;
     iteration_count := iteration_count s;
     iteration_count_max := iteration_count_max s;
     EQUAL_STEP_LENGTH := EQUAL_STEP_LENGTH s;
     ADAPTIVE_ETA := ADAPTIVE_ETA s; ONLY_PREDICT := ONLY_PREDICT s;
     warm_start_broken := warm_start_broken s; warm_start := warm_start s;
     IPtolerances := IPtolerances s; IPres := IPres s;
     mu_tolerance := mu_tolerance s; KKT_solve_method := KKT_solve_method s;
     x := x s; y := y s; lam := lam s; x_pred := x_pred s;
     y_pred := y_pred s; lam_pred := lam_pred s; x_corr := x_corr s;
     y_corr := y_corr s; lam_corr := v; Dx := Dx s; Dy := Dy s;
     Dlam := Dlam s; b := b s; c := c s; rp := rp s; rd := rd s;
     rpd := rpd s; mu := mu s; rhs_sol := rhs_sol s; BigMat := BigMat s;
     SmallMat := SmallMat s; E := E s; vectn := vectn s; vectm := vectm s;
     sol_chrono := sol_chrono s; verbose := verbose s |}.
Definition set_Dx (v : vector) (s : t) : t :=
  {| m := m s; n := n s; solver_call := solver_call s;
     iteration_count := iteration_count s;
     iteration_count_max := iteration_count_max s;
     EQUAL_STEP_LENGTH := EQUAL_STEP_LENGTH s;
     ADAPTIVE_ETA := ADAPTIVE_ETA s; ONLY_PREDICT := ONLY_PREDICT s;
     warm_start_broken := warm_start_broken s; warm_start := warm_start s;
     IPtolerances := IPtolerances s; IPres := IPres s;
     mu_tolerance := mu_tolerance s; KKT_solve_method := KKT_solve_method s;
     x := x s; y := y s; lam := lam s; x_pred := x_pred s;
     y_pred := y_pred s; lam_pred := lam_pred s; x_corr := x_corr s;
     y_corr := y_corr s; lam_corr := lam_corr s; Dx := v; Dy := Dy s;
     Dlam := Dlam s; b := b s; c := c s; rp := rp s; rd := rd s;
     rpd := rpd s; mu := mu s; rhs_sol := rhs_sol s; BigMat := BigMat s;
     SmallMat := SmallMat s; E := E s; vectn := vectn s; vectm := vectm s;
     sol_chrono := sol_chrono s; verbose := verbose s |}.
Definition set_Dy (v : vector) (s : t) : t :=
  {| m := m s; n := n s; solver_call := solver_call s;
     iteration_count := iteration_count s;
     iteration_count_max := iteration_count_max s;
     EQUAL_STEP_LENGTH := EQUAL_STEP_LENGTH s;
     ADAPTIVE_ETA := ADAPTIVE_ETA s; ONLY_PREDICT := ONLY_PREDICT s;
     warm_start_broken := warm_start_broken s; warm_start := warm_start s;
     IPtolerances := IPtolerances s; IPres := IPres s;
     mu_tolerance := mu_tolerance s; KKT_solve_method := KKT_solve_method s;
     x := x s; y := y s; lam := lam s; x_pred := x_pred s;
     y_pred := y_pred s; lam_pred := lam_pred s; x_corr := x_corr s;
     y_corr := y_corr s; lam_corr := lam_corr s; Dx := Dx s; Dy := v;
     Dlam := Dlam s; b := b s; c := c s; rp := rp s; rd := rd s;
     rpd := rpd s; mu := mu s; rhs_sol := rhs_sol s; BigMat := BigMat s;
     SmallMat := SmallMat s; E := E s; vectn := vectn s; vectm := vectm s;
     sol_chrono := sol_chrono s; verbose := verbose s |}.
Definition set_Dlam (v : vector) (s : t) : t :=
  {| m := m s; n := n s; solver_call := solver_call s;
     iteration_count := iteration_count s;
     iteration_count_max := iteration_count_max s;
     EQUAL_STEP_LENGTH := EQUAL_STEP_LENGTH s;
     ADAPTIVE_ETA := ADAPTIVE_ETA s; ONLY_PREDICT := ONLY_PREDICT s;
     warm_start_broken := warm_start_broken s; warm_start := warm_start s;
     IPtolerances := IPtolerances s; IPres := IPres s;
     mu_tolerance := mu_tolerance s; KKT_solve_method := KKT_solve_method s;
     x := x s; y := y s; lam := lam s; x_pred := x_pred s;
     y_pred := y_pred s; lam_pred := lam_pred s; x_corr := x_corr s;
     y_corr := y_corr s; lam_corr := lam_corr s; Dx := Dx s; Dy := Dy s;
     Dlam := v; b := b s; c := c s; rp := rp s; rd := rd s; rpd := rpd s;
     mu := mu s; rhs_sol := rhs_sol s; BigMat := BigMat s;
     SmallMat := SmallMat s; E := E s; vectn := vectn s; vectm := vectm s;
     sol_chrono := sol_chrono s; verbose := verbose s |}.
Definition set_b (v : vector) (s : t) : t :=
  {| m := m s; n := n s; solver_call := solver_call s;
     iteration_count := iteration_count s;
     iteration_count_max := iteration_count_max s;
     EQUAL_STEP_LENGTH := EQUAL_STEP_LENGTH s;
     ADAPTIVE_ETA := ADAPTIVE_ETA s; ONLY_PREDICT := ONLY_PREDICT s;
     warm_start_broken := warm_start_broken s; warm_start := warm_start s;
     IPtolerances := IPtolerances s; IPres := IPres s;
     mu_tolerance := mu_tolerance s; KKT_solve_method := KKT_solve_method s;
     x := x s; y := y s; lam := lam s; x_pred := x_pred s;
     y_pred := y_pred s; lam_pred := lam_pred s; x_corr := x_corr s;
     y_corr := y_corr s; lam_corr := lam_corr s; Dx := Dx s; Dy := Dy s;
     Dlam := Dlam s; b := v; c := c s; rp := rp s; rd := rd s; rpd := rpd s;
     mu := mu s; rhs_sol := rhs_sol s; BigMat := BigMat s;
     SmallMat := SmallMat s; E := E s; vectn := vectn s; vectm := vectm s;
     sol_chrono := sol_chrono s; verbose := verbose s |}.
Definition set_c (v : vector) (s : t) : t :=
  {| m := m s; n := n s; solver_call := solver_call s;
     iteration_count := iteration_count s;
     iteration_count_max := iteration_count_max s;
     EQUAL_STEP_LENGTH := EQUAL_STEP_LENGTH s;
     ADAPTIVE_ETA := ADAPTIVE_ETA s; ONLY_PREDICT := ONLY_PREDICT s;
     warm_start_broken := warm_start_broken s; warm_start := warm_start s;
     IPtolerances := IPtolerances s; IPres := IPres s;
     mu_tolerance := mu_tolerance s; KKT_solve_method := KKT_solve_method s;
     x := x s; y := y s; lam := lam s; x_pred := x_pred s;
     y_pred := y_pred s; lam_pred := lam_pred s; x_corr := x_corr s;
     y_corr := y_corr s; lam_corr := lam_corr s; Dx := Dx s; Dy := Dy s;
     Dlam := Dlam s; b := b s; c := v; rp := rp s; rd := rd s; rpd := rpd s;
     mu := mu s; rhs_sol := rhs_sol s; BigMat := BigMat s;
     SmallMat := SmallMat s; E := E s; vectn := vectn s; vectm := vectm s;
     sol_chrono := sol_chrono s; verbose := verbose s |}.
Definition set_rp (v : vector) (s : t) : t :=
  {| m := m s; n := n s; solver_call := solver_call s;
     iteration_count := iteration_count s;
     iteration_count_max := iteration_count_max s;
     EQUAL_STEP_LENGTH := EQUAL_STEP_LENGTH s;
     ADAPTIVE_ETA := ADAPTIVE_ETA s; ONLY_PREDICT := ONLY_PREDICT s;
     warm_start_broken := warm_start_broken s; warm_start := warm_start s;
     IPtolerances := IPtolerances s; IPres := IPres s;
     mu_tolerance := mu_tolerance s; KKT_solve_method := KKT_solve_method s;
     x := x s; y := y s; lam := lam s; x_pred := x_pred s;
     y_pred := y_pred s; lam_pred := lam_pred s; x_corr := x_corr s;
     y_corr := y_corr s; lam_corr := lam_corr s; Dx := Dx s; Dy := Dy s;
     Dlam := Dlam s; b := b s; c := c s; rp := v; rd := rd s; rpd := rpd s;
     mu := mu s; rhs_sol := rhs_sol s; BigMat := BigMat s;
     SmallMat := SmallMat s; E := E s; vectn := vectn s; vectm := vectm s;
     sol_chrono := sol_chrono s; verbose := verbose s |}.
Definition set_rd (v : vector) (s : t) : t :=
  {| m := m s; n := n s; solver_call := solver_call s;
     iteration_count := iteration_count s;
     iteration_count_max := iteration_count_max s;
     EQUAL_STEP_LENGTH := EQUAL_STEP_LENGTH s;
     ADAPTIVE_ETA := ADAPTIVE_ETA s; ONLY_PREDICT := ONLY_PREDICT s;
     warm_start_broken := warm_start_broken s; warm_start := warm_start s;
     IPtolerances := IPtolerances s; IPres := IPres s;
     mu_tolerance := mu_tolerance s; KKT_solve_method := KKT_solve_method s;
     x := x s; y := y s; lam := lam s; x_pred := x_pred s;
     y_pred := y_pred s; lam_pred := lam_pred s; x_corr := x_corr s;
     y_corr := y_corr s; lam_corr := lam_corr s; Dx := Dx s; Dy := Dy s;
     Dlam := Dlam s; b := b s; c := c s; rp := rp s; rd := v; rpd := rpd s;
     mu := mu s; rhs_sol := rhs_sol s; BigMat := BigMat s;
     SmallMat := SmallMat s; E := E s; vectn := vectn s; vectm := vectm s;
     sol_chrono := sol_chrono s; verbose := verbose s |}.
Definition set_rpd (v : vector) (s : t) : t :=
  {| m := m s; n := n s; solver_call := solver_call s;
     iteration_count := iteration_count s;
     iteration_count_max := iteration_count_max s;
     EQUAL_STEP_LENGTH := EQUAL_STEP_LENGTH s;
     ADAPTIVE_ETA := ADAPTIVE_ETA s; ONLY_PREDICT := ONLY_PREDICT s;
     warm_start_broken := warm_start_broken s; warm_start := warm_start s;
     IPtolerances := IPtolerances s; IPres := IPres s;
     mu_tolerance := mu_tolerance s; KKT_solve_method := KKT_solve_method s;
     x := x s; y := y s; lam := lam s; x_pred := x_pred s;
     y_pred := y_pred s; lam_pred := lam_pred s; x_corr := x_corr s;
     y_corr := y_corr s; lam_corr := lam_corr s; Dx := Dx s; Dy := Dy s;
     Dlam := Dlam s; b := b s; c := c s; rp := rp s; rd := rd s; rpd := v;
     mu := mu s; rhs_sol := rhs_sol s; BigMat := BigMat s;
     SmallMat := SmallMat s; E := E s; vectn := vectn s; vectm := vectm s;
     sol_chrono := sol_chrono s; verbose := verbose s |}.
Definition set_mu (v : Q) (s : t) : t :=
  {| m := m s; n := n s; solver_call := solver_call s;
     iteration_count := iteration_count s;
     iteration_count_max := iteration_count_max s;
     EQUAL_STEP_LENGTH := EQUAL_STEP_LENGTH s;
     ADAPTIVE_ETA := ADAPTIVE_ETA s; ONLY_PREDICT := ONLY_PREDICT s;
     warm_start_broken := warm_start_broken s; warm_start := warm_start s;
     IPtolerances := IPtolerances s; IPres := IPres s;
     mu_tolerance := mu_tolerance s; KKT_solve_method := KKT_solve_method s;
     x := x s; y := y s; lam := lam s; x_pred := x_pred s;
     y_pred := y_pred s; lam_pred := lam_pred s; x_corr := x_corr s;
     y_corr := y_corr s; lam_corr := lam_corr s; Dx := Dx s; Dy := Dy s;
     Dlam := Dlam s; b := b s; c := c s; rp := rp s; rd := rd s;
     rpd := rpd s; mu := v; rhs_sol := rhs_sol s; BigMat := BigMat s;
     SmallMat := SmallMat s; E := E s; vectn := vectn s; vectm := vectm s;
     sol_chrono := sol_chrono s; verbose := verbose s |}.
Definition set_rhs_sol (v : vector) (s : t) : t :=
  {| m := m s; n := n s; solver_call := solver_call s;
     iteration_count := iteration_count s;
     iteration_count_max := iteration_count_max s;
     EQUAL_STEP_LENGTH := EQUAL_STEP_LENGTH s;
     ADAPTIVE_ETA := ADAPTIVE_ETA s; ONLY_PREDICT := ONLY_PREDICT s;
     warm_start_broken := warm_start_broken s; warm_start := warm_start s;
     IPtolerances := IPtolerances s; IPres := IPres s;
     mu_tolerance := mu_tolerance s; KKT_solve_method := KKT_solve_method s;
     x := x s; y := y s; lam := lam s; x_pred := x_pred s;
     y_pred := y_pred s; lam_pred := lam_pred s; x_corr := x_corr s;
     y_corr := y_corr s; lam_corr := lam_corr s; Dx := Dx s; Dy := Dy s;
     Dlam := Dlam s; b := b s; c := c s; rp := rp s; rd := rd s;
     rpd := rpd s; mu := mu s; rhs_sol := v; BigMat := BigMat s;
     SmallMat := SmallMat s; E := E s; vectn := vectn s; vectm := vectm s;
     sol_chrono := sol_chrono s; verbose := verbose s |}.
Definition set_BigMat (v : SparseMatrix.t) (s : t) : t :=
  {| m := m s; n := n s; solver_call := solver_call s;
     iteration_count := iteration_count s;
     iteration_count_max := iteration_count_max s;
     EQUAL_STEP_LENGTH := EQUAL_STEP_LENGTH s;
     ADAPTIVE_ETA := ADAPTIVE_ETA s; ONLY_PREDICT := ONLY_PREDICT s;
     warm_start_broken := warm_start_broken s; warm_start := warm_start s;
     IPtolerances := IPtolerances s; IPres := IPres s;
     mu_tolerance := mu_tolerance s; KKT_solve_method := KKT_solve_method s;
     x := x s; y := y s; lam := lam s; x_pred := x_pred s;
     y_pred := y_pred s; lam_pred := lam_pred s; x_corr := x_corr s;
     y_corr := y_corr s; lam_corr := lam_corr s; Dx := Dx s; Dy := Dy s;
     Dlam := Dlam s; b := b s; c := c s; rp := rp s; rd := rd s;
     rpd := rpd s; mu := mu s; rhs_sol := rhs_sol s; BigMat := v;
     SmallMat := SmallMat s; E := E s; vectn := vectn s; vectm := vectm s;
     sol_chrono := sol_chrono s; verbose := verbose s |}.
Definition set_SmallMat (v : SparseMatrix.t) (s : t) : t :=
  {| m := m s; n := n s; solver_call := solver_call s;
     iteration_count := iteration_count s;
     iteration_count_max := iteration_count_max s;
     EQUAL_STEP_LENGTH := EQUAL_STEP_LENGTH s;
     ADAPTIVE_ETA := ADAPTIVE_ETA s; ONLY_PREDICT := ONLY_PREDICT s;
     warm_start_broken := warm_start_broken s; warm_start := warm_start s;
     IPtolerances := IPtolerances s; IPres := IPres s;
     mu_tolerance := mu_tolerance s; KKT_solve_method := KKT_solve_method s;
     x := x s; y := y s; lam := lam s; x_pred := x_pred s;
     y_pred := y_pred s; lam_pred := lam_pred s; x_corr := x_corr s;
     y_corr := y_corr s; lam_corr := lam_corr s; Dx := Dx s; Dy := Dy s;
     Dlam := Dlam s; b := b s; c := c s; rp := rp s; rd := rd s;
     rpd := rpd s; mu := mu s; rhs_sol := rhs_sol s; BigMat := BigMat s;
     SmallMat := v; E := E s; vectn := vectn s; vectm := vectm s;
     sol_chrono := sol_chrono s; verbose := verbose s |}.
Definition set_E (v : SparseMatrix.t) (s : t) : t :=
  {| m := m s; n := n s; solver_call := solver_call s;
     iteration_count := iteration_count s;
     iteration_count_max := iteration_count_max s;
     EQUAL_STEP_LENGTH := EQUAL_STEP_LENGTH s;
     ADAPTIVE_ETA := ADAPTIVE_ETA s; ONLY_PREDICT := ONLY_PREDICT s;
     warm_start_broken := warm_start_broken s; warm_start := warm_start s;
     IPtolerances := IPtolerances s; IPres := IPres s;
     mu_tolerance := mu_tolerance s; KKT_solve_method := KKT_solve_method s;
     x := x s; y := y s; lam := lam s; x_pred := x_pred s;
     y_pred := y_pred s; lam_pred := lam_pred s; x_corr := x_corr s;
     y_corr := y_corr s; lam_corr := lam_corr s; Dx := Dx s; Dy := Dy s;
     Dlam := Dlam s; b := b s; c := c s; rp := rp s; rd := rd s;
     rpd := rpd s; mu := mu s; rhs_sol := rhs_sol s; BigMat := BigMat s;
     SmallMat := SmallMat s; E := v; vectn := vectn s; vectm := vectm s;
     sol_chrono := sol_chrono s; verbose := verbose s |}.
Definition set_vectn (v : vector) (s : t) : t :=
  {| m := m s; n := n s; solver_call := solver_call s;
     iteration_count := iteration_count s;
     iteration_count_max := iteration_count_max s;
     EQUAL_STEP_LENGTH := EQUAL_STEP_LENGTH s;
     ADAPTIVE_ETA := ADAPTIVE_ETA s; ONLY_PREDICT := ONLY_PREDICT s;
     warm_start_broken := warm_start_broken s; warm_start := warm_start s;
     IPtolerances := IPtolerances s; IPres := IPres s;
     mu_tolerance := mu_tolerance s; KKT_solve_method := KKT_solve_method s;
     x := x s; y := y s; lam := lam s; x_pred := x_pred s;
     y_pred := y_pred s; lam_pred := lam_pred s; x_corr := x_corr s;
     y_corr := y_corr s; lam_corr := lam_corr s; Dx := Dx s; Dy := Dy s;
     Dlam := Dlam s; b := b s; c := c s; rp := rp s; rd := rd s;
     rpd := rpd s; mu := mu s; rhs_sol := rhs_sol s; BigMat := BigMat s;
     SmallMat := SmallMat s; E := E s; vectn := v; vectm := vectm s;
     sol_chrono := sol_chrono s; verbose := verbose s |}.
Definition set_vectm (v : vector) (s : t) : t :=
  {| m := m s; n := n s; solver_call := solver_call s;
     iteration_count := iteration_count s;
     iteration_count_max := iteration_count_max s;
     EQUAL_STEP_LENGTH := EQUAL_STEP_LENGTH s;
     ADAPTIVE_ETA := ADAPTIVE_ETA s; ONLY_PREDICT := ONLY_PREDICT s;
     warm_start_broken := warm_start_broken s; warm_start := warm_start s;
     IPtolerances := IPtolerances s; IPres := IPres s;
     mu_tolerance := mu_tolerance s; KKT_solve_method := KKT_solve_method s;
     x := x s; y := y s; lam := lam s; x_pred := x_pred s;
     y_pred := y_pred s; lam_pred := lam_pred s; x_corr := x_corr s;
     y_corr := y_corr s; lam_corr := lam_corr s; Dx := Dx s; Dy := Dy s;
     Dlam := Dlam s; b := b s; c := c s; rp := rp s; rd := rd s;
     rpd := rpd s; mu := mu s; rhs_sol := rhs_sol s; BigMat := BigMat s;
     SmallMat := SmallMat s; E := E s; vectn := vectn s; vectm := v;
     sol_chrono := sol_chrono s; verbose := verbose s |}.
Definition set_sol_chrono (v : vector) (s : t) : t :=
  {| m := m s; n := n s; solver_call := solver_call s;
     iteration_count := iteration_count s;
     iteration_count_max := iteration_count_max s;
     EQUAL_STEP_LENGTH := EQUAL_STEP_LENGTH s;
     ADAPTIVE_ETA := ADAPTIVE_ETA s; ONLY_PREDICT := ONLY_PREDICT s;
     warm_start_broken := warm_start_broken s; warm_start := warm_start s;
     IPtolerances := IPtolerances s; IPres := IPres s;
     mu_tolerance := mu_tolerance s; KKT_solve_method := KKT_solve_method s;
     x := x s; y := y s; lam := lam s; x_pred := x_pred s;
     y_pred := y_pred s; lam_pred := lam_pred s; x_corr := x_corr s;
     y_corr := y_corr s; lam_corr := lam_corr s; Dx := Dx s; Dy := Dy s;
     Dlam := Dlam s; b := b s; c := c s; rp := rp s; rd := rd s;
     rpd := rpd s; mu := mu s; rhs_sol := rhs_sol s; BigMat := BigMat s;
     SmallMat := SmallMat s; E := E s; vectn := vectn s; vectm := vectm s;
     sol_chrono := v; verbose := verbose s |}.
Definition set_verbose (v : bool) (s : t) : t :=
  {| m := m s; n := n s; solver_call := solver_call s;
     iteration_count := iteration_count s;
     iteration_count_max := iteration_count_max s;
     EQUAL_STEP_LENGTH := EQUAL_STEP_LENGTH s;
     ADAPTIVE_ETA := ADAPTIVE_ETA s; ONLY_PREDICT := ONLY_PREDICT s;
     warm_start_broken := warm_start_broken s; warm_start := warm_start s;
     IPtolerances := IPtolerances s; IPres := IPres s;
     mu_tolerance := mu_tolerance s; KKT_solve_method := KKT_solve_method s;
     x := x s; y := y s; lam := lam s; x_pred := x_pred s;
     y_pred := y_pred s; lam_pred := lam_pred s; x_corr := x_corr s;
     y_corr := y_corr s; lam_corr := lam_corr s; Dx := Dx s; Dy := Dy s;
     Dlam := Dlam s; b := b s; c := c s; rp := rp s; rd := rd s;
     rpd := rpd s; mu := mu s; rhs_sol := rhs_sol s; BigMat := BigMat s;
     SmallMat := SmallMat s; E := E s; vectn := vectn s; vectm := vectm s;
     sol_chrono := sol_chrono s; verbose := v |}.

(** [size_t] to [double]. *)
Definition to_double (k : nat) : Q := inject_Z (Z.of_nat k).

(** [double] to [int]: truncation toward zero. *)
Definition to_int (q : Q) : Z := Z.quot (Qnum q) (Zpos (Qden q)).

(** [abs] on doubles. *)
Definition abs (q : Q) : Q := Qabs q.

(** ** Statements

    A member function that updates the solver is a function from the
    solver before to the solver after.  The bodies below are written with
    the combinators of this paragraph, one line for one C++ statement. *)

Definition stmt : Type := t -> t.

Definition skip : stmt := fun s => s.

(** [a; b] *)
Definition seq (a b : stmt) : stmt := fun s => b (a s).

(** [field = e], [e] read in the solver as it is before the statement. *)
Definition assign {V : Type} (set : V -> t -> t) (e : t -> V) : stmt :=
  fun s => set (e s) s.

(** [if (c) a else b] *)
Definition ifs (c : t -> bool) (a b : stmt) : stmt :=
  fun s => if c s then a s else b s.

(** [if (c) a] *)
Definition when (c : t -> bool) (a : stmt) : stmt := ifs c a skip.

(** [double v = e; k], a local variable. *)
Definition local {A : Type} (e : t -> A) (k : A -> stmt) : stmt :=
  fun s => k (e s) s.

(** [switch (KKT_solve_method)] *)
Definition switch_KKT (standard augmented normal : stmt) : stmt :=
  fun s =>
    match KKT_solve_method s with
    | STANDARD => standard s
    | AUGMENTED => augmented s
    | NORMAL => normal s
    end.

Declare Scope stmt_scope.
Delimit Scope stmt_scope with stmt.
Bind Scope stmt_scope with stmt.
Notation "a ;; b" := (seq a b) (at level 100, b at level 200, right associativity) : stmt_scope.
Notation "f ::= e" := (assign f e) (at level 60, no associativity) : stmt_scope.
Local Open Scope stmt_scope.

(** ** Member functions without solver calls *)

(** One pass of the loop body of [find_Newton_step_length]. *)
Definition step_length_body (eta : Q) (alpha : Q) (p : Q * Q) : Q :=
  let '(vect_i, Dvect_i) := p in
  if Qltb Dvect_i 0 then
    let alfa_temp := - eta * vect_i / Dvect_i in
    if Qltb alfa_temp alpha then alfa_temp else alpha
  else alpha.

(** [find_Newton_step_length(vect, Dvect, eta)] ([eta = 1] by default);
    it walks the [vect.GetRows()] rows of both vectors. *)
Definition find_Newton_step_length (vect Dvect : vector) (eta : Q) : Q :=
  let alpha := fold_left (step_length_body eta) (combine vect Dvect) 1 in
  if Qltb 0 alpha then alpha else 0.

(** [SetTolerances(rp_tol, rd_tol, complementarity_tol)]. *)
Definition SetTolerances (rp_tol rd_tol complementarity_tol : Q) : stmt :=
  set_IPtolerances ::= (fun _ => {| rp_nnorm := rp_tol; rd_nnorm := rd_tol |}) ;;
  set_mu_tolerance ::= (fun _ => complementarity_tol).

Definition SetKKTSolutionMethod (qp_solve_type_selection : KKT_SOLUTION_METHOD) : stmt :=
  set_KKT_solve_method ::= (fun _ => qp_solve_type_selection).

Definition SetMaxIterations (max_iter : nat) : stmt :=
  set_iteration_count_max ::= (fun _ => max_iter).

(** The constructor; the set-up of [mumps_engine] and the history file
    apart. *)
Definition make : t :=
  {| m := 0%nat; n := 0%nat; solver_call := 0%nat; iteration_count := 0%nat;
     iteration_count_max := 50%nat;
     EQUAL_STEP_LENGTH := false; ADAPTIVE_ETA := true; ONLY_PREDICT := false;
     warm_start_broken := false; warm_start := true;
     IPtolerances := {| rp_nnorm := 1 # 1000000000000;
                        rd_nnorm := 1 # 1000000000000 |};
     IPres := {| rp_nnorm := 0; rd_nnorm := 0 |};
     mu_tolerance := 1 # 1000000000000;
     KKT_solve_method := AUGMENTED;
     x := []; y := []; lam := []; x_pred := []; y_pred := []; lam_pred := [];
     x_corr := []; y_corr := []; lam_corr := []; Dx := []; Dy := []; Dlam := [];
     b := []; c := []; rp := []; rd := []; rpd := []; mu := 0;
     rhs_sol := [];
     BigMat := SparseMatrix.make 1 1;
     SmallMat := SparseMatrix.make 1 1;
     E := SparseMatrix.make 1 1;
     vectn := []; vectm := []; sol_chrono := []; verbose := false |}.

(** [multiplyA(vect_in, vect_out)]: [vect_out = A * vect_in]. *)
Definition multiplyA (s : t) (vect_in vect_out : vector) : vector :=
  let n := Z.of_nat (n s) in
  let m := Z.of_nat (m s) in
  match KKT_solve_method s with
  | STANDARD =>
      SparseMatrix.MatMultiplyClipped (BigMat s) vect_in vect_out
        n (n + m - 1) 0 (n - 1) 0 0
  | AUGMENTED =>
      SparseMatrix.MatMultiplyClipped (BigMat s) vect_in vect_out
        n (n + m - 1) 0 (n - 1) 0 0
  | NORMAL => vect_out
  end.

(** [multiplyNegAT(vect_in, vect_out)]: [vect_out = -AT * vect_in]. *)
Definition multiplyNegAT (s : t) (vect_in vect_out : vector) : vector :=
  let n := Z.of_nat (n s) in
  let m := Z.of_nat (m s) in
  match KKT_solve_method s with
  | STANDARD =>
      SparseMatrix.MatMultiplyClipped (BigMat s) vect_in vect_out
        0 (n - 1) (n + m) (n + 2 * m - 1) 0 0
  | AUGMENTED =>
      SparseMatrix.MatMultiplyClipped (BigMat s) vect_in vect_out
        0 (n - 1) n (n + m - 1) 0 0
  | NORMAL => vect_out
  end.

(** [multiplyG(vect_in, vect_out)]: [vect_out = G * vect_in]. *)
Definition multiplyG (s : t) (vect_in vect_out : vector) : vector :=
  let n := Z.of_nat (n s) in
  match KKT_solve_method s with
  | STANDARD =>
      SparseMatrix.MatMultiplyClipped (BigMat s) vect_in vect_out
        0 (n - 1) 0 (n - 1) 0 0
  | AUGMENTED =>
      SparseMatrix.MatMultiplyClipped (BigMat s) vect_in vect_out
        0 (n - 1) 0 (n - 1) 0 0
  | NORMAL => vect_out
  end.

(** [make_positive_definite()]: every stored entry of the first [n] rows
    whose column lies in the AT block is multiplied by -1. *)
Definition make_positive_definite : stmt :=
  local (fun s => match KKT_solve_method s with
                  | STANDARD => (n s + m s)%nat
                  | _ => n s
                  end) (fun offset_AT_col =>
  set_BigMat ::= (fun s =>
    SparseMatrix.map_entries
      (fun row_sel col_sel v =>
         if (row_sel <? n s)%nat && (offset_AT_col <=? col_sel)%nat
            && (col_sel <? offset_AT_col + m s)%nat
         then v * -1 else v)
      (BigMat s))).

Section Solver.

Variable env : Env.
Variable cfg : Macros.

(** ** Member functions *)

(** [reset_dimensions(n_old, m_old)]. *)
Definition reset_dimensions (n_old m_old : nat) : stmt :=
  when (fun s => negb (Nat.eqb n_old (n s))) (
    set_x ::= (fun s => Vec.Resize (n s) (x s)) ;;
    set_x_pred ::= (fun s => Vec.Resize (n s) (x_pred s)) ;;
    set_x_corr ::= (fun s => Vec.Resize (n s) (x_corr s)) ;;
    set_Dx ::= (fun s => Vec.Resize (n s) (Dx s)) ;;
    set_c ::= (fun s => Vec.Resize (n s) (c s)) ;;
    set_rd ::= (fun s => Vec.Resize (n s) (rd s)) ;;
    set_vectn ::= (fun s => Vec.Resize (n s) (vectn s))) ;;
  when (fun s => negb (Nat.eqb m_old (m s))) (
    set_y ::= (fun s => Vec.Resize (m s) (y s)) ;;
    set_lam ::= (fun s => Vec.Resize (m s) (lam s)) ;;
    set_y_pred ::= (fun s => Vec.Resize (m s) (y_pred s)) ;;
    set_lam_pred ::= (fun s => Vec.Resize (m s) (lam_pred s)) ;;
    set_y_corr ::= (fun s => Vec.Resize (m s) (y_corr s)) ;;
    set_lam_corr ::= (fun s => Vec.Resize (m s) (lam_corr s)) ;;
    set_Dy ::= (fun s => Vec.Resize (m s) (Dy s)) ;;
    set_Dlam ::= (fun s => Vec.Resize (m s) (Dlam s)) ;;
    set_b ::= (fun s => Vec.Resize (m s) (b s)) ;;
    set_rp ::= (fun s => Vec.Resize (m s) (rp s)) ;;
    set_rpd ::= (fun s => Vec.Resize (m s) (rpd s)) ;;
    set_vectm ::= (fun s => Vec.Resize (m s) (vectm s))) ;;
  ifs (fun _ => SKIP_CONTACTS_UV cfg)
    (set_sol_chrono ::= (fun s => Vec.Resize (n s + 3 * m s) (sol_chrono s)))
    (set_sol_chrono ::= (fun s => Vec.Resize (n s + m s) (sol_chrono s))) ;;
  (* BigMat and sol *)
  switch_KKT
    (set_BigMat ::= (fun s => SparseMatrix.Reset (2 * m s + n s) (2 * m s + n s) (BigMat s)) ;;
     set_rhs_sol ::= (fun s => Vec.Resize (2 * m s + n s) (rhs_sol s)))
    (set_BigMat ::= (fun s => SparseMatrix.Reset (n s + m s) (n s + m s) (BigMat s)) ;;
     set_rhs_sol ::= (fun s => Vec.Resize (n s + m s) (rhs_sol s)))
    skip.

(** [fullupdate_residual()]: [rp], [rd] and [mu] from [x], [y], [lam]. *)
Definition fullupdate_residual : stmt :=
  (* rp = A*x - y - b *)
  set_rp ::= (fun s => multiplyA s (x s) (rp s)) ;;
  set_rp ::= (fun s => Vec.sub (rp s) (y s)) ;;
  set_rp ::= (fun s => Vec.sub (rp s) (b s)) ;;
  when (fun _ => ADD_COMPLIANCE cfg) (
    set_vectm ::= (fun s => SparseMatrix.MatMultiply (E s) (Dlam s) (vectm s)) ;;
    set_rp ::= (fun s => Vec.add (rp s) (vectm s))) ;;
  (* rd = G*x - A^T*lam + c *)
  set_rd ::= (fun s => multiplyG s (x s) (rd s)) ;;
  set_rd ::= (fun s => Vec.add (rd s) (c s)) ;;
  set_vectn ::= (fun s => multiplyNegAT s (lam s) (vectn s)) ;;
  set_rd ::= (fun s => Vec.add (rd s) (vectn s)) ;;
  set_mu ::= (fun s => Vec.MatrDot (y s) (lam s) / to_double (m s)).

(** [VerifyKKTconditions(print)]; the printing apart. *)
Definition VerifyKKTconditions (print : bool) : stmt :=
  set_IPres ::= (fun s =>
    {| rp_nnorm := NormTwo env (rp s) / to_double (m s);
       rd_nnorm := NormTwo env (rd s) / to_double (n s) |}).

(** [check_exit_conditions(only_mu)] ([only_mu = true] by default): the
    value returned and the solver afterwards, [IPres] being refreshed on the
    way.  The first block of the function is under [if (false)]. *)
Definition check_exit_conditions (only_mu : bool) (s : t) : bool * t :=
  let first_block : option bool * t :=
    if false then
      if Qltb (mu s) (mu_tolerance s) then
        if only_mu then (Some true, s)
        else
          let s := VerifyKKTconditions false s in
          if Qltb (rp_nnorm (IPres s)) (rp_nnorm (IPtolerances s))
             && Qltb (rd_nnorm (IPres s)) (rd_nnorm (IPtolerances s))
          then (Some true, s) else (None, s)
      else (None, s)
    else (None, s) in
  match first_block with
  | (Some r, s) => (r, s)
  | (None, s) =>
      if true then
        let relative_duality_gap := Vec.MatrDot (y s) (lam s) in
        let s := VerifyKKTconditions false s in
        if Qltb relative_duality_gap (mu_tolerance s)
           && Qltb (rp_nnorm (IPres s)) (rp_nnorm (IPtolerances s))
           && Qltb (rd_nnorm (IPres s)) (rd_nnorm (IPtolerances s))
        then (true, s) else (false, s)
      else (false, s)
  end.

(** [KKTsolve(sigma)] up to the call of the linear solver: the diagonal
    blocks of [BigMat] and the right-hand side in [rhs_sol]. *)
Definition KKTsolve_assemble (sigma : Q) : stmt :=
  switch_KKT
    ((* update lambda and y diagonal submatrices *)
     set_BigMat ::= (fun s =>
       for_loop (m s)
         (fun diag_sel M =>
            let M := SparseMatrix.SetElement M (n s + m s + diag_sel) (n s + diag_sel)
                       (Vec.GetElement (lam s) diag_sel) true in
            let M := SparseMatrix.SetElement M (n s + m s + diag_sel) (n s + m s + diag_sel)
                       (Vec.GetElement (y s) diag_sel) true in
            SparseMatrix.SetElement M (n s + diag_sel) (n s + diag_sel) (-1) true)
         (BigMat s)) ;;
     ifs (fun _ => negb (Qeq_bool sigma 0))
       (set_vectm ::= (fun s => Dlam s) ;;
        set_vectm ::= (fun s => Vec.MatrScaleV (Dy s) (vectm s)) ;;
        set_vectm ::= (fun s => Vec.MatrAddScalar (- sigma * mu s) (vectm s)) ;;
        set_rpd ::= (fun s => Vec.add (rpd s) (vectm s)))
       (set_rpd ::= (fun s => y s) ;;
        set_rpd ::= (fun s => Vec.MatrScaleV (lam s) (rpd s))) ;;
     (* fill rhs_sol with [-rd; -rp; -rpd] *)
     set_rhs_sol ::= (fun s =>
       for_loop (n s)
         (fun row_sel rhs =>
            Vec.SetElement rhs row_sel (- Vec.GetElement (rd s) row_sel))
         (rhs_sol s)) ;;
     set_rhs_sol ::= (fun s =>
       for_loop (m s)
         (fun row_sel rhs =>
            let rhs := Vec.SetElement rhs (row_sel + n s)
                         (- Vec.GetElement (rp s) row_sel) in
            Vec.SetElement rhs (row_sel + n s + m s)
              (- Vec.GetElement (rpd s) row_sel))
         (rhs_sol s)))
    ((* update y/lambda diagonal submatrix *)
     ifs (fun _ => ADD_COMPLIANCE cfg)
       (set_BigMat ::= (fun s =>
          for_loop (m s)
            (fun diag_sel M =>
               SparseMatrix.SetElement M (n s + diag_sel) (n s + diag_sel)
                 (Vec.GetElement (y s) diag_sel / Vec.GetElement (lam s) diag_sel
                  + SparseMatrix.GetElement (E s) diag_sel diag_sel) true)
            (BigMat s)))
       (set_BigMat ::= (fun s =>
          for_loop (m s)
            (fun diag_sel M =>
               SparseMatrix.SetElement M (n s + diag_sel) (n s + diag_sel)
                 (Vec.GetElement (y s) diag_sel / Vec.GetElement (lam s) diag_sel)
                 true)
            (BigMat s))) ;;
     (* fill rhs_sol with [-rd; -rp-y-sigma*mu/lam] *)
     set_rhs_sol ::= (fun s =>
       for_loop (n s)
         (fun row_sel rhs =>
            Vec.SetElement rhs row_sel (- Vec.GetElement (rd s) row_sel))
         (rhs_sol s)) ;;
     ifs (fun _ => negb (Qeq_bool sigma 0))
       (set_rhs_sol ::= (fun s =>
          for_loop (m s)
            (fun row_sel rhs =>
               Vec.SetElement rhs (row_sel + n s)
                 (- Vec.GetElement (rp s) row_sel - Vec.GetElement (y s) row_sel
                  + sigma * mu s / Vec.GetElement (lam s) row_sel))
            (rhs_sol s)))
       (set_rhs_sol ::= (fun s =>
          for_loop (m s)
            (fun row_sel rhs =>
               Vec.SetElement rhs (row_sel + n s)
                 (- Vec.GetElement (rp s) row_sel - Vec.GetElement (y s) row_sel))
            (rhs_sol s))))
    skip.

(** [mumps_engine.SetProblem(BigMat, rhs_sol); mumps_engine.MumpsCall()]. *)
Definition call_linear_solver : stmt :=
  set_rhs_sol ::= (fun s => MumpsCall env (BigMat s) (rhs_sol s)).

(** [KKTsolve(sigma)] after the call of the linear solver: [Dx], [Dy] and
    [Dlam] out of the solution in [rhs_sol]. *)
Definition KKTsolve_extract : stmt :=
  switch_KKT
    (set_Dx ::= (fun s =>
       for_loop (n s)
         (fun row_sel v => Vec.SetElement v row_sel (Vec.GetElement (rhs_sol s) row_sel))
         (Dx s)) ;;
     set_Dy ::= (fun s =>
       for_loop (m s)
         (fun row_sel v =>
            Vec.SetElement v row_sel (Vec.GetElement (rhs_sol s) (row_sel + n s)))
         (Dy s)) ;;
     set_Dlam ::= (fun s =>
       for_loop (m s)
         (fun row_sel v =>
            Vec.SetElement v row_sel (Vec.GetElement (rhs_sol s) (row_sel + n s + m s)))
         (Dlam s)))
    (set_Dx ::= (fun s =>
       for_loop (n s)
         (fun row_sel v => Vec.SetElement v row_sel (Vec.GetElement (rhs_sol s) row_sel))
         (Dx s)) ;;
     set_Dlam ::= (fun s =>
       for_loop (m s)
         (fun row_sel v =>
            Vec.SetElement v row_sel (Vec.GetElement (rhs_sol s) (row_sel + n s)))
         (Dlam s)) ;;
     (* Dy = A*Dx + rp *)
     set_Dy ::= (fun s => multiplyA s (Dx s) (Dy s)) ;;
     set_Dy ::= (fun s => Vec.add (Dy s) (rp s)) ;;
     when (fun _ => ADD_COMPLIANCE cfg) (
       set_vectm ::= (fun s => SparseMatrix.MatMultiply (E s) (Dlam s) (vectm s)) ;;
       set_Dy ::= (fun s => Vec.add (Dy s) (vectm s))))
    skip.

(** The [NORMAL] case of [KKTsolve]: no system is solved; [temp] is an
    [int]. *)
Definition KKTsolve_normal : stmt :=
  set_BigMat ::= (fun s =>
    for_loop (n s)
      (fun row_sel M =>
         for_loop (n s)
           (fun col_sel M =>
              snd
                (for_loop (m s)
                   (fun el_sel (tM : Z * SparseMatrix.t) =>
                      let temp :=
                        to_int (inject_Z (fst tM)
                                + Vec.GetElement (lam s) el_sel / Vec.GetElement (y s) el_sel
                                  * SparseMatrix.GetElement (SmallMat s) el_sel row_sel
                                  * SparseMatrix.GetElement (SmallMat s) el_sel col_sel) in
                      if negb (Z.eqb temp 0)
                      then (temp, SparseMatrix.SetElement (snd tM) row_sel col_sel
                                    (inject_Z temp) false)
                      else (temp, snd tM))
                   (0%Z, M)))
           M)
      (BigMat s)).

(** [KKTsolve(sigma)] ([sigma = 0.0] by default). *)
Definition KKTsolve (sigma : Q) : stmt :=
  switch_KKT
    (KKTsolve_assemble sigma ;; call_linear_solver ;; KKTsolve_extract)
    (KKTsolve_assemble sigma ;; call_linear_solver ;; KKTsolve_extract)
    KKTsolve_normal.

(** The clamping loop of the starting point:
    [v(row_sel) = abs(v(row_sel)) < 1 ? 1 : abs(v(row_sel))]. *)
Definition clamp_loop (m : nat) (v : vector) : vector :=
  for_loop m
    (fun row_sel v =>
       Vec.SetElement v row_sel
         (if Qltb (abs (Vec.GetElement v row_sel)) 1 then 1
          else abs (Vec.GetElement v row_sel)))
    v.

(** [starting_point_Nocedal(n_old, m_old)]. *)
Definition starting_point_Nocedal (n_old m_old : nat) : stmt :=
  (* Initial guess *)
  when (fun s => negb (Nat.eqb n_old (n s)) || Nat.eqb (solver_call s) 0
                 || negb (REUSE_OLD_SOLUTIONS cfg))
    (set_x ::= (fun s => Vec.FillElem 1 (x s))) ;;
  when (fun s => negb (Nat.eqb m_old (m s)) || Nat.eqb (solver_call s) 0
                 || negb (REUSE_OLD_SOLUTIONS cfg))
    (set_lam ::= (fun s => Vec.FillElem 1 (lam s))) ;;
  (* y = A*x - b *)
  set_y ::= (fun s => multiplyA s (x s) (y s)) ;;
  set_y ::= (fun s => Vec.sub (y s) (b s)) ;;
  (* Calculate the residual *)
  fullupdate_residual ;;
  (* Feasible starting point *)
  KKTsolve 0 ;;
  (* x is accepted as it is *)
  set_y ::= (fun s => Vec.add (y s) (Dy s)) ;;
  set_lam ::= (fun s => Vec.add (lam s) (Dlam s)) ;;
  set_y ::= (fun s => clamp_loop (m s) (y s)) ;;
  set_lam ::= (fun s => clamp_loop (m s) (lam s)) ;;
  (* Update the residual considering the new values of y and lam *)
  fullupdate_residual.

(** The block under [if (ONLY_PREDICT)] in [iterate]. *)
Definition only_predict_block (alfa_pred_prim alfa_pred_dual mu_pred : Q) : stmt :=
  set_x_pred ::= (fun s => Dx s) ;;
  set_x_pred ::= (fun s => Vec.MatrScale alfa_pred_prim (x_pred s)) ;;
  set_x_pred ::= (fun s => Vec.add (x_pred s) (x s)) ;;
  set_x ::= (fun s => x_pred s) ;;
  set_y ::= (fun s => y_pred s) ;;
  set_lam ::= (fun s => lam_pred s) ;;
  set_rp ::= (fun s => Vec.MatrScale (1 - alfa_pred_prim) (rp s)) ;;
  set_vectn ::= (fun s => multiplyG s (Dx s) (vectn s)) ;;
  set_vectn ::= (fun s => Vec.MatrScale (alfa_pred_prim - alfa_pred_dual) (vectn s)) ;;
  set_rd ::= (fun s => Vec.MatrScale (1 - alfa_pred_dual) (rd s)) ;;
  set_rd ::= (fun s => Vec.add (rd s) (vectn s)) ;;
  set_mu ::= (fun _ => mu_pred).

(** The step lengths of a phase, made equal under [EQUAL_STEP_LENGTH]:
    [(alfa_prim, alfa_dual)]. *)
Definition step_lengths (eta : Q) (s : t) : Q * Q :=
  let alfa_prim := find_Newton_step_length (y s) (Dy s) eta in
  let alfa_dual := find_Newton_step_length (lam s) (Dlam s) eta in
  if EQUAL_STEP_LENGTH s then
    let alfa := std_min alfa_prim alfa_dual in (alfa, alfa)
  else (alfa_prim, alfa_dual).

(** [eta] of the correction phase. *)
Definition correction_eta (s : t) : Q :=
  if ADAPTIVE_ETA s
  then std_exp env (- mu s * to_double (m s)) * (1 # 10) + (9 # 10)
  else 95 # 100.

(** [iterate()] from "Correction phase" to its end. *)
Definition correction_phase (mu_pred : Q) : stmt :=
  local (fun s => (mu_pred / mu s) * (mu_pred / mu s) * (mu_pred / mu s)) (fun sigma =>
  KKTsolve sigma ;;
  local correction_eta (fun eta =>
  local (step_lengths eta) (fun alfa_corr =>
  let alfa_corr_prim := fst alfa_corr in
  let alfa_corr_dual := snd alfa_corr in
  set_x_corr ::= (fun s => Dx s) ;;
  set_x_corr ::= (fun s => Vec.MatrScale alfa_corr_prim (x_corr s)) ;;
  set_x_corr ::= (fun s => Vec.add (x_corr s) (x s)) ;;
  set_x ::= (fun s => x_corr s) ;;
  set_y_corr ::= (fun s => Dy s) ;;
  set_y_corr ::= (fun s => Vec.MatrScale alfa_corr_prim (y_corr s)) ;;
  set_y_corr ::= (fun s => Vec.add (y_corr s) (y s)) ;;
  set_y ::= (fun s => y_corr s) ;;
  set_lam_corr ::= (fun s => Dlam s) ;;
  set_lam_corr ::= (fun s => Vec.MatrScale alfa_corr_dual (lam_corr s)) ;;
  set_lam_corr ::= (fun s => Vec.add (lam_corr s) (lam s)) ;;
  set_lam ::= (fun s => lam_corr s) ;;
  (* Variable update *)
  set_rp ::= (fun s => Vec.MatrScale (1 - alfa_corr_prim) (rp s)) ;;
  set_rd ::= (fun s => Vec.MatrScale (1 - alfa_corr_dual) (rd s)) ;;
  set_mu ::= (fun s => Vec.MatrDot (y s) (lam s) / to_double (m s)) ;;
  when (fun s => negb (EQUAL_STEP_LENGTH s)) (
    set_vectn ::= (fun s => multiplyG s (Dx s) (vectn s)) ;;
    set_vectn ::= (fun s => Vec.MatrScale (alfa_corr_prim - alfa_corr_dual) (vectn s)) ;;
    set_rd ::= (fun s => Vec.add (rd s) (vectn s)))))).

(** [iterate()]: the block under [if (ONLY_PREDICT)] does not return, and
    control runs on into the correction phase. *)
Definition iterate : stmt :=
  (* Prediction phase *)
  KKTsolve 0 ;;
  local (step_lengths 1) (fun alfa_pred =>
  let alfa_pred_prim := fst alfa_pred in
  let alfa_pred_dual := snd alfa_pred in
  set_y_pred ::= (fun s => Dy s) ;;
  set_y_pred ::= (fun s => Vec.MatrScale alfa_pred_prim (y_pred s)) ;;
  set_y_pred ::= (fun s => Vec.add (y_pred s) (y s)) ;;
  set_lam_pred ::= (fun s => Dlam s) ;;
  set_lam_pred ::= (fun s => Vec.MatrScale alfa_pred_dual (lam_pred s)) ;;
  set_lam_pred ::= (fun s => Vec.add (lam_pred s) (lam s)) ;;
  local (fun s => Vec.MatrDot (y_pred s) (lam_pred s) / to_double (m s)) (fun mu_pred =>
  when (fun s => ONLY_PREDICT s)
    (only_predict_block alfa_pred_prim alfa_pred_dual mu_pred) ;;
  (* Correction phase *)
  correction_phase mu_pred)).

(** [update_history()] only writes to the history file. *)
Definition update_history : stmt := skip.

(** [generate_solution()]. *)
Definition generate_solution : stmt :=
  (* copy x *)
  set_sol_chrono ::= (fun s =>
    for_loop (n s)
      (fun row_sel sol => Vec.SetElement sol row_sel (Vec.GetElement (x s) row_sel))
      (sol_chrono s)) ;;
  (* copy Lagrangian multipliers; skip tangential forces if needed *)
  ifs (fun _ => SKIP_CONTACTS_UV cfg)
    (set_sol_chrono ::= (fun s =>
       for_loop (m s)
         (fun row_sel sol =>
            let sol := Vec.SetElement sol (n s + row_sel * 3)
                         (- Vec.GetElement (lam s) row_sel) in
            let sol := Vec.SetElement sol (n s + row_sel * 3 + 1) 0 in
            Vec.SetElement sol (n s + row_sel * 3 + 2) 0)
         (sol_chrono s)))
    (set_sol_chrono ::= (fun s =>
       for_loop (m s)
         (fun row_sel sol =>
            Vec.SetElement sol (row_sel + n s) (- Vec.GetElement (lam s) row_sel))
         (sol_chrono s))).

(** [initialize(sysd)]. *)
Definition initialize (sysd : ChLcpSystemDescriptor) : stmt :=
  set_verbose ::= (fun _ => true) ;;
  (* Load system *)
  local (fun s => n s) (fun n_old =>
  local (fun s => m s) (fun m_old =>
  set_n ::= (fun _ => CountActiveVariables sysd) ;;
  set_m ::= (fun _ => CountActiveConstraints sysd false (SKIP_CONTACTS_UV cfg)) ;;
  reset_dimensions n_old m_old ;;
  (* load system matrix in BigMat *)
  switch_KKT
    (set_BigMat ::= (fun s =>
       ConvertToMatrixForm_Z sysd (BigMat s) false (SKIP_CONTACTS_UV cfg) 2) ;;
     make_positive_definite)
    (set_BigMat ::= (fun s =>
       ConvertToMatrixForm_Z sysd (BigMat s) false (SKIP_CONTACTS_UV cfg) 1) ;;
     make_positive_definite)
    (local (fun s => ConvertToMatrixForm_Cq_M sysd (SmallMat s) (BigMat s) false true)
       (fun Cq_M =>
        set_SmallMat ::= (fun _ => fst Cq_M) ;;
        set_BigMat ::= (fun _ => snd Cq_M))) ;;
  (* load f->c and b->b *)
  set_c ::= (fun s => ConvertToMatrixForm_Fvector sysd (c s) false (SKIP_CONTACTS_UV cfg)) ;;
  set_b ::= (fun s => ConvertToMatrixForm_Bvector sysd (b s) false (SKIP_CONTACTS_UV cfg)) ;;
  set_c ::= (fun s => Vec.MatrScale (-1) (c s)) ;;
  set_b ::= (fun s => Vec.MatrScale (-1) (b s)) ;;
  (* are constraints found? *)
  ifs (fun s => Nat.eqb (m s) 0)
    (set_rhs_sol ::= (fun s =>
       for_loop (n s)
         (fun row_sel rhs => Vec.SetElement rhs row_sel (- Vec.GetElement (c s) row_sel))
         (rhs_sol s)) ;;
     call_linear_solver)
    (when (fun s => ADD_COMPLIANCE cfg && (0 <? m s)%nat) (
       set_E ::= (fun s => ConvertToMatrixForm_E sysd (E s) false (SKIP_CONTACTS_UV cfg)) ;;
       set_E ::= (fun s => SparseMatrix.scale (-1) (E s))) ;;
     starting_point_Nocedal n_old m_old))).

(** The loop of [Solve]:
    [for (; iteration_count < iteration_count_max && !check_exit_conditions();
          iteration_count++) { iterate(); update_history(); }].
    [fuel] bounds the number of passes. *)
Fixpoint Solve_loop (fuel : nat) (s : t) : t :=
  match fuel with
  | O => s
  | S fuel =>
      if (iteration_count s <? iteration_count_max s)%nat then
        let '(exit, s) := check_exit_conditions true s in
        if exit then s
        else
          Solve_loop fuel
            ((iterate ;; update_history ;;
              set_iteration_count ::= (fun s => S (iteration_count s))) s)
      else s
  end.

(** [Solve(sysd)]: the solver afterwards and the vector handed to
    [sysd.FromVectorToUnknowns]; the function returns 0.  The loop starts
    at [iteration_count = 1] and [iteration_count_max] passes are enough
    fuel. *)
Definition Solve (sysd : ChLcpSystemDescriptor) (s : t) : t * vector :=
  let s := (set_solver_call ::= (fun s => S (solver_call s)) ;; initialize sysd) s in
  if Nat.eqb (m s) 0 then (s, rhs_sol s)
  else
    let s :=
      (SetTolerances (1 # 10000000) (1 # 100000000) (1 # 100000000) ;;
       set_iteration_count ::= (fun _ => 1%nat) ;;
       (fun s => Solve_loop (iteration_count_max s) s) ;;
       when (fun s => verbose s) (VerifyKKTconditions true) ;;
       generate_solution) s in
    (s, sol_chrono s).

End Solver.

End ChInteriorPoint.

(* ===================================================================== *)
(** * The older solver (chrono_mkl/ChInteriorPoint.cpp)                   *)
(* ===================================================================== *)

Module ChInteriorPointMKL.

(** The clamping loop of [Initialize]:
    [if (abs(v(row_sel)) < 1) v(row_sel) = 1;]. *)
Definition clamp_loop (m : nat) (v : vector) : vector :=
  for_loop m
    (fun row_sel v =>
       if Qltb (ChInteriorPoint.abs (Vec.GetElement v row_sel)) 1
       then Vec.SetElement v row_sel 1
       else v)
    v.

End ChInteriorPointMKL.


Module IP := ChInteriorPoint.

(* ===================================================================== *)
(** * Notions the properties are stated with                              *)
(* ===================================================================== *)

(** [v + alpha * Dv >= 0] componentwise, for vectors of the same size. *)
Definition nonneg_after (v Dv : vector) (alpha : Q) : Prop :=
  Forall2 (fun v_i Dv_i => 0 <= v_i + alpha * Dv_i) v Dv.

(** [alpha] is the largest scalar of (0, 1] with [v + alpha * Dv >= 0]. *)
Definition largest_capped_step (v Dv : vector) (alpha : Q) : Prop :=
  (0 < alpha /\ alpha <= 1) /\ nonneg_after v Dv alpha /\
  forall beta, 0 < beta -> beta <= 1 -> nonneg_after v Dv beta -> beta <= alpha.

(** The step length in the words of the specification: [eta] times the
    largest scalar of (0, 1] that keeps [v + alpha * Dv] non-negative, a
    strictly positive number. *)
Definition spec_step_length (v Dv : vector) (eta r : Q) : Prop :=
  exists alpha, largest_capped_step v Dv alpha /\ r == eta * alpha /\ 0 < r.

(** Componentwise positivity. *)
Definition positive (v : vector) : Prop := Forall (fun q => 0 < q) v.

(** [f] does not change what [p] reads. *)
Definition preserves {A : Type} (p : IP.t -> A) (f : IP.stmt) : Prop :=
  forall s, p (f s) = p s.

(** [f] does the same before and after [T]. *)
Definition commutes (T f : IP.stmt) : Prop := forall s, f (T s) = T (f s).

(** From a solver with [P], [f] leads to a solver with [Q]. *)
Definition hoare (P : IP.t -> Prop) (f : IP.stmt) (Q : IP.t -> Prop) : Prop :=
  forall s, P s -> Q (f s).


(** The length [reset_dimensions] gives [sol_chrono]. *)
Definition emitted_size (skip_uv : bool) (n m : nat) : nat :=
  if skip_uv then (n + 3 * m)%nat else (n + m)%nat.

(** The sizes [initialize] leaves. *)
Definition dimensioned (skip_uv : bool) (n m : nat) (s : IP.t) : Prop :=
  IP.n s = n /\ IP.m s = m /\
  length (IP.sol_chrono s) = emitted_size skip_uv n m.




(** The exit test in the words of the specification:
    [mu < muTol], [|rp|/m < rpTol] and [|rd|/n < rdTol], with
    [mu = (y . lam) / m]. *)
Definition spec_exit_test (env : Env) (s : IP.t) : Prop :=
  Vec.MatrDot (IP.y s) (IP.lam s) / IP.to_double (IP.m s) < IP.mu_tolerance s /\
  NormTwo env (IP.rp s) / IP.to_double (IP.m s) < IP.rp_nnorm (IP.IPtolerances s) /\
  NormTwo env (IP.rd s) / IP.to_double (IP.n s) < IP.rd_nnorm (IP.IPtolerances s).

(** The tolerances [Solve] sets. *)
Definition Solve_rp_tol : Q := 1 # 10000000.
Definition Solve_rd_tol : Q := 1 # 100000000.
Definition Solve_mu_tol : Q := 1 # 100000000.

(** The solver as the loop of [Solve] finds it. *)
Definition loop_start (env : Env) (cfg : Macros) (sysd : ChLcpSystemDescriptor)
    (s : IP.t) : IP.t :=
  IP.assign IP.set_iteration_count (fun _ => 1%nat)
    (IP.SetTolerances Solve_rp_tol Solve_rd_tol Solve_mu_tol
       (IP.initialize env cfg sysd
          (IP.assign IP.set_solver_call (fun s => S (IP.solver_call s)) s))).

(** ** Concrete collaborators for the examples *)

(** An exact solver for the 2 x 2 systems of the examples (Cramer's rule);
    it stands for the direct solver on problems with [n = m = 1]. *)
Definition cramer_2x2 (M : SparseMatrix.t) (rhs : vector) : vector :=
  let a := SparseMatrix.GetElement M 0 0 in
  let b := SparseMatrix.GetElement M 0 1 in
  let c := SparseMatrix.GetElement M 1 0 in
  let d := SparseMatrix.GetElement M 1 1 in
  let r0 := Vec.GetElement rhs 0 in
  let r1 := Vec.GetElement rhs 1 in
  let det := a * d - b * c in
  [Qred ((r0 * d - b * r1) / det); Qred ((a * r1 - c * r0) / det)].

(** The 1-norm; it is the Euclidean norm on vectors with at most one
    non-zero entry, as the examples have. *)
Definition norm_one_entry (v : vector) : Q :=
  Qred (fold_left (fun tot e => tot + Qabs e) v 0).

(** A rational stand-in for [exp] in the examples: below 1 on negative
    arguments, above 1 on positive ones (second-order expansions). *)
Definition exp_rational (q : Q) : Q :=
  if Qle_bool q 0 then Qred (1 / (1 - q + q * q / 2))
  else Qred (1 + q + q * q / 2).

Definition example_env : Env :=
  {| MumpsCall := cramer_2x2; std_exp := exp_rational; NormTwo := norm_one_entry |}.

(** A system descriptor with one variable and one unilateral constraint:
    minimize [x^2 - x] subject to [x >= 1].  It writes
    [[M, -Cq'; Cq, -E]] with [M = 2], [Cq = 1], [E = 0] and hands back
    [f = 1], [b = -1]. *)
Definition example_sysd : ChLcpSystemDescriptor :=
  {| CountActiveVariables := 1;
     CountActiveConstraints := fun _ _ => 1%nat;
     ConvertToMatrixForm_Z := fun Z _ _ _ =>
       SparseMatrix.SetElement
         (SparseMatrix.SetElement
            (SparseMatrix.SetElement Z 0 0 2 true) 0 1 (-1) true) 1 0 1 true;
     ConvertToMatrixForm_Cq_M := fun Cq M _ _ =>
       (SparseMatrix.SetElement Cq 0 0 1 true, SparseMatrix.SetElement M 0 0 2 true);
     ConvertToMatrixForm_E := fun E _ _ => E;
     ConvertToMatrixForm_Fvector := fun _ _ _ => [1];
     ConvertToMatrixForm_Bvector := fun _ _ _ => [-1] |}.

(** The solver after [initialize] on that descriptor, from a fresh object. *)
Definition example_solver : IP.t :=
  IP.initialize example_env source_macros example_sysd
    (IP.assign IP.set_solver_call (fun s => S (IP.solver_call s)) IP.make).

(** A fresh solver with the iteration cap lowered to 3. *)
Definition capped_solver : IP.t := IP.SetMaxIterations 3 IP.make.

(** ** Notions for the sparsity learner and the CSR matrix *)

Module Learner := ChSparsityPatternLearner.


(** A 2 x 2 row-major matrix built with room for four entries, holding the
    two diagonal entries: each row keeps one free slot. *)
Definition csr_with_holes : ChCSR3Matrix.t :=
  {| ChCSR3Matrix.m_num_rows := 2; ChCSR3Matrix.m_num_cols := 2;
     ChCSR3Matrix.row_major_format := true;
     ChCSR3Matrix.isCompressed := false;
     ChCSR3Matrix.max_shifts := 2147483647;
     ChCSR3Matrix.leadIndex := [0; 2; 4]%Z;
     ChCSR3Matrix.trailIndex := [0; -1; 1; -1]%Z;
     ChCSR3Matrix.values := [1; 0; 1; 0];
     ChCSR3Matrix.initialized_element := [true; false; true; false];
     ChCSR3Matrix.m_lock_broken := false |}.

(** Five insertions into a 3 x 3 learner, one of them repeated. *)
Definition example_calls : list Learner.call :=
  [ {| Learner.insrow := 0; Learner.inscol := 2; Learner.insval := 1; Learner.overwrite := true |};
    {| Learner.insrow := 0; Learner.inscol := 0; Learner.insval := 1; Learner.overwrite := true |};
    {| Learner.insrow := 2; Learner.inscol := 1; Learner.insval := 5; Learner.overwrite := false |};
    {| Learner.insrow := 0; Learner.inscol := 2; Learner.insval := 3; Learner.overwrite := true |};
    {| Learner.insrow := 1; Learner.inscol := 1; Learner.insval := 1; Learner.overwrite := true |} ].


(** A solver inside the loop of [Solve], with one variable and two
    constraints, zero residuals, [y = (1, 1)] and [lam = (6e-9, 6e-9)]:
    [y . lam = 1.2e-8] and [mu = 6e-9], on either side of [muTol = 1e-8]. *)
Definition gap_solver : IP.t :=
  IP.set_mu (6 # 1000000000)
    (IP.set_rd [0]
       (IP.set_rp [0; 0]
          (IP.set_lam [6 # 1000000000; 6 # 1000000000]
             (IP.set_y [1; 1]
                (IP.set_x [1]
                   (IP.set_iteration_count 3
                      (IP.SetTolerances Solve_rp_tol Solve_rd_tol Solve_mu_tol
                         (IP.set_m 2 (IP.set_n 1 IP.make))))))))).

(** ** Further examples *)

(** A 2 x 2 row-major matrix holding its two diagonal entries and no free
    slot. *)
Definition csr_compressed : ChCSR3Matrix.t :=
  {| ChCSR3Matrix.m_num_rows := 2; ChCSR3Matrix.m_num_cols := 2;
     ChCSR3Matrix.row_major_format := true;
     ChCSR3Matrix.isCompressed := true;
     ChCSR3Matrix.max_shifts := 2147483647;
     ChCSR3Matrix.leadIndex := [0; 1; 2]%Z;
     ChCSR3Matrix.trailIndex := [0; 1]%Z;
     ChCSR3Matrix.values := [1; 1];
     ChCSR3Matrix.initialized_element := [true; true];
     ChCSR3Matrix.m_lock_broken := false |}.

(** The insertions of [example_calls] in another order, with other values
    and one more repetition. *)
Definition example_calls_shuffled : list Learner.call :=
  [ {| Learner.insrow := 1; Learner.inscol := 1; Learner.insval := 7; Learner.overwrite := false |};
    {| Learner.insrow := 0; Learner.inscol := 0; Learner.insval := 0; Learner.overwrite := true |};
    {| Learner.insrow := 0; Learner.inscol := 2; Learner.insval := 2; Learner.overwrite := false |};
    {| Learner.insrow := 2; Learner.inscol := 1; Learner.insval := 1; Learner.overwrite := true |};
    {| Learner.insrow := 0; Learner.inscol := 0; Learner.insval := 4; Learner.overwrite := true |};
    {| Learner.insrow := 2; Learner.inscol := 1; Learner.insval := 1; Learner.overwrite := true |} ].

(** ** Notions for the loop of [Solve] *)

(** The vectors that [reset_dimensions] gives [n] rows have [n0] rows. *)
Definition cols_len (n0 : nat) (s : IP.t) : Prop :=
  length (IP.x s) = n0 /\ length (IP.x_pred s) = n0 /\
  length (IP.x_corr s) = n0 /\ length (IP.Dx s) = n0 /\
  length (IP.c s) = n0 /\ length (IP.rd s) = n0 /\ length (IP.vectn s) = n0.

(** The vectors that [reset_dimensions] gives [m] rows have [m0] rows. *)
Definition rows_len (m0 : nat) (s : IP.t) : Prop :=
  length (IP.y s) = m0 /\ length (IP.lam s) = m0 /\
  length (IP.y_pred s) = m0 /\ length (IP.lam_pred s) = m0 /\
  length (IP.y_corr s) = m0 /\ length (IP.lam_corr s) = m0 /\
  length (IP.Dy s) = m0 /\ length (IP.Dlam s) = m0 /\
  length (IP.b s) = m0 /\ length (IP.rp s) = m0 /\
  length (IP.rpd s) = m0 /\ length (IP.vectm s) = m0.

(** Every vector has the size of the problem, [n0] variables and [m0]
    constraints. *)
Definition sized (n0 m0 : nat) (s : IP.t) : Prop :=
  IP.n s = n0 /\ IP.m s = m0 /\ cols_len n0 s /\ rows_len m0 s.



(** A fresh solver told of one variable and two constraints, its vectors
    still empty. *)
Definition undimensioned_solver : IP.t := IP.set_m 2 (IP.set_n 1 IP.make).

(** ** Notions for [Solve] without constraints *)

(** The order of the KKT system of a layout. *)
Definition KKT_order (method : IP.KKT_SOLUTION_METHOD) (n m : nat) : nat :=
  match method with
  | IP.STANDARD => (2 * m + n)%nat
  | _ => (n + m)%nat
  end.

(** What [initialize] has loaded when it reaches its test on [m]: the
    dimensions of the descriptor, [rhs_sol] at the order of the KKT system
    and [c] the opposite of the descriptor's [f]. *)
Definition loaded (cfg : Macros) (sysd : ChLcpSystemDescriptor)
    (method : IP.KKT_SOLUTION_METHOD) (s : IP.t) : Prop :=
  IP.n s = CountActiveVariables sysd /\
  IP.m s = CountActiveConstraints sysd false (SKIP_CONTACTS_UV cfg) /\
  IP.KKT_solve_method s = method /\
  length (IP.rhs_sol s) = KKT_order method (IP.n s) (IP.m s) /\
  exists buffer,
    IP.c s = Vec.MatrScale (-1)
               (ConvertToMatrixForm_Fvector sysd buffer false (SKIP_CONTACTS_UV cfg)).

(** A system descriptor with two variables and no constraint:
    [M = diag(2, 4)] and [f = (2, 4)]. *)
Definition free_sysd : ChLcpSystemDescriptor :=
  {| CountActiveVariables := 2;
     CountActiveConstraints := fun _ _ => 0%nat;
     ConvertToMatrixForm_Z := fun Z _ _ _ =>
       SparseMatrix.SetElement (SparseMatrix.SetElement Z 0 0 2 true) 1 1 4 true;
     ConvertToMatrixForm_Cq_M := fun Cq M _ _ =>
       (Cq, SparseMatrix.SetElement (SparseMatrix.SetElement M 0 0 2 true) 1 1 4 true);
     ConvertToMatrixForm_E := fun E _ _ => E;
     ConvertToMatrixForm_Fvector := fun _ _ _ => [2; 4];
     ConvertToMatrixForm_Bvector := fun _ _ _ => [] |}.

(** The solver of [gap_solver] closer to the solution:
    [lam = (1e-9, 1e-9)], so that [y . lam = 2e-9] is below [muTol]. *)
Definition converged_solver : IP.t :=
  IP.set_lam [1 # 1000000000; 1 # 1000000000] gap_solver.

(** A solver set to the STANDARD layout and dimensioned for one variable
    and one constraint, with [y = (2)] and [lam = (3)]. *)
Definition standard_solver : IP.t :=
  IP.set_lam [3]
    (IP.set_y [2]
       (IP.reset_dimensions source_macros 0 0
          (IP.set_m 1 (IP.set_n 1 (IP.SetKKTSolutionMethod IP.STANDARD IP.make))))).

(* ===================================================================== *)
(** * Properties                                                          *)
(* ===================================================================== *)

(** ** Comparisons and loops *)

Lemma Qltb_lt (a b : Q) : Qltb a b = true <-> a < b.
Proof.
  unfold Qltb. rewrite negb_true_iff. split.
  - intros H. apply Qnot_le_lt. intros Hle.
    apply Qle_bool_iff in Hle. congruence.
  - intros H. destruct (Qle_bool b a) eqn:E; [|reflexivity].
    apply Qle_bool_iff in E. lra.
Qed.

Lemma Qltb_ge (a b : Q) : Qltb a b = false <-> b <= a.
Proof. unfold Qltb. rewrite negb_false_iff. apply Qle_bool_iff. Qed.




Lemma for_loop_S {S : Type} (k : nat) (body : nat -> S -> S) (s : S) :
  for_loop (Datatypes.S k) body s = body k (for_loop k body s).
Proof.
  unfold for_loop. rewrite seq_S, fold_left_app. reflexivity.
Qed.

(** ** The Newton step length *)

Section StepLength.

Variable eta : Q.

Lemma step_loop_le_init (l : list (Q * Q)) (a : Q) :
  fold_left (IP.step_length_body eta) l a <= a.
Proof.
  revert a. induction l as [|[v d] l IH]; intros a; simpl.
  - lra.
  - destruct (Qltb d 0); [|apply IH].
    destruct (Qltb (- eta * v / d) a) eqn:E; [|apply IH].
    apply Qltb_lt in E. specialize (IH (- eta * v / d)). lra.
Qed.

Lemma step_loop_bound (l : list (Q * Q)) (a v d : Q) :
  In (v, d) l -> d < 0 ->
  fold_left (IP.step_length_body eta) l a <= - eta * v / d.
Proof.
  revert a. induction l as [|[v' d'] l IH]; intros a Hin Hd; simpl.
  - destruct Hin.
  - destruct Hin as [Heq|Hin].
    + inversion Heq; subst v' d'.
      apply Qltb_lt in Hd as Hb. rewrite Hb.
      destruct (Qltb (- eta * v / d) a) eqn:E.
      * apply step_loop_le_init.
      * apply Qltb_ge in E.
        pose proof (step_loop_le_init l a). lra.
    + destruct (Qltb d' 0); [|now apply IH].
      destruct (Qltb (- eta * v' / d') a); now apply IH.
Qed.

Lemma step_loop_attained (l : list (Q * Q)) (a : Q) :
  fold_left (IP.step_length_body eta) l a = a \/
  exists v d, In (v, d) l /\ d < 0 /\
              fold_left (IP.step_length_body eta) l a = - eta * v / d.
Proof.
  revert a. induction l as [|[v d] l IH]; intros a; simpl.
  - now left.
  - destruct (Qltb d 0) eqn:Ed.
    + destruct (Qltb (- eta * v / d) a) eqn:E.
      * destruct (IH (- eta * v / d)) as [H|(v' & d' & Hin & Hd & H)].
        -- right. exists v, d. apply Qltb_lt in Ed. auto.
        -- right. exists v', d'. auto.
      * destruct (IH a) as [H|(v' & d' & Hin & Hd & H)]; [now left|].
        right. exists v', d'. auto.
    + destruct (IH a) as [H|(v' & d' & Hin & Hd & H)]; [now left|].
      right. exists v', d'. auto.
Qed.

Lemma find_Newton_step_length_range (v Dv : vector) :
  0 <= IP.find_Newton_step_length v Dv eta /\
  IP.find_Newton_step_length v Dv eta <= 1.
Proof.
  unfold IP.find_Newton_step_length.
  pose proof (step_loop_le_init (combine v Dv) 1) as H1.
  destruct (Qltb 0 _) eqn:E; [apply Qltb_lt in E|]; lra.
Qed.

(** Either the step is 0 or every shrinking component bounds it. *)
Lemma find_Newton_step_length_bound (v Dv : vector) (vi di : Q) :
  In (vi, di) (combine v Dv) -> di < 0 ->
  IP.find_Newton_step_length v Dv eta = 0 \/
  IP.find_Newton_step_length v Dv eta <= - eta * vi / di.
Proof.
  intros Hin Hd. unfold IP.find_Newton_step_length.
  destruct (Qltb 0 _) eqn:E; [right|now left].
  now apply step_loop_bound.
Qed.

End StepLength.

Lemma div_neg_bound (a t d : Q) : d < 0 -> a <= t / d -> t <= a * d.
Proof.
  intros Hd H. assert (Ht : t == (t / d) * d) by (field; lra). nra.
Qed.

Lemma div_neg_bound_inv (a t d : Q) : d < 0 -> t <= a * d -> a <= t / d.
Proof.
  intros Hd H. assert (Ht : t == (t / d) * d) by (field; lra). nra.
Qed.




Lemma Forall2_combine_In {A B : Type} (P : A -> B -> Prop) (l : list A) (k : list B) :
  Forall2 P l k -> forall a b, In (a, b) (combine l k) -> P a b.
Proof.
  induction 1 as [|a b l k Hab _ IH]; simpl; intros a' b' Hin; [tauto|].
  destruct Hin as [Heq|Hin]; [inversion Heq; subst; assumption|auto].
Qed.

Lemma combine_In_Forall2 {A B : Type} (P : A -> B -> Prop) (l : list A) (k : list B) :
  length l = length k ->
  (forall a b, In (a, b) (combine l k) -> P a b) -> Forall2 P l k.
Proof.
  revert k. induction l as [|a l IH]; intros [|b k] Hlen H; simpl in *;
    try discriminate; constructor.
  - apply H. now left.
  - apply IH; [lia|]. intros a' b' Hin. apply H. now right.
Qed.

(** C3, as the specification states it, fails: with [v = (4)],
    [Dv = (-1)] and [eta = 1/2] the largest step of (0, 1] is 1, the
    specification asks for 1/2, and the function returns 1. *)
Lemma find_Newton_step_length_not_eta_times_capped :
  largest_capped_step [4] [-1] 1 /\
  IP.find_Newton_step_length [4] [-1] (1 # 2) = 1 /\
  ~ spec_step_length [4] [-1] (1 # 2) (IP.find_Newton_step_length [4] [-1] (1 # 2)).
Proof.
  split; [|split].
  - split; [split; lra|]. split.
    + constructor; [lra|constructor].
    + intros beta _ Hb _. exact Hb.
  - reflexivity.
  - intros (alpha & ((_ & Hle) & _) & Heq & _).
    change (IP.find_Newton_step_length [4] [-1] (1 # 2)) with 1 in Heq. lra.
Qed.

(** C3, amended: for [v >= 0], [eta > 0] and vectors of one size,
    [find_Newton_step_length v Dv eta] is the largest value of
    [min (1, eta * alpha)] over the steps [alpha >= 0] that keep
    [v + alpha * Dv >= 0]: [eta] is applied before the cap at 1.  The value
    lies in [[0, 1]] and is positive when [v > 0]. *)
Theorem find_Newton_step_length_scaled_then_capped (v Dv : vector) (eta : Q) :
  0 < eta -> length v = length Dv -> Forall (fun q => 0 <= q) v ->
  let r := IP.find_Newton_step_length v Dv eta in
  (0 <= r /\ r <= 1) /\
  (exists alpha, 0 <= alpha /\ nonneg_after v Dv alpha /\ r == Qmin 1 (eta * alpha)) /\
  (forall alpha, 0 <= alpha -> nonneg_after v Dv alpha -> Qmin 1 (eta * alpha) <= r) /\
  (positive v -> 0 < r).
Proof.
  intros Heta Hlen Hv r.
  pose proof (find_Newton_step_length_range eta v Dv) as Hrange. fold r in Hrange.
  assert (Hvin : forall vi di, In (vi, di) (combine v Dv) -> 0 <= vi).
  { intros vi di Hin. rewrite List.Forall_forall in Hv. apply Hv.
    eapply in_combine_l; eauto. }
  split; [exact Hrange|]. split; [|split].
  - exists (r / eta).
    assert (Hq : 0 <= r / eta) by (apply Qle_shift_div_l; lra).
    assert (Hr : r == (r / eta) * eta) by (field; lra).
    split; [exact Hq|]. split.
    + apply combine_In_Forall2; [exact Hlen|]. intros vi di Hin.
      specialize (Hvin vi di Hin).
      destruct (Qlt_le_dec di 0) as [Hd|Hd]; [|nra].
      destruct (find_Newton_step_length_bound eta v Dv vi di Hin Hd) as [Hz|Hb].
      * fold r in Hz.
        assert (Hz' : r / eta == 0) by (rewrite Hz; field; lra).
        rewrite Hz'. lra.
      * fold r in Hb. apply div_neg_bound in Hb; [|assumption]. nra.
    + assert (He : eta * (r / eta) == r) by (field; lra).
      rewrite He. symmetry. apply Q.min_r. lra.
  - intros alpha Ha Hfeas.
    unfold r, IP.find_Newton_step_length.
    destruct (step_loop_attained eta (combine v Dv) 1)
      as [H1|(vk & dk & Hin & Hd & Hk)].
    + rewrite H1. simpl. apply Q.le_min_l.
    + assert (Hfk : 0 <= vk + alpha * dk)
        by (exact (Forall2_combine_In _ _ _ Hfeas vk dk Hin)).
      specialize (Hvin vk dk Hin).
      assert (Hb : eta * alpha <= - eta * vk / dk)
        by (apply div_neg_bound_inv; [assumption|nra]).
      rewrite Hk.
      destruct (Qltb 0 (- eta * vk / dk)) eqn:E.
      * eapply Qle_trans; [apply Q.le_min_r|exact Hb].
      * apply Qltb_ge in E.
        eapply Qle_trans; [apply Q.le_min_r|]. lra.
  - intros Hpos. unfold r, IP.find_Newton_step_length.
    destruct (step_loop_attained eta (combine v Dv) 1)
      as [H1|(vk & dk & Hin & Hd & Hk)].
    + rewrite H1. simpl. lra.
    + rewrite Hk.
      assert (Hvk : 0 < vk).
      { unfold positive in Hpos. rewrite List.Forall_forall in Hpos. apply Hpos.
        eapply in_combine_l; eauto. }
      assert (Hgt : 0 < - eta * vk / dk).
      { assert (Ht : - eta * vk == (- eta * vk / dk) * dk) by (field; lra). nra. }
      apply Qltb_lt in Hgt as Hb. rewrite Hb. exact Hgt.
Qed.

Lemma find_Newton_step_length_scaled_then_capped_witness :
  let r := IP.find_Newton_step_length [4; 1] [-1; -2] (1 # 2) in
  (0 <= r /\ r <= 1) /\
  (exists alpha, 0 <= alpha /\ nonneg_after [4; 1] [-1; -2] alpha /\
                 r == Qmin 1 ((1 # 2) * alpha)) /\
  (forall alpha, 0 <= alpha -> nonneg_after [4; 1] [-1; -2] alpha ->
                 Qmin 1 ((1 # 2) * alpha) <= r) /\
  (positive [4; 1] -> 0 < r).
Proof.
  apply (find_Newton_step_length_scaled_then_capped [4; 1] [-1; -2] (1 # 2)).
  - reflexivity.
  - reflexivity.
  - repeat constructor; discriminate.
Defined.

(** ** Statements: what a member function leaves alone *)


Lemma preserves_skip {A : Type} (p : IP.t -> A) : preserves p IP.skip.
Proof. intros s. reflexivity. Qed.

Lemma preserves_seq {A : Type} (p : IP.t -> A) (a b : IP.stmt) :
  preserves p a -> preserves p b -> preserves p (IP.seq a b).
Proof. intros Ha Hb s. unfold IP.seq. rewrite Hb. apply Ha. Qed.

Lemma preserves_ifs {A : Type} (p : IP.t -> A) (c : IP.t -> bool) (a b : IP.stmt) :
  preserves p a -> preserves p b -> preserves p (IP.ifs c a b).
Proof. intros Ha Hb s. unfold IP.ifs. destruct (c s); [apply Ha|apply Hb]. Qed.

Lemma preserves_when {A : Type} (p : IP.t -> A) (c : IP.t -> bool) (a : IP.stmt) :
  preserves p a -> preserves p (IP.when c a).
Proof. intros Ha. apply preserves_ifs; [exact Ha|apply preserves_skip]. Qed.

Lemma preserves_local {A V : Type} (p : IP.t -> A) (e : IP.t -> V) (k : V -> IP.stmt) :
  (forall v, preserves p (k v)) -> preserves p (IP.local e k).
Proof. intros Hk s. unfold IP.local. apply Hk. Qed.

Lemma preserves_switch {A : Type} (p : IP.t -> A) (a b c : IP.stmt) :
  preserves p a -> preserves p b -> preserves p c ->
  preserves p (IP.switch_KKT a b c).
Proof.
  intros Ha Hb Hc s. unfold IP.switch_KKT.
  destruct (IP.KKT_solve_method s); [apply Ha|apply Hb|apply Hc].
Qed.

(** Walks the text of a member function; an assignment to another field is
    settled by computation. *)
Ltac frame :=
  lazymatch goal with
  | |- preserves _ IP.skip => apply preserves_skip
  | |- preserves _ (IP.seq _ _) => apply preserves_seq; frame
  | |- preserves _ (IP.ifs _ _ _) => apply preserves_ifs; frame
  | |- preserves _ (IP.when _ _) => apply preserves_when; frame
  | |- preserves _ (IP.local _ _) => apply preserves_local; intro; frame
  | |- preserves _ (IP.switch_KKT _ _ _) => apply preserves_switch; frame
  | |- preserves _ (IP.assign _ _) => intro; reflexivity
  | |- preserves _ (let _ := _ in _) => cbv zeta; frame
  | |- preserves _ (IP.KKTsolve _ _ _) => unfold IP.KKTsolve; frame
  | |- preserves _ (IP.KKTsolve_assemble _ _) => unfold IP.KKTsolve_assemble; frame
  | |- preserves _ (IP.KKTsolve_extract _) => unfold IP.KKTsolve_extract; frame
  | |- preserves _ IP.KKTsolve_normal => unfold IP.KKTsolve_normal; frame
  | |- preserves _ (IP.call_linear_solver _) => unfold IP.call_linear_solver; frame
  | |- preserves _ (IP.fullupdate_residual _) => unfold IP.fullupdate_residual; frame
  | |- preserves _ (IP.VerifyKKTconditions _ _) => unfold IP.VerifyKKTconditions; frame
  | |- preserves _ (IP.starting_point_Nocedal _ _ _ _) =>
      unfold IP.starting_point_Nocedal; frame
  | |- preserves _ (IP.only_predict_block _ _ _) => unfold IP.only_predict_block; frame
  | |- preserves _ (IP.correction_phase _ _ _) => unfold IP.correction_phase; frame
  | |- preserves _ (IP.iterate _ _) => unfold IP.iterate; frame
  | |- preserves _ IP.update_history => unfold IP.update_history; frame
  | |- preserves _ (IP.generate_solution _) => unfold IP.generate_solution; frame
  | |- preserves _ (IP.reset_dimensions _ _ _) => unfold IP.reset_dimensions; frame
  | |- preserves _ IP.make_positive_definite => unfold IP.make_positive_definite; frame
  | |- preserves _ (IP.SetTolerances _ _ _) => unfold IP.SetTolerances; frame
  | |- preserves _ (IP.initialize _ _ _) => unfold IP.initialize; frame
  | |- preserves _ _ => solve [auto]
  end.

Section Frames.

Variable env : Env.
Variable cfg : Macros.



Lemma KKTsolve_keeps_mu sigma : preserves IP.mu (IP.KKTsolve env cfg sigma).
Proof. frame. Qed.

Lemma KKTsolve_keeps_m sigma : preserves IP.m (IP.KKTsolve env cfg sigma).
Proof. frame. Qed.

Lemma KKTsolve_keeps_flags sigma :
  preserves (fun s => (IP.EQUAL_STEP_LENGTH s, IP.ADAPTIVE_ETA s, IP.ONLY_PREDICT s))
    (IP.KKTsolve env cfg sigma).
Proof. frame. Qed.


End Frames.

(** ** Statements: pre- and postconditions *)


Lemma hoare_seq (P R Q : IP.t -> Prop) (a b : IP.stmt) :
  hoare P a R -> hoare R b Q -> hoare P (IP.seq a b) Q.
Proof. intros Ha Hb s HP. unfold IP.seq. apply Hb, Ha, HP. Qed.

Lemma hoare_local {V : Type} (P Q : IP.t -> Prop) (e : IP.t -> V) (k : V -> IP.stmt) :
  (forall v, hoare (fun s => P s /\ v = e s) (k v) Q) -> hoare P (IP.local e k) Q.
Proof. intros Hk s HP. unfold IP.local. apply (Hk (e s)). split; [exact HP|reflexivity]. Qed.


Lemma seq_apply (a b : IP.stmt) (s : IP.t) : IP.seq a b s = b (a s).
Proof. reflexivity. Qed.

Lemma hoare_preserved {A : Type} (p : IP.t -> A) (Q : A -> Prop) (f : IP.stmt) :
  preserves p f -> hoare (fun s => Q (p s)) f (fun s => Q (p s)).
Proof. intros Hp s HQ. now rewrite (Hp s). Qed.

Lemma hoare_weaken (P P' Q : IP.t -> Prop) (f : IP.stmt) :
  (forall s, P s -> P' s) -> hoare P' f Q -> hoare P f Q.
Proof. intros HPP Hf s HP. apply Hf, HPP, HP. Qed.

(** ** Positivity of [y] and [lam] across [iterate] *)

Ltac destruct_state s :=
  destruct s as [?m ?n ?solver_call ?iteration_count ?iteration_count_max
                 ?equal_step_length ?adaptive_eta ?only_predict
                 ?warm_start_broken ?warm_start
                 ?IPtolerances ?IPres ?mu_tolerance ?method
                 ?x ?y ?lam ?x_pred ?y_pred ?lam_pred ?x_corr ?y_corr ?lam_corr
                 ?Dx ?Dy ?Dlam ?b ?c ?rp ?rd ?rpd ?mu ?rhs_sol
                 ?BigMat ?SmallMat ?E ?vectn ?vectm ?sol_chrono ?verbose].

Section Positivity.

Variable env : Env.
Variable cfg : Macros.







End Positivity.

(** ** The sparsity pattern learner *)

Lemma apply_calls_length (calls : list Learner.call) (s : Learner.t) :
  length (Learner.row_lists (Learner.apply_calls calls s))
  = length (Learner.row_lists s).
Proof.
  revert s. induction calls as [|k calls IH]; intros s; simpl; [reflexivity|].
  unfold Learner.apply_calls in *. simpl. rewrite IH. simpl.
  apply length_alter.
Qed.

Lemma inserted_cols_cons (r : nat) (k : Learner.call) (calls : list Learner.call) :
  Learner.inserted_cols r (k :: calls)
  = if Nat.eqb (Learner.insrow k) r
    then Learner.inscol k :: Learner.inserted_cols r calls
    else Learner.inserted_cols r calls.
Proof.
  unfold Learner.inserted_cols. rewrite filter_cons.
  destruct (Nat.eqb (Learner.insrow k) r); simpl; reflexivity.
Qed.

(** After the calls, row [r] holds what it held followed by the columns
    inserted into it, in call order. *)
Lemma apply_calls_row (calls : list Learner.call) (s : Learner.t) (r : nat)
    (held : list Z) :
  Learner.row_lists s !! r = Some held ->
  Learner.row_lists (Learner.apply_calls calls s) !! r
  = Some (held ++ Learner.inserted_cols r calls).
Proof.
  revert s held. induction calls as [|k calls IH]; intros s held Hr.
  - simpl. unfold Learner.inserted_cols. simpl. now rewrite app_nil_r.
  - change (Learner.apply_calls (k :: calls) s)
      with (Learner.apply_calls calls (Learner.apply_call s k)).
    rewrite inserted_cols_cons.
    destruct (Nat.eqb_spec (Learner.insrow k) r) as [Heq|Hne].
    + rewrite (IH _ (held ++ [Learner.inscol k])).
      * now rewrite <- app_assoc.
      * simpl. rewrite list_lookup_alter. rewrite decide_True by exact Heq.
        now rewrite Heq, Hr.
    + apply IH. simpl. rewrite list_lookup_alter_ne by exact Hne. exact Hr.
Qed.

Lemma list_unique_sorted (l : list Z) :
  Sorted.StronglySorted (fun a b => is_true (a <=? b)%Z) l ->
  Sorted.StronglySorted Z.lt (Learner.list_unique l) /\
  forall col, col ∈ Learner.list_unique l <-> col ∈ l.
Proof.
  induction 1 as [|a rest Hrest [IHs IHe] Ha].
  - split; [constructor|reflexivity].
  - destruct rest as [|a' t].
    + simpl. split; [repeat constructor|reflexivity].
    + change (Learner.list_unique (a :: a' :: t))
        with (if Z.eqb a a' then Learner.list_unique (a' :: t)
              else a :: Learner.list_unique (a' :: t)).
      destruct (Z.eqb_spec a a') as [->|Hne].
      * split; [exact IHs|]. intros col. rewrite IHe.
        rewrite (elem_of_cons (a' :: t) col a'). rewrite elem_of_cons. tauto.
      * split.
        -- constructor; [exact IHs|].
           apply List.Forall_forall. intros col Hin.
           apply list_elem_of_In, IHe in Hin.
           apply Sorted.StronglySorted_inv in Hrest as [_ Ht].
           inversion Ha as [|? ? Haa' _]; subst.
           apply Z.leb_le in Haa'.
           apply elem_of_cons in Hin as [->|Hin]; [lia|].
           rewrite List.Forall_forall in Ht.
           apply list_elem_of_In, Ht, Z.leb_le in Hin. lia.
        -- intros col. rewrite !(elem_of_cons _ col a). now rewrite IHe.
Qed.

Lemma leb_transitive : Transitive (fun a b : Z => is_true (a <=? b)%Z).
Proof. intros a b c Hab Hbc. apply Z.leb_le in Hab, Hbc. apply Z.leb_le. lia. Qed.

Lemma sort_unique_spec (l : list Z) :
  Sorted.StronglySorted Z.lt (Learner.list_unique (Learner.list_sort l)) /\
  forall col, col ∈ Learner.list_unique (Learner.list_sort l) <-> col ∈ l.
Proof.
  destruct (list_unique_sorted (Learner.list_sort l)) as [Hs He].
  { apply ZSort.StronglySorted_sort, leb_transitive. }
  split; [exact Hs|]. intros col. rewrite He.
  unfold Learner.list_sort. now rewrite <- (ZSort.Permuted_sort l).
Qed.


Lemma GetNNZ_sum (s : Learner.t) :
  fst (Learner.GetNNZ s) = sum_list (length (A := Z) <$> Learner.row_lists s).
Proof.
  unfold Learner.GetNNZ. simpl.
  assert (H : forall rows acc,
             fold_left (fun acc l => (acc + length l)%nat) rows acc
             = (acc + sum_list (length (A := Z) <$> rows))%nat).
  { induction rows as [|row rows IH]; intros acc; [simpl; lia|].
    cbn [fold_left]. rewrite IH, fmap_cons. cbn [sum_list_with]. unfold id. lia. }
  now rewrite H.
Qed.




Lemma elem_of_inserted_cols (r : nat) (col : Z) (calls : list Learner.call) :
  col ∈ Learner.inserted_cols r calls <->
  (r, col) ∈ Learner.inserted_pairs calls.
Proof.
  unfold Learner.inserted_cols, Learner.inserted_pairs.
  rewrite !list_elem_of_fmap. split.
  - intros (k & -> & Hk). apply list_elem_of_filter in Hk as [Hr Hk].
    apply Is_true_true, Nat.eqb_eq in Hr. exists k. split; [now rewrite Hr|exact Hk].
  - intros (k & Heq & Hk). inversion Heq; subst. exists k. split; [reflexivity|].
    apply list_elem_of_filter. split; [|exact Hk].
    apply Is_true_true, Nat.eqb_eq. reflexivity.
Qed.



(** The example of the specification for the learner: rows [[0; 2]], [[1]]
    and [[1]], four distinct pairs out of five calls. *)
Example learner_example_pattern :
  let learner := Learner.apply_calls example_calls (Learner.make 3 3 true) in
  fst (Learner.GetSparsityPattern learner) = [[0; 2]; [1]; [1]]%Z /\
  fst (Learner.GetNNZ (snd (Learner.GetSparsityPattern learner))) = 4%nat.
Proof. split; reflexivity. Qed.

(** ** NNZ accounting of the CSR matrix *)

Lemma GetNNZ_is_trailing_length (M : ChCSR3Matrix.t) :
  ChCSR3Matrix.GetNNZ M
  = default 0%Z (ChCSR3Matrix.leadIndex M !! ChCSR3Matrix.leading_dimension M).
Proof. reflexivity. Qed.

Lemma count_true_prefix (flags : list bool) (N : nat) :
  (forall k, flags !! k = Some true <-> (k < N)%nat) ->
  length (filter (fun f => f = true) flags) = N.
Proof.
  revert N. induction flags as [|f flags IH]; intros N H.
  - destruct N as [|N]; [reflexivity|].
    destruct (H 0%nat) as [_ H0]. discriminate H0. lia.
  - destruct N as [|N].
    + rewrite filter_cons. destruct f.
      * destruct (H 0%nat) as [H0 _]. specialize (H0 eq_refl). lia.
      * rewrite decide_False by discriminate. apply (IH 0%nat).
        intros k. specialize (H (S k)). simpl in H. rewrite H. lia.
    + rewrite filter_cons. destruct f.
      * rewrite decide_True by reflexivity. simpl. f_equal. apply IH.
        intros k. specialize (H (S k)). simpl in H. rewrite H. lia.
      * destruct (H 0%nat) as [_ H0]. discriminate H0. lia.
Qed.

(** On a matrix without gaps [GetNNZ] is the number of initialized slots. *)
Lemma GetNNZ_without_gaps (M : ChCSR3Matrix.t) :
  ChCSR3Matrix.no_gaps M ->
  ChCSR3Matrix.GetNNZ M = ChCSR3Matrix.initialized_count M.
Proof.
  intros [H0 H]. unfold ChCSR3Matrix.initialized_count, ChCSR3Matrix.GetNNZ.
  rewrite (count_true_prefix _ (Z.to_nat (ChCSR3Matrix.GetTrailingIndexLength M))).
  - lia.
  - intros k. rewrite H. lia.
Qed.

(** C2 on a matrix with free slots: [GetNNZ] returns
    [leadIndex[*leading_dimension] = 4], the two free slots included, while
    two slots are initialized. *)
Lemma GetNNZ_counts_free_slots :
  ChCSR3Matrix.GetNNZ csr_with_holes = 4%Z /\
  ChCSR3Matrix.initialized_count csr_with_holes = 2%Z /\
  ChCSR3Matrix.IsCompressed csr_with_holes = false.
Proof. repeat split. Qed.

(** ** Loops that write a vector or the matrix *)

Lemma fill_loop_length (pos : nat -> nat) (f : nat -> Q) (k : nat) (v : vector) :
  length (for_loop k (fun i w => Vec.SetElement w (pos i) (f i)) v) = length v.
Proof.
  induction k as [|k IH]; [reflexivity|].
  rewrite for_loop_S. unfold Vec.SetElement at 1. now rewrite length_insert.
Qed.


Lemma fill_loop_hit (pos : nat -> nat) (f : nat -> Q) (k : nat) (v : vector) (i : nat) :
  (i < k)%nat -> (pos i < length v)%nat ->
  (forall i', (i' < k)%nat -> pos i' = pos i -> i' = i) ->
  for_loop k (fun i w => Vec.SetElement w (pos i) (f i)) v !! pos i = Some (f i).
Proof.
  induction k as [|k IH]; intros Hi Hlen Hinj; [lia|].
  rewrite for_loop_S. unfold Vec.SetElement at 1.
  destruct (decide (i = k)) as [->|Hne].
  - apply list_lookup_insert_eq. now rewrite fill_loop_length.
  - rewrite list_lookup_insert_ne.
    + apply IH; [lia|exact Hlen|]. intros i' Hi'. apply Hinj. lia.
    + intros Heq. apply Hne. symmetry. apply Hinj; [lia|exact Heq].
Qed.

Lemma SparseMatrix_get_set (M : SparseMatrix.t) (r c r' c' : nat) (v : Q) :
  SparseMatrix.GetElement (SparseMatrix.SetElement M r c v true) r' c'
  = if decide ((r, c) = (r', c')) then v else SparseMatrix.GetElement M r' c'.
Proof.
  unfold SparseMatrix.GetElement, SparseMatrix.SetElement. simpl.
  rewrite lookup_insert. destruct (decide ((r, c) = (r', c'))); [|reflexivity].
  simpl. now destruct (SparseMatrix.elems M !! (r, c)).
Qed.



(** ** The augmented KKT system *)

Section Augmented.

Variable env : Env.
Variable cfg : Macros.




End Augmented.

(** ** The emitted solution *)

Lemma SetElement_length (w : vector) (i : nat) (a : Q) :
  length (Vec.SetElement w i a) = length w.
Proof. apply length_insert. Qed.






Section Solution.

Variable env : Env.
Variable cfg : Macros.


Lemma Resize_length (k : nat) (v : vector) : length (Vec.Resize k v) = k.
Proof.
  unfold Vec.Resize. destruct (Nat.eqb_spec (length v) k); [assumption|].
  apply length_replicate.
Qed.

Lemma check_exit_conditions_state (only_mu : bool) (s : IP.t) :
  snd (IP.check_exit_conditions env only_mu s) = IP.VerifyKKTconditions env false s.
Proof.
  unfold IP.check_exit_conditions. cbv beta iota zeta.
  destruct (_ && _); reflexivity.
Qed.

(** The loop of [Solve] leaves alone what the exit test, [iterate] and the
    counter leave alone. *)
Lemma Solve_loop_preserves {A : Type} (p : IP.t -> A) (fuel : nat) :
  preserves p (IP.VerifyKKTconditions env false) ->
  preserves p (IP.iterate env cfg) ->
  preserves p (IP.assign IP.set_iteration_count (fun s => S (IP.iteration_count s))) ->
  preserves p (IP.Solve_loop env cfg fuel).
Proof.
  intros Hv Hi Hc. induction fuel as [|fuel IH]; intros s; [reflexivity|].
  cbn [IP.Solve_loop].
  destruct (IP.iteration_count s <? IP.iteration_count_max s)%nat;
    [|reflexivity].
  pose proof (check_exit_conditions_state true s) as Hs.
  destruct (IP.check_exit_conditions env true s) as [exit s1].
  cbn [snd] in Hs. subst s1.
  destruct exit; [apply Hv|].
  rewrite IH. unfold IP.seq, IP.update_history, IP.skip.
  now rewrite Hc, Hi, Hv.
Qed.

Lemma dimensioned_kept (skip_uv : bool) (n m : nat) (f : IP.stmt) :
  preserves IP.n f -> preserves IP.m f -> preserves IP.sol_chrono f ->
  hoare (dimensioned skip_uv n m) f (dimensioned skip_uv n m).
Proof.
  intros Hn Hm Hs s (Pn & Pm & Ps). unfold dimensioned.
  rewrite (Hn s), (Hm s), (Hs s). auto.
Qed.

Lemma reset_dimensions_dimensioned (n m n_old m_old : nat) :
  hoare (fun s => IP.n s = n /\ IP.m s = m)
    (IP.reset_dimensions cfg n_old m_old)
    (dimensioned (SKIP_CONTACTS_UV cfg) n m).
Proof.
  unfold IP.reset_dimensions.
  eapply hoare_seq;
    [apply (hoare_preserved (fun s => (IP.n s, IP.m s))
              (fun d => fst d = n /\ snd d = m)); frame|].
  eapply hoare_seq;
    [apply (hoare_preserved (fun s => (IP.n s, IP.m s))
              (fun d => fst d = n /\ snd d = m)); frame|].
  eapply hoare_seq; [|apply dimensioned_kept; frame].
  intros s0 [Hn Hm]. unfold IP.ifs, IP.assign, dimensioned, emitted_size.
  cbn [fst snd] in *.
  destruct (SKIP_CONTACTS_UV cfg);
    cbn [IP.n IP.m IP.sol_chrono IP.set_sol_chrono];
    rewrite Resize_length, Hn, Hm; auto.
Qed.

Lemma initialize_dimensioned (sysd : ChLcpSystemDescriptor) (s : IP.t) :
  dimensioned (SKIP_CONTACTS_UV cfg) (CountActiveVariables sysd)
    (CountActiveConstraints sysd false (SKIP_CONTACTS_UV cfg))
    (IP.initialize env cfg sysd s).
Proof.
  revert s.
  assert (H : hoare (fun _ => True) (IP.initialize env cfg sysd)
                (dimensioned (SKIP_CONTACTS_UV cfg) (CountActiveVariables sysd)
                   (CountActiveConstraints sysd false (SKIP_CONTACTS_UV cfg)))).
  { unfold IP.initialize.
    eapply hoare_seq with (R := fun _ => True); [intros ? _; exact I|].
    apply hoare_local; intros n_old.
    apply hoare_local; intros m_old.
    eapply hoare_weaken; [intros ? _; exact I|].
    eapply hoare_seq with (R := fun s => IP.n s = CountActiveVariables sysd);
      [intros ? _; reflexivity|].
    eapply hoare_seq
      with (R := fun s => IP.n s = CountActiveVariables sysd /\
                          IP.m s = CountActiveConstraints sysd false (SKIP_CONTACTS_UV cfg));
      [intros ? Hn; split; [exact Hn|reflexivity]|].
    eapply hoare_seq; [apply reset_dimensions_dimensioned|].
    apply dimensioned_kept; frame. }
  intros s. exact (H s I).
Qed.


End Solution.

(** ** Statements that do not read the tolerances *)

Lemma commutes_skip (T : IP.stmt) : commutes T IP.skip.
Proof. intros s. reflexivity. Qed.

Lemma commutes_seq (T a b : IP.stmt) :
  commutes T a -> commutes T b -> commutes T (IP.seq a b).
Proof. intros Ha Hb s. unfold IP.seq. now rewrite Ha, Hb. Qed.

Lemma commutes_ifs (T : IP.stmt) (c : IP.t -> bool) (a b : IP.stmt) :
  (forall s, c (T s) = c s) -> commutes T a -> commutes T b ->
  commutes T (IP.ifs c a b).
Proof. intros Hc Ha Hb s. unfold IP.ifs. rewrite Hc. destruct (c s); auto. Qed.

Lemma commutes_when (T : IP.stmt) (c : IP.t -> bool) (a : IP.stmt) :
  (forall s, c (T s) = c s) -> commutes T a -> commutes T (IP.when c a).
Proof. intros Hc Ha. apply commutes_ifs; [exact Hc|exact Ha|apply commutes_skip]. Qed.

Lemma commutes_local {V : Type} (T : IP.stmt) (e : IP.t -> V) (k : V -> IP.stmt) :
  (forall s, e (T s) = e s) -> (forall v, commutes T (k v)) ->
  commutes T (IP.local e k).
Proof. intros He Hk s. unfold IP.local. rewrite He. apply Hk. Qed.

Lemma commutes_switch (T a b c : IP.stmt) :
  (forall s, IP.KKT_solve_method (T s) = IP.KKT_solve_method s) ->
  commutes T a -> commutes T b -> commutes T c ->
  commutes T (IP.switch_KKT a b c).
Proof.
  intros Hm Ha Hb Hc s. unfold IP.switch_KKT. rewrite Hm.
  destruct (IP.KKT_solve_method s); auto.
Qed.

Lemma commutes_assign {V : Type} (T : IP.stmt) (set : V -> IP.t -> IP.t)
    (e : IP.t -> V) :
  (forall s, e (T s) = e s) -> (forall v s, set v (T s) = T (set v s)) ->
  commutes T (IP.assign set e).
Proof. intros He Hs s. unfold IP.assign. now rewrite He, Hs. Qed.

(** Walks the text of a member function; what a statement reads and the
    field it writes are compared by computation. *)
Ltac commute :=
  lazymatch goal with
  | |- commutes _ IP.skip => apply commutes_skip
  | |- commutes _ (IP.seq _ _) => apply commutes_seq; commute
  | |- commutes _ (IP.ifs _ _ _) =>
      apply commutes_ifs; [intros; reflexivity|commute..]
  | |- commutes _ (IP.when _ _) =>
      apply commutes_when; [intros; reflexivity|commute]
  | |- commutes _ (IP.local _ _) =>
      apply commutes_local; [intros; reflexivity|intro; commute]
  | |- commutes _ (IP.switch_KKT _ _ _) =>
      apply commutes_switch; [intros; reflexivity|commute..]
  | |- commutes _ (IP.assign _ _) =>
      apply commutes_assign; intros; reflexivity
  | |- commutes _ (let _ := _ in _) => cbv zeta; commute
  | |- commutes _ (IP.KKTsolve _ _ _) => unfold IP.KKTsolve; commute
  | |- commutes _ (IP.KKTsolve_assemble _ _) => unfold IP.KKTsolve_assemble; commute
  | |- commutes _ (IP.KKTsolve_extract _) => unfold IP.KKTsolve_extract; commute
  | |- commutes _ IP.KKTsolve_normal => unfold IP.KKTsolve_normal; commute
  | |- commutes _ (IP.call_linear_solver _) => unfold IP.call_linear_solver; commute
  | |- commutes _ (IP.fullupdate_residual _) => unfold IP.fullupdate_residual; commute
  | |- commutes _ (IP.starting_point_Nocedal _ _ _ _) =>
      unfold IP.starting_point_Nocedal; commute
  | |- commutes _ (IP.reset_dimensions _ _ _) => unfold IP.reset_dimensions; commute
  | |- commutes _ IP.make_positive_definite => unfold IP.make_positive_definite; commute
  | |- commutes _ (IP.initialize _ _ _) => unfold IP.initialize; commute
  end.

Section Tolerances.

Variable env : Env.
Variable cfg : Macros.

Lemma initialize_commutes_SetTolerances (sysd : ChLcpSystemDescriptor)
    (rp_tol rd_tol mu_tol : Q) :
  commutes (IP.SetTolerances rp_tol rd_tol mu_tol)
    (IP.seq (IP.assign IP.set_solver_call (fun s => S (IP.solver_call s)))
       (IP.initialize env cfg sysd)).
Proof. commute. Qed.

Lemma SetTolerances_overrides (rp_tol rd_tol mu_tol a b c : Q) (s : IP.t) :
  IP.SetTolerances a b c (IP.SetTolerances rp_tol rd_tol mu_tol s)
  = IP.SetTolerances a b c s.
Proof. reflexivity. Qed.

Lemma Solve_loop_keeps_IPtolerances (fuel : nat) :
  preserves IP.IPtolerances (IP.Solve_loop env cfg fuel).
Proof. apply Solve_loop_preserves; frame. Qed.

Lemma Solve_loop_keeps_mu_tolerance (fuel : nat) :
  preserves IP.mu_tolerance (IP.Solve_loop env cfg fuel).
Proof. apply Solve_loop_preserves; frame. Qed.

(** C10: a call of [Solve] that reaches the loop overwrites the
    tolerances with [rpTol = 1e-7], [rdTol = 1e-8], [muTol = 1e-8] before
    the first pass.  The loop starts from a solver with these values, they
    are still in place when [Solve] returns, and the result of [Solve] is
    the same whatever [SetTolerances] had configured before the call. *)
Theorem Solve_overrides_tolerances (sysd : ChLcpSystemDescriptor) (s : IP.t)
    (rp_tol rd_tol mu_tol : Q) :
  CountActiveConstraints sysd false (SKIP_CONTACTS_UV cfg) <> 0%nat ->
  let start := loop_start env cfg sysd s in
  (IP.IPtolerances start = {| IP.rp_nnorm := 1 # 10000000; IP.rd_nnorm := 1 # 100000000 |} /\
   IP.mu_tolerance start = 1 # 100000000 /\
   fst (IP.Solve env cfg sysd s)
   = IP.generate_solution cfg
       (IP.when (fun s => IP.verbose s) (IP.VerifyKKTconditions env true)
          (IP.Solve_loop env cfg (IP.iteration_count_max start) start))) /\
  (IP.IPtolerances (fst (IP.Solve env cfg sysd s))
   = {| IP.rp_nnorm := 1 # 10000000; IP.rd_nnorm := 1 # 100000000 |} /\
   IP.mu_tolerance (fst (IP.Solve env cfg sysd s)) = 1 # 100000000) /\
  IP.Solve env cfg sysd (IP.SetTolerances rp_tol rd_tol mu_tol s)
  = IP.Solve env cfg sysd s.
Proof.
  intros Hm. cbv zeta.
  assert (Hshape : forall s0,
            IP.Solve env cfg sysd s0
            = (IP.generate_solution cfg
                 (IP.when (fun s => IP.verbose s) (IP.VerifyKKTconditions env true)
                    (IP.Solve_loop env cfg (IP.iteration_count_max (loop_start env cfg sysd s0))
                       (loop_start env cfg sysd s0))),
               IP.sol_chrono
                 (IP.generate_solution cfg
                    (IP.when (fun s => IP.verbose s) (IP.VerifyKKTconditions env true)
                       (IP.Solve_loop env cfg
                          (IP.iteration_count_max (loop_start env cfg sysd s0))
                          (loop_start env cfg sysd s0)))))).
  { intros s0. unfold IP.Solve, loop_start, Solve_rp_tol, Solve_rd_tol, Solve_mu_tol.
    cbv beta zeta delta [IP.seq].
    destruct (initialize_dimensioned env cfg sysd
                (IP.assign IP.set_solver_call (fun s => S (IP.solver_call s)) s0))
      as (_ & Hm1 & _).
    rewrite Hm1.
    destruct (Nat.eqb_spec (CountActiveConstraints sysd false (SKIP_CONTACTS_UV cfg)) 0)
      as [|_]; [contradiction|].
    reflexivity. }
  split; [|split].
  - split; [reflexivity|]. split; [reflexivity|]. rewrite Hshape. reflexivity.
  - rewrite Hshape. cbn [fst].
    rewrite ((ltac:(frame) : preserves IP.IPtolerances (IP.generate_solution cfg)) _).
    rewrite ((ltac:(frame) : preserves IP.mu_tolerance (IP.generate_solution cfg)) _).
    rewrite ((ltac:(frame) :
                preserves IP.IPtolerances
                  (IP.when (fun s => IP.verbose s) (IP.VerifyKKTconditions env true))) _).
    rewrite ((ltac:(frame) :
                preserves IP.mu_tolerance
                  (IP.when (fun s => IP.verbose s) (IP.VerifyKKTconditions env true))) _).
    rewrite (Solve_loop_keeps_IPtolerances _ _), (Solve_loop_keeps_mu_tolerance _ _).
    split; reflexivity.
  - rewrite !Hshape.
    assert (Hstart : loop_start env cfg sysd (IP.SetTolerances rp_tol rd_tol mu_tol s)
                     = loop_start env cfg sysd s).
    { unfold loop_start.
      pose proof (initialize_commutes_SetTolerances sysd rp_tol rd_tol mu_tol s) as Hc.
      rewrite (seq_apply _ _ (IP.SetTolerances rp_tol rd_tol mu_tol s)) in Hc.
      rewrite (seq_apply _ _ s) in Hc. rewrite Hc.
      rewrite SetTolerances_overrides. reflexivity. }
    rewrite Hstart. reflexivity.
Qed.

End Tolerances.

(** ** The exit test and the loop of [Solve] *)

Section ExitTest.

Variable env : Env.
Variable cfg : Macros.

Lemma check_exit_conditions_value (only_mu : bool) (s : IP.t) :
  fst (IP.check_exit_conditions env only_mu s)
  = Qltb (Vec.MatrDot (IP.y s) (IP.lam s)) (IP.mu_tolerance s)
    && Qltb (NormTwo env (IP.rp s) / IP.to_double (IP.m s))
            (IP.rp_nnorm (IP.IPtolerances s))
    && Qltb (NormTwo env (IP.rd s) / IP.to_double (IP.n s))
            (IP.rd_nnorm (IP.IPtolerances s)).
Proof.
  unfold IP.check_exit_conditions. cbv beta iota zeta.
  destruct (_ && _) eqn:E; cbn [fst]; first [reflexivity|symmetry; exact E].
Qed.

(** What the exit test of the code compares with [mu_tolerance] is
    [y . lam], not [mu = (y . lam) / m]. *)
Lemma check_exit_conditions_true_iff (only_mu : bool) (s : IP.t) :
  fst (IP.check_exit_conditions env only_mu s) = true <->
  Vec.MatrDot (IP.y s) (IP.lam s) < IP.mu_tolerance s /\
  NormTwo env (IP.rp s) / IP.to_double (IP.m s) < IP.rp_nnorm (IP.IPtolerances s) /\
  NormTwo env (IP.rd s) / IP.to_double (IP.n s) < IP.rd_nnorm (IP.IPtolerances s).
Proof.
  rewrite check_exit_conditions_value, !andb_true_iff, !Qltb_lt. tauto.
Qed.

(** One pass of the loop of [Solve]: it stops on a positive exit test and
    otherwise iterates and counts. *)
Lemma Solve_loop_pass (fuel : nat) (s : IP.t) :
  (IP.iteration_count s < IP.iteration_count_max s)%nat ->
  IP.Solve_loop env cfg (S fuel) s
  = if fst (IP.check_exit_conditions env true s)
    then IP.VerifyKKTconditions env false s
    else IP.Solve_loop env cfg fuel
           (IP.assign IP.set_iteration_count (fun s => S (IP.iteration_count s))
              (IP.iterate env cfg (IP.VerifyKKTconditions env false s))).
Proof.
  intros Hlt. cbn [IP.Solve_loop].
  apply Nat.ltb_lt in Hlt. rewrite Hlt.
  pose proof (check_exit_conditions_state env true s) as Hs.
  destruct (IP.check_exit_conditions env true s) as [exit s1].
  cbn [fst snd] in *. subst s1. destruct exit; reflexivity.
Qed.

Lemma Solve_loop_cap (fuel : nat) (s : IP.t) :
  (IP.iteration_count_max s <= IP.iteration_count s)%nat ->
  IP.Solve_loop env cfg fuel s = s.
Proof.
  intros Hle. destruct fuel as [|fuel]; [reflexivity|]. cbn [IP.Solve_loop].
  apply Nat.ltb_ge in Hle. now rewrite Hle.
Qed.

End ExitTest.

(** C1 at a solver where the three conditions of the specification hold:
    [mu = 6e-9 < muTol = 1e-8] and both residual norms are 0, yet the exit
    test of the code answers [false], for it compares [y . lam = 1.2e-8]
    with [muTol], and the loop goes on to another [iterate]. *)
Lemma exit_test_misses_mu_below_tolerance :
  spec_exit_test example_env gap_solver /\
  IP.mu gap_solver
    == Vec.MatrDot (IP.y gap_solver) (IP.lam gap_solver) / IP.to_double (IP.m gap_solver) /\
  fst (IP.check_exit_conditions example_env true gap_solver) = false /\
  forall fuel,
    IP.Solve_loop example_env source_macros (S fuel) gap_solver
    = IP.Solve_loop example_env source_macros fuel
        (IP.assign IP.set_iteration_count (fun s => S (IP.iteration_count s))
           (IP.iterate example_env source_macros
              (IP.VerifyKKTconditions example_env false gap_solver))).
Proof.
  assert (Hf : fst (IP.check_exit_conditions example_env true gap_solver) = false)
    by (vm_compute; reflexivity).
  split; [|split; [|split]].
  - unfold spec_exit_test. vm_compute. repeat split.
  - vm_compute. reflexivity.
  - exact Hf.
  - intros fuel. rewrite Solve_loop_pass by (vm_compute; lia).
    rewrite Hf. reflexivity.
Qed.

(** ** [iterate] under [ONLY_PREDICT] *)

Section OnlyPredict.

Variable env : Env.
Variable cfg : Macros.





End OnlyPredict.


(** ** The starting point *)





(** The clamp of the older solver keeps a component below -1 as it is,
    where [starting_point_Nocedal] takes its absolute value. *)
Example clamp_loops_on_negative_component :
  ChInteriorPointMKL.clamp_loop 1 [-2] = [-2] /\ IP.clamp_loop 1 [-2] = [2].
Proof. split; reflexivity. Qed.


Lemma multiplyA_length (s : IP.t) (vect_in vect_out : vector) :
  length (IP.multiplyA s vect_in vect_out) = length vect_out.
Proof.
  unfold IP.multiplyA. cbv zeta.
  destruct (IP.KKT_solve_method s); [| |reflexivity];
    unfold SparseMatrix.MatMultiplyClipped;
    apply (fill_loop_length (fun i => (Z.to_nat 0 + i)%nat)).
Qed.









Section StartingPoint.

Variable env : Env.
Variable cfg : Macros.




End StartingPoint.

(** ** The theorems at the example solver *)





Lemma Solve_overrides_tolerances_witness :
  let start := loop_start example_env source_macros example_sysd capped_solver in
  CountActiveConstraints example_sysd false (SKIP_CONTACTS_UV source_macros) <> 0%nat /\
  (IP.IPtolerances start
   = {| IP.rp_nnorm := 1 # 10000000; IP.rd_nnorm := 1 # 100000000 |} /\
   IP.mu_tolerance start = 1 # 100000000 /\
   fst (IP.Solve example_env source_macros example_sysd capped_solver)
   = IP.generate_solution source_macros
       (IP.when (fun s => IP.verbose s) (IP.VerifyKKTconditions example_env true)
          (IP.Solve_loop example_env source_macros (IP.iteration_count_max start) start))) /\
  (IP.IPtolerances (fst (IP.Solve example_env source_macros example_sysd capped_solver))
   = {| IP.rp_nnorm := 1 # 10000000; IP.rd_nnorm := 1 # 100000000 |} /\
   IP.mu_tolerance (fst (IP.Solve example_env source_macros example_sysd capped_solver))
   = 1 # 100000000) /\
  IP.Solve example_env source_macros example_sysd
    (IP.SetTolerances (1 # 1000) (1 # 1000) (1 # 1000) capped_solver)
  = IP.Solve example_env source_macros example_sysd capped_solver.
Proof.
  intros start.
  assert (Hm : CountActiveConstraints example_sysd false (SKIP_CONTACTS_UV source_macros)
               <> 0%nat) by (vm_compute; lia).
  split; [exact Hm|].
  exact (Solve_overrides_tolerances example_env source_macros example_sysd capped_solver
           (1 # 1000) (1 # 1000) (1 # 1000) Hm).
Defined.

(* ===================================================================== *)
(** * Further properties of the sparsity pattern learner                  *)
(* ===================================================================== *)

(** The row lists after a call sequence depend on the row lists before it
    and on nothing else of the learner. *)
Lemma apply_calls_row_lists (calls : list Learner.call) (s s' : Learner.t) :
  Learner.row_lists s = Learner.row_lists s' ->
  Learner.row_lists (Learner.apply_calls calls s)
  = Learner.row_lists (Learner.apply_calls calls s').
Proof.
  revert s s'. induction calls as [|k calls IH]; intros s s' H; [exact H|].
  cbn. apply IH. cbn. rewrite H. reflexivity.
Qed.

Lemma sum_lengths_alter_app (rows : list (list Z)) (r : nat) (col : Z) :
  (r < length rows)%nat ->
  sum_list (length (A := Z) <$> alter (fun l => l ++ [col]) r rows)
  = S (sum_list (length (A := Z) <$> rows)).
Proof.
  revert r. induction rows as [|row rows IH]; intros r Hr; [cbn in Hr; lia|].
  destruct r as [|r]; cbn.
  - rewrite length_app. cbn. unfold id. lia.
  - cbn in Hr. rewrite (IH r) by lia. unfold id. lia.
Qed.

Lemma apply_calls_sum_lengths (calls : list Learner.call) (s : Learner.t) :
  Forall (fun k => (Learner.insrow k < length (Learner.row_lists s))%nat) calls ->
  sum_list (length (A := Z) <$> Learner.row_lists (Learner.apply_calls calls s))
  = (sum_list (length (A := Z) <$> Learner.row_lists s) + length calls)%nat.
Proof.
  revert s. induction calls as [|k calls IH]; intros s H; [cbn; lia|].
  apply List.Forall_cons_iff in H as [Hk H].
  cbn [Learner.apply_calls fold_left]. fold (Learner.apply_calls calls).
  rewrite IH.
  - unfold Learner.apply_call, Learner.SetElement. cbn [Learner.row_lists].
    rewrite sum_lengths_alter_app by exact Hk. cbn [length]. lia.
  - unfold Learner.apply_call, Learner.SetElement. cbn [Learner.row_lists].
    rewrite length_alter. exact H.
Qed.

Lemma list_unique_length (l : list Z) :
  (length (Learner.list_unique l) <= length l)%nat.
Proof.
  induction l as [|a [|b l] IH]; [cbn; lia|cbn; lia|].
  change (Learner.list_unique (a :: b :: l))
    with (if Z.eqb a b then Learner.list_unique (b :: l)
          else a :: Learner.list_unique (b :: l)).
  destruct (Z.eqb a b); cbn [length] in *; lia.
Qed.

Lemma list_sort_length (l : list Z) : length (Learner.list_sort l) = length l.
Proof.
  unfold Learner.list_sort. symmetry. apply Permutation_length, ZSort.Permuted_sort.
Qed.

Lemma sum_lengths_sort_unique (rows : list (list Z)) :
  (sum_list (length (A := Z) <$>
             map (fun l => Learner.list_unique (Learner.list_sort l)) rows)
   <= sum_list (length (A := Z) <$> rows))%nat.
Proof.
  induction rows as [|row rows IH]; [cbn; lia|].
  pose proof (list_unique_length (Learner.list_sort row)) as Hu.
  rewrite list_sort_length in Hu.
  rewrite map_cons, !fmap_cons.
  exact (Nat.add_le_mono _ _ _ _ Hu IH).
Qed.

(** Strictly ascending lists with the same members are the same list. *)
Lemma strictly_sorted_ext (l1 l2 : list Z) :
  Sorted.StronglySorted Z.lt l1 -> Sorted.StronglySorted Z.lt l2 ->
  (forall col, col ∈ l1 <-> col ∈ l2) -> l1 = l2.
Proof.
  intros H1. revert l2. induction H1 as [|a l1 Hs1 IH Ha]; intros l2 H2 Hmem.
  - destruct l2 as [|b l2]; [reflexivity|].
    exfalso. apply (not_elem_of_nil b). apply Hmem. left.
  - destruct H2 as [|b l2 Hs2 Hb].
    + exfalso. apply (not_elem_of_nil a). apply Hmem. left.
    + rewrite List.Forall_forall in Ha, Hb.
      assert (Hab : a = b).
      { assert (Ma : a ∈ b :: l2) by (apply Hmem; left).
        assert (Mb : b ∈ a :: l1) by (apply Hmem; left).
        apply elem_of_cons in Ma as [Ma|Ma]; [exact Ma|].
        apply elem_of_cons in Mb as [Mb|Mb]; [symmetry; exact Mb|].
        apply list_elem_of_In in Ma, Mb.
        specialize (Ha _ Mb). specialize (Hb _ Ma). lia. }
      subst b. f_equal. apply IH; [exact Hs2|].
      intros col. split; intros Hin.
      * assert (M : col ∈ a :: l2) by (apply Hmem; right; exact Hin).
        apply elem_of_cons in M as [M|M]; [|exact M].
        subst col. apply list_elem_of_In in Hin. specialize (Ha _ Hin). lia.
      * assert (M : col ∈ a :: l1) by (apply Hmem; right; exact Hin).
        apply elem_of_cons in M as [M|M]; [|exact M].
        subst col. apply list_elem_of_In in Hin. specialize (Hb _ Hin). lia.
Qed.

Lemma sort_unique_fixed (l : list Z) :
  Sorted.StronglySorted Z.lt l ->
  Learner.list_unique (Learner.list_sort l) = l.
Proof.
  intros Hs. destruct (sort_unique_spec l) as [Hs' Hmem].
  apply strictly_sorted_ext; assumption.
Qed.

(** X1: [GetSparsityPattern] a second time changes nothing: it returns the
    same lists and leaves the same learner. *)
Theorem GetSparsityPattern_idempotent (s : Learner.t) :
  Learner.GetSparsityPattern (snd (Learner.GetSparsityPattern s))
  = Learner.GetSparsityPattern s.
Proof.
  unfold Learner.GetSparsityPattern. cbn [snd Learner.row_lists
    Learner.m_num_rows Learner.m_num_cols Learner.m_nnz Learner.row_major_format].
  assert (H : map (fun l => Learner.list_unique (Learner.list_sort l))
                (map (fun l => Learner.list_unique (Learner.list_sort l))
                   (Learner.row_lists s))
              = map (fun l => Learner.list_unique (Learner.list_sort l))
                  (Learner.row_lists s)).
  { rewrite map_map. apply map_ext. intros l.
    apply sort_unique_fixed, sort_unique_spec. }
  rewrite H. reflexivity.
Qed.

(** X2: Before [GetSparsityPattern] is called, [GetNNZ] counts every
    [SetElement] call, repeated positions included; it is an upper bound of
    the count [GetNNZ] gives once the pattern has been extracted. *)
Theorem learner_GetNNZ_counts_calls
    (nrows ncols : nat) (row_major : bool) (calls : list Learner.call) :
  Forall (fun k => (Learner.insrow k < (if row_major then nrows else ncols))%nat) calls ->
  let learner := Learner.apply_calls calls (Learner.make nrows ncols row_major) in
  fst (Learner.GetNNZ learner) = length calls /\
  (fst (Learner.GetNNZ (snd (Learner.GetSparsityPattern learner)))
   <= fst (Learner.GetNNZ learner))%nat.
Proof.
  intros Hrows learner.
  assert (Hn : fst (Learner.GetNNZ learner) = length calls).
  { rewrite GetNNZ_sum. unfold learner. rewrite apply_calls_sum_lengths.
    - cbn [Learner.make Learner.row_lists].
      assert (Hz : forall k, sum_list (length (A := Z) <$> replicate k []) = 0%nat)
        by (induction k as [|k IHk]; [reflexivity|cbn; exact IHk]).
      rewrite Hz. reflexivity.
    - cbn [Learner.make Learner.row_lists]. rewrite length_replicate. exact Hrows. }
  split; [exact Hn|].
  rewrite !GetNNZ_sum. unfold Learner.GetSparsityPattern. cbn [snd Learner.row_lists].
  apply sum_lengths_sort_unique.
Qed.

Lemma learner_GetNNZ_counts_calls_witness :
  let learner := Learner.apply_calls example_calls (Learner.make 3 3 true) in
  Forall (fun k => (Learner.insrow k < 3)%nat) example_calls /\
  fst (Learner.GetNNZ learner) = length example_calls /\
  (fst (Learner.GetNNZ (snd (Learner.GetSparsityPattern learner)))
   <= fst (Learner.GetNNZ learner))%nat.
Proof.
  assert (H : Forall (fun k => (Learner.insrow k < 3)%nat) example_calls).
  { unfold example_calls. repeat constructor. }
  split; [exact H|].
  exact (learner_GetNNZ_counts_calls 3 3 true example_calls H).
Defined.

Lemma pattern_row (nrows ncols : nat) (row_major : bool) (calls : list Learner.call)
    (r : nat) :
  (r < (if row_major then nrows else ncols))%nat ->
  fst (Learner.GetSparsityPattern
         (Learner.apply_calls calls (Learner.make nrows ncols row_major))) !! r
  = Some (Learner.list_unique (Learner.list_sort (Learner.inserted_cols r calls))).
Proof.
  intros Hr. unfold Learner.GetSparsityPattern. cbn [fst].
  rewrite list_lookup_fmap.
  rewrite (apply_calls_row calls _ r []).
  - reflexivity.
  - cbn [Learner.make Learner.row_lists]. apply lookup_replicate_2. exact Hr.
Qed.

(** X3: The pattern depends on the set of positions inserted and on nothing
    else: two call sequences that insert the same (row, col) positions, in
    any order, any number of times and with any values, give the same
    pattern. *)
Theorem learner_pattern_of_positions
    (nrows ncols : nat) (row_major : bool) (calls calls' : list Learner.call) :
  Forall (fun k => (Learner.insrow k < (if row_major then nrows else ncols))%nat) calls ->
  Forall (fun k => (Learner.insrow k < (if row_major then nrows else ncols))%nat) calls' ->
  (forall r col, (r, col) ∈ Learner.inserted_pairs calls
                 <-> (r, col) ∈ Learner.inserted_pairs calls') ->
  fst (Learner.GetSparsityPattern
         (Learner.apply_calls calls (Learner.make nrows ncols row_major)))
  = fst (Learner.GetSparsityPattern
           (Learner.apply_calls calls' (Learner.make nrows ncols row_major))).
Proof.
  intros _ _ Hsame. apply list_eq. intros r.
  destruct (decide (r < (if row_major then nrows else ncols))%nat) as [Hr|Hr].
  - rewrite !pattern_row by exact Hr. f_equal.
    apply strictly_sorted_ext; try apply sort_unique_spec.
    intros col.
    rewrite (proj2 (sort_unique_spec (Learner.inserted_cols r calls)) col).
    rewrite (proj2 (sort_unique_spec (Learner.inserted_cols r calls')) col).
    rewrite !elem_of_inserted_cols. apply Hsame.
  - rewrite !lookup_ge_None_2; [reflexivity| |];
      unfold Learner.GetSparsityPattern; cbn [fst];
      rewrite length_map, apply_calls_length;
      cbn [Learner.make Learner.row_lists]; rewrite length_replicate; lia.
Qed.

Lemma example_calls_same_positions (r : nat) (col : Z) :
  (r, col) ∈ Learner.inserted_pairs example_calls
  <-> (r, col) ∈ Learner.inserted_pairs example_calls_shuffled.
Proof.
  unfold example_calls, example_calls_shuffled, Learner.inserted_pairs. cbn.
  rewrite !elem_of_cons, !elem_of_nil. tauto.
Qed.

Lemma learner_pattern_of_positions_witness :
  (Forall (fun k => (Learner.insrow k < 3)%nat) example_calls /\
   Forall (fun k => (Learner.insrow k < 3)%nat) example_calls_shuffled) /\
  fst (Learner.GetSparsityPattern
         (Learner.apply_calls example_calls (Learner.make 3 3 true)))
  = fst (Learner.GetSparsityPattern
           (Learner.apply_calls example_calls_shuffled (Learner.make 3 3 true))).
Proof.
  assert (H : Forall (fun k => (Learner.insrow k < 3)%nat) example_calls)
    by (unfold example_calls; repeat constructor).
  assert (H' : Forall (fun k => (Learner.insrow k < 3)%nat) example_calls_shuffled)
    by (unfold example_calls_shuffled; repeat constructor).
  split; [split; assumption|].
  exact (learner_pattern_of_positions 3 3 true example_calls example_calls_shuffled
           H H' example_calls_same_positions).
Defined.

(** X4: [Reset] forgets every insertion: whatever was inserted before it, the
    pattern right after it is empty with one list per leading index and
    [GetNNZ] is 0, and the calls made after it give the pattern and the
    count they give on a learner just constructed with the new size.
    [Resize] does the same and answers [true]. *)
Theorem learner_Reset_starts_afresh
    (row col : nat) (nonzeros : Z) (s : Learner.t) (calls : list Learner.call) :
  Forall (fun k => (Learner.insrow k
                    < (if Learner.row_major_format s then row else col))%nat) calls ->
  let fresh := Learner.make row col (Learner.row_major_format s) in
  let after := Learner.Reset row col nonzeros s in
  (Learner.m_num_rows after = row /\ Learner.m_num_cols after = col) /\
  fst (Learner.GetSparsityPattern after)
  = replicate (Learner.leading_dimension after) [] /\
  fst (Learner.GetNNZ after) = 0%nat /\
  fst (Learner.GetSparsityPattern (Learner.apply_calls calls after))
  = fst (Learner.GetSparsityPattern (Learner.apply_calls calls fresh)) /\
  fst (Learner.GetNNZ (Learner.apply_calls calls after))
  = fst (Learner.GetNNZ (Learner.apply_calls calls fresh)) /\
  Learner.Resize row col nonzeros s = (true, after).
Proof.
  intros _ fresh after.
  assert (Hrows : Learner.row_lists after = Learner.row_lists fresh).
  { unfold after, fresh, Learner.Reset, Learner.make. cbn [Learner.row_lists].
    reflexivity. }
  assert (Hz : forall k, sum_list (length (A := Z) <$> replicate k []) = 0%nat)
    by (induction k as [|k IHk]; [reflexivity|cbn; exact IHk]).
  split; [|split; [|split; [|split; [|split]]]].
  - unfold after, Learner.Reset. cbn. destruct (Learner.row_major_format s); auto.
  - unfold Learner.GetSparsityPattern. cbn [fst].
    unfold after, Learner.Reset, Learner.leading_dimension.
    cbn [Learner.row_lists Learner.row_major_format Learner.m_num_rows Learner.m_num_cols].
    destruct (Learner.row_major_format s);
      exact (fmap_replicate (fun l => Learner.list_unique (Learner.list_sort l)) _ []).
  - rewrite GetNNZ_sum. unfold after, Learner.Reset. cbn [Learner.row_lists]. apply Hz.
  - unfold Learner.GetSparsityPattern. cbn [fst].
    rewrite (apply_calls_row_lists calls after fresh Hrows). reflexivity.
  - rewrite !GetNNZ_sum.
    rewrite (apply_calls_row_lists calls after fresh Hrows). reflexivity.
  - reflexivity.
Qed.

Lemma learner_Reset_starts_afresh_witness :
  let s := Learner.apply_calls example_calls (Learner.make 3 3 true) in
  let fresh := Learner.make 4 3 true in
  let after := Learner.Reset 4 3 0 s in
  Forall (fun k => (Learner.insrow k < 4)%nat) example_calls_shuffled /\
  (Learner.m_num_rows after = 4%nat /\ Learner.m_num_cols after = 3%nat) /\
  fst (Learner.GetSparsityPattern after)
  = replicate (Learner.leading_dimension after) [] /\
  fst (Learner.GetNNZ after) = 0%nat /\
  fst (Learner.GetSparsityPattern (Learner.apply_calls example_calls_shuffled after))
  = fst (Learner.GetSparsityPattern (Learner.apply_calls example_calls_shuffled fresh)) /\
  fst (Learner.GetNNZ (Learner.apply_calls example_calls_shuffled after))
  = fst (Learner.GetNNZ (Learner.apply_calls example_calls_shuffled fresh)) /\
  Learner.Resize 4 3 0 s = (true, after).
Proof.
  assert (H : Forall (fun k => (Learner.insrow k < 4)%nat) example_calls_shuffled)
    by (unfold example_calls_shuffled; repeat constructor).
  split; [exact H|].
  exact (learner_Reset_starts_afresh 4 3 0
           (Learner.apply_calls example_calls (Learner.make 3 3 true))
           example_calls_shuffled H).
Defined.

(* ===================================================================== *)
(** * Further properties of [Solve]                                       *)
(* ===================================================================== *)

Section SolveRuns.

Variable env : Env.
Variable cfg : Macros.

(** [Solve] with constraints: the solver after [initialize], the
    tolerances and the counter set, the loop, the residual norms and the
    solution vector. *)
Lemma Solve_with_constraints (sysd : ChLcpSystemDescriptor) (s : IP.t) :
  CountActiveConstraints sysd false (SKIP_CONTACTS_UV cfg) <> 0%nat ->
  IP.Solve env cfg sysd s
  = (IP.generate_solution cfg
       (IP.when (fun s => IP.verbose s) (IP.VerifyKKTconditions env true)
          (IP.Solve_loop env cfg
             (IP.iteration_count_max (loop_start env cfg sysd s))
             (loop_start env cfg sysd s))),
     IP.sol_chrono
       (IP.generate_solution cfg
          (IP.when (fun s => IP.verbose s) (IP.VerifyKKTconditions env true)
             (IP.Solve_loop env cfg
                (IP.iteration_count_max (loop_start env cfg sysd s))
                (loop_start env cfg sysd s))))).
Proof.
  intros Hm. unfold IP.Solve, loop_start, Solve_rp_tol, Solve_rd_tol, Solve_mu_tol.
  cbv beta zeta delta [IP.seq].
  destruct (initialize_dimensioned env cfg sysd
              (IP.assign IP.set_solver_call (fun s => S (IP.solver_call s)) s))
    as (_ & Hm1 & _).
  rewrite Hm1.
  destruct (Nat.eqb_spec (CountActiveConstraints sysd false (SKIP_CONTACTS_UV cfg)) 0)
    as [|_]; [contradiction|].
  reflexivity.
Qed.

Lemma Solve_loop_keeps_iteration_count_max (fuel : nat) :
  preserves IP.iteration_count_max (IP.Solve_loop env cfg fuel).
Proof. apply Solve_loop_preserves; frame. Qed.

(** The exit test reads [y], [lam], [rp], [rd], the sizes and the
    tolerances; refreshing [IPres] does not change its answer. *)
Lemma check_exit_conditions_after_Verify (only_mu print : bool) (s : IP.t) :
  fst (IP.check_exit_conditions env only_mu (IP.VerifyKKTconditions env print s))
  = fst (IP.check_exit_conditions env only_mu s).
Proof. rewrite !check_exit_conditions_value. reflexivity. Qed.

Lemma iteration_count_after_pass (s : IP.t) :
  IP.iteration_count
    (IP.assign IP.set_iteration_count (fun s => S (IP.iteration_count s))
       (IP.iterate env cfg (IP.VerifyKKTconditions env false s)))
  = S (IP.iteration_count s).
Proof.
  generalize ((ltac:(frame) : preserves IP.iteration_count (IP.iterate env cfg))
                (IP.VerifyKKTconditions env false s)).
  generalize (IP.iterate env cfg (IP.VerifyKKTconditions env false s)).
  intros K HK.
  rewrite ((ltac:(frame) : preserves IP.iteration_count
              (IP.VerifyKKTconditions env false)) s) in HK.
  rewrite <- HK. reflexivity.
Qed.

Lemma iteration_count_max_after_pass (s : IP.t) :
  IP.iteration_count_max
    (IP.assign IP.set_iteration_count (fun s => S (IP.iteration_count s))
       (IP.iterate env cfg (IP.VerifyKKTconditions env false s)))
  = IP.iteration_count_max s.
Proof.
  generalize ((ltac:(frame) : preserves IP.iteration_count_max (IP.iterate env cfg))
                (IP.VerifyKKTconditions env false s)).
  generalize (IP.iterate env cfg (IP.VerifyKKTconditions env false s)).
  intros K HK.
  rewrite ((ltac:(frame) : preserves IP.iteration_count_max
              (IP.VerifyKKTconditions env false)) s) in HK.
  rewrite <- HK. reflexivity.
Qed.

(** With the counter [k] passes below the cap, [k] passes of fuel are
    enough: the loop ends at the cap or on a positive exit test, and more
    fuel changes nothing. *)
Lemma Solve_loop_runs (fuel : nat) (s : IP.t) :
  (IP.iteration_count_max s - IP.iteration_count s <= fuel)%nat ->
  let r := IP.Solve_loop env cfg fuel s in
  (IP.iteration_count s <= IP.iteration_count r)%nat /\
  (IP.iteration_count s <= IP.iteration_count_max s ->
   IP.iteration_count r <= IP.iteration_count_max s)%nat /\
  ((IP.iteration_count r < IP.iteration_count_max s)%nat ->
   fst (IP.check_exit_conditions env true r) = true) /\
  forall more, IP.Solve_loop env cfg (fuel + more) s = r.
Proof.
  revert s. induction fuel as [|fuel IH]; intros s Hfuel r.
  - unfold r. rewrite (Solve_loop_cap env cfg 0 s) by lia.
    split; [lia|]. split; [lia|]. split; [lia|].
    intros more. apply Solve_loop_cap. lia.
  - destruct (Nat.ltb_spec (IP.iteration_count s) (IP.iteration_count_max s))
      as [Hlt|Hge].
    + assert (Hr : r = if fst (IP.check_exit_conditions env true s)
                       then IP.VerifyKKTconditions env false s
                       else IP.Solve_loop env cfg fuel
                              (IP.assign IP.set_iteration_count
                                 (fun s => S (IP.iteration_count s))
                                 (IP.iterate env cfg
                                    (IP.VerifyKKTconditions env false s))))
        by (unfold r; apply Solve_loop_pass; exact Hlt).
      assert (Hmore : forall more,
                IP.Solve_loop env cfg (S fuel + more) s
                = if fst (IP.check_exit_conditions env true s)
                  then IP.VerifyKKTconditions env false s
                  else IP.Solve_loop env cfg (fuel + more)
                         (IP.assign IP.set_iteration_count
                            (fun s => S (IP.iteration_count s))
                            (IP.iterate env cfg
                               (IP.VerifyKKTconditions env false s))))
        by (intros more; apply (Solve_loop_pass env cfg (fuel + more)); exact Hlt).
      clearbody r.
      destruct (fst (IP.check_exit_conditions env true s)) eqn:Hexit.
      * subst r.
        rewrite ((ltac:(frame) : preserves IP.iteration_count
                    (IP.VerifyKKTconditions env false)) s).
        split; [lia|]. split; [lia|]. split.
        -- intros _. rewrite check_exit_conditions_after_Verify. exact Hexit.
        -- intros more. rewrite Hmore. reflexivity.
      * pose proof (iteration_count_after_pass s) as Hc1.
        pose proof (iteration_count_max_after_pass s) as Hm1.
        revert Hr Hmore Hc1 Hm1.
        generalize (IP.assign IP.set_iteration_count
                      (fun s => S (IP.iteration_count s))
                      (IP.iterate env cfg (IP.VerifyKKTconditions env false s))).
        intros s1 Hr Hmore Hc1 Hm1.
        destruct (IH s1) as (H1 & H2 & H3 & H4); [lia|].
        rewrite <- Hr in H1, H2, H3, H4.
        rewrite Hm1 in H2, H3. rewrite Hc1 in H1, H2.
        split; [lia|]. split; [intros _; apply H2; lia|].
        split; [exact H3|].
        intros more. rewrite Hmore. apply H4.
    + unfold r. rewrite (Solve_loop_cap env cfg (S fuel) s) by exact Hge.
      split; [lia|]. split; [lia|]. split; [lia|].
      intros more. apply Solve_loop_cap. exact Hge.
Qed.

(** What the loop of [Solve] starts from: the cap as configured, the
    counter at 1 and the tolerances of [Solve]. *)
Lemma loop_start_settings (sysd : ChLcpSystemDescriptor) (s : IP.t) :
  IP.iteration_count_max (loop_start env cfg sysd s) = IP.iteration_count_max s /\
  IP.iteration_count (loop_start env cfg sysd s) = 1%nat /\
  (IP.IPtolerances (loop_start env cfg sysd s)
   = {| IP.rp_nnorm := 1 # 10000000; IP.rd_nnorm := 1 # 100000000 |} /\
   IP.mu_tolerance (loop_start env cfg sysd s) = 1 # 100000000).
Proof.
  unfold loop_start.
  generalize ((ltac:(frame) : preserves IP.iteration_count_max
                 (IP.initialize env cfg sysd))
                (IP.assign IP.set_solver_call (fun s => S (IP.solver_call s)) s)).
  generalize (IP.initialize env cfg sysd
                (IP.assign IP.set_solver_call (fun s => S (IP.solver_call s)) s)).
  intros K HK. repeat split. exact HK.
Qed.

(** X5: The loop of [Solve] stops.  A call of [Solve] with constraints present
    returns with the counter between 1 and the cap (1 when the cap is 0);
    it has called [iterate] fewer than [iteration_count_max] times; and
    when the counter is below the cap on return, the exit test of the code
    holds on the solver returned: [y . lam], [|rp| / m] and [|rd| / n] are
    below the tolerances [Solve] has set. *)
Theorem Solve_stops_at_cap_or_exit (sysd : ChLcpSystemDescriptor) (s : IP.t) :
  CountActiveConstraints sysd false (SKIP_CONTACTS_UV cfg) <> 0%nat ->
  let s' := fst (IP.Solve env cfg sysd s) in
  IP.iteration_count_max s' = IP.iteration_count_max s /\
  (1 <= IP.iteration_count s' <= Nat.max 1 (IP.iteration_count_max s))%nat /\
  ((IP.iteration_count s' < IP.iteration_count_max s)%nat ->
   Vec.MatrDot (IP.y s') (IP.lam s') < 1 # 100000000 /\
   NormTwo env (IP.rp s') / IP.to_double (IP.m s') < 1 # 10000000 /\
   NormTwo env (IP.rd s') / IP.to_double (IP.n s') < 1 # 100000000).
Proof.
  intros Hm s'. unfold s'. rewrite (Solve_with_constraints sysd s Hm). cbn [fst].
  destruct (loop_start_settings sysd s) as (Hcap & Hone & Htol).
  generalize dependent (loop_start env cfg sysd s). intros start Hcap Hone Htol.
  destruct (Solve_loop_runs (IP.iteration_count_max start) start) as (H1 & H2 & H3 & _);
    [lia|].
  pose proof (Solve_loop_keeps_iteration_count_max (IP.iteration_count_max start) start)
    as Hmax.
  pose proof (Solve_loop_keeps_IPtolerances env cfg (IP.iteration_count_max start) start)
    as Htol1.
  pose proof (Solve_loop_keeps_mu_tolerance env cfg (IP.iteration_count_max start) start)
    as Htol2.
  pose proof (Solve_loop_cap env cfg (IP.iteration_count_max start) start) as Hz.
  set (r := IP.Solve_loop env cfg (IP.iteration_count_max start) start) in *.
  clearbody r.
  set (out := IP.generate_solution cfg
                (IP.when (fun s => IP.verbose s) (IP.VerifyKKTconditions env true) r)).
  assert (Hout : forall {A : Type} (p : IP.t -> A),
            preserves p (IP.generate_solution cfg) ->
            preserves p (IP.when (fun s => IP.verbose s)
                           (IP.VerifyKKTconditions env true)) ->
            p out = p r).
  { intros A p Hg Hv. unfold out. rewrite (Hg _), (Hv _). reflexivity. }
  rewrite (Hout _ IP.iteration_count_max) by frame.
  rewrite (Hout _ IP.iteration_count) by frame.
  rewrite (Hout _ IP.y), (Hout _ IP.lam), (Hout _ IP.rp), (Hout _ IP.rd),
    (Hout _ IP.m), (Hout _ IP.n) by frame.
  clear out Hout.
  split; [congruence|]. split.
  - rewrite <- Hcap. destruct (Nat.le_gt_cases 1 (IP.iteration_count_max start)).
    + rewrite Hone in H1, H2. specialize (H2 ltac:(lia)). lia.
    + rewrite Hz by lia. lia.
  - intros Hlt. rewrite <- Hcap in Hlt. specialize (H3 Hlt).
    apply check_exit_conditions_true_iff in H3.
    rewrite Htol1, Htol2 in H3. destruct Htol as [Ht1 Ht2].
    rewrite Ht1, Ht2 in H3. exact H3.
Qed.

End SolveRuns.

Lemma Solve_stops_at_cap_or_exit_witness :
  let s' := fst (IP.Solve example_env source_macros example_sysd capped_solver) in
  CountActiveConstraints example_sysd false (SKIP_CONTACTS_UV source_macros) <> 0%nat /\
  IP.iteration_count_max s' = IP.iteration_count_max capped_solver /\
  (1 <= IP.iteration_count s'
   <= Nat.max 1 (IP.iteration_count_max capped_solver))%nat /\
  ((IP.iteration_count s' < IP.iteration_count_max capped_solver)%nat ->
   Vec.MatrDot (IP.y s') (IP.lam s') < 1 # 100000000 /\
   NormTwo example_env (IP.rp s') / IP.to_double (IP.m s') < 1 # 10000000 /\
   NormTwo example_env (IP.rd s') / IP.to_double (IP.n s') < 1 # 100000000).
Proof.
  intros s'.
  assert (Hm : CountActiveConstraints example_sysd false (SKIP_CONTACTS_UV source_macros)
               <> 0%nat) by (vm_compute; lia).
  split; [exact Hm|].
  exact (Solve_stops_at_cap_or_exit example_env source_macros example_sysd
           capped_solver Hm).
Defined.

(* ===================================================================== *)
(** * Further properties of the Newton step length                        *)
(* ===================================================================== *)



Lemma step_loop_no_decrease (eta : Q) (v Dv : vector) (a : Q) :
  Forall (fun d => 0 <= d) Dv ->
  fold_left (IP.step_length_body eta) (combine v Dv) a = a.
Proof.
  intros HD. revert v a. induction HD as [|d Dv Hd _ IH]; intros v a.
  - destruct v; reflexivity.
  - destruct v as [|vi v]; [reflexivity|].
    cbn [combine fold_left]. unfold IP.step_length_body at 2.
    apply Qltb_ge in Hd. rewrite Hd. apply IH.
Qed.

(** X7: The full step: when no component of [Dv] is negative (in particular
    when the vectors are empty) the function returns 1, whatever [v] and
    [eta] are. *)
Theorem find_Newton_step_length_full_step (v Dv : vector) (eta : Q) :
  Forall (fun d => 0 <= d) Dv ->
  IP.find_Newton_step_length v Dv eta = 1.
Proof.
  intros HD. unfold IP.find_Newton_step_length. cbv zeta.
  rewrite step_loop_no_decrease by exact HD. reflexivity.
Qed.

Lemma find_Newton_step_length_full_step_witness :
  Forall (fun d => 0 <= d) [0; 3] /\
  IP.find_Newton_step_length [-5; 2] [0; 3] (1 # 2) = 1.
Proof.
  assert (HD : Forall (fun d => 0 <= d) [0; 3]) by (repeat constructor; discriminate).
  split; [exact HD|].
  exact (find_Newton_step_length_full_step [-5; 2] [0; 3] (1 # 2) HD).
Defined.

(* ===================================================================== *)
(** * The clamps of the older solver                                      *)
(* ===================================================================== *)

Lemma MKL_clamp_loop_take (k : nat) (v : vector) :
  ChInteriorPointMKL.clamp_loop k v
  = ((fun q => if Qltb (Qabs q) 1 then 1 else q) <$> take k v) ++ drop k v.
Proof.
  unfold ChInteriorPointMKL.clamp_loop. induction k as [|k IH].
  - rewrite take_0, drop_0. reflexivity.
  - rewrite for_loop_S, IH. clear IH.
    set (g := fun q : Q => if Qltb (Qabs q) 1 then 1 else q).
    unfold Vec.SetElement, Vec.GetElement, IP.abs.
    destruct (decide (k < length v)%nat) as [Hlt|Hge].
    + destruct (lookup_lt_is_Some_2 v k Hlt) as [a Ha].
      assert (Hk : length (g <$> take k v) = k)
        by (rewrite length_fmap, length_take; lia).
      rewrite (take_S_r _ _ _ Ha), (drop_S _ _ _ Ha), fmap_app.
      rewrite lookup_app_r by lia. rewrite Hk, Nat.sub_diag.
      cbn [lookup list_lookup default]. change (id a) with a.
      assert (Hg : g <$> [a] = [if Qltb (Qabs a) 1 then 1 else a]) by reflexivity.
      rewrite Hg, <- app_assoc. clearbody g.
      destruct (Qltb (Qabs a) 1); [|reflexivity].
      rewrite insert_app_r_alt by lia. rewrite Hk, Nat.sub_diag. reflexivity.
    + rewrite !take_ge, !drop_ge by lia.
      rewrite lookup_ge_None_2
        by (rewrite length_app, length_fmap; cbn; lia).
      cbn [default]. rewrite app_nil_r.
      change (Qabs 0) with 0. change (Qltb 0 1) with true. cbv iota.
      apply list_insert_ge. rewrite length_fmap. lia.
Qed.

(** X8: The clamping loops of the older [Initialize]: a component of
    magnitude below 1 becomes 1 and every other component is kept with
    its sign, so that every magnitude is at least 1 afterwards while a
    component at or below -1 stays negative. *)
Theorem MKL_clamp_loop_keeps_sign (m : nat) (v : vector) :
  (length v <= m)%nat ->
  ChInteriorPointMKL.clamp_loop m v
  = (fun q => if Qltb (Qabs q) 1 then 1 else q) <$> v /\
  Forall (fun q => 1 <= Qabs q) (ChInteriorPointMKL.clamp_loop m v) /\
  forall i q, v !! i = Some q -> q <= -1 ->
              ChInteriorPointMKL.clamp_loop m v !! i = Some q.
Proof.
  intros Hle.
  assert (E : ChInteriorPointMKL.clamp_loop m v
              = (fun q => if Qltb (Qabs q) 1 then 1 else q) <$> v).
  { rewrite MKL_clamp_loop_take, take_ge, drop_ge, app_nil_r by lia. reflexivity. }
  rewrite E. split; [reflexivity|]. split.
  - apply List.Forall_forall. intros q Hin. apply in_map_iff in Hin.
    destruct Hin as (a & <- & _).
    destruct (Qltb (Qabs a) 1) eqn:Ea; [discriminate|].
    apply Qltb_ge in Ea. exact Ea.
  - intros i q Hq Hneg. rewrite list_lookup_fmap, Hq. cbn [fmap option_fmap option_map].
    assert (Ea : Qltb (Qabs q) 1 = false).
    { apply Qltb_ge. rewrite Qabs_neg by lra. lra. }
    rewrite Ea. reflexivity.
Qed.

Lemma MKL_clamp_loop_keeps_sign_witness :
  (length [-2; 1 # 2]%Q <= 2)%nat /\
  ChInteriorPointMKL.clamp_loop 2 [-2; 1 # 2]
  = (fun q => if Qltb (Qabs q) 1 then 1 else q) <$> [-2; 1 # 2] /\
  Forall (fun q => 1 <= Qabs q) (ChInteriorPointMKL.clamp_loop 2 [-2; 1 # 2]) /\
  forall i q, [-2; 1 # 2] !! i = Some q -> q <= -1 ->
              ChInteriorPointMKL.clamp_loop 2 [-2; 1 # 2] !! i = Some q.
Proof.
  assert (H : (length [-2; 1 # 2]%Q <= 2)%nat) by (cbn; lia).
  split; [exact H|].
  exact (MKL_clamp_loop_keeps_sign 2 [-2; 1 # 2] H).
Defined.

(* ===================================================================== *)
(** * The solver stays strictly feasible through [Solve]                  *)
(* ===================================================================== *)

(** Reads of a solver just assigned to. *)
Ltac state_simpl :=
  cbn [
       IP.assign IP.set_m IP.set_n IP.set_solver_call
       IP.set_iteration_count IP.set_iteration_count_max
       IP.set_EQUAL_STEP_LENGTH IP.set_ADAPTIVE_ETA IP.set_ONLY_PREDICT
       IP.set_warm_start_broken IP.set_warm_start IP.set_IPtolerances
       IP.set_IPres IP.set_mu_tolerance IP.set_KKT_solve_method IP.set_x
       IP.set_y IP.set_lam IP.set_x_pred IP.set_y_pred IP.set_lam_pred
       IP.set_x_corr IP.set_y_corr IP.set_lam_corr IP.set_Dx IP.set_Dy
       IP.set_Dlam IP.set_b IP.set_c IP.set_rp IP.set_rd IP.set_rpd
       IP.set_mu IP.set_rhs_sol IP.set_BigMat IP.set_SmallMat IP.set_E
       IP.set_vectn IP.set_vectm IP.set_sol_chrono IP.set_verbose IP.m
       IP.n IP.solver_call IP.iteration_count IP.iteration_count_max
       IP.EQUAL_STEP_LENGTH IP.ADAPTIVE_ETA IP.ONLY_PREDICT
       IP.warm_start_broken IP.warm_start IP.IPtolerances IP.IPres
       IP.mu_tolerance IP.KKT_solve_method IP.x IP.y IP.lam IP.x_pred
       IP.y_pred IP.lam_pred IP.x_corr IP.y_corr IP.lam_corr IP.Dx IP.Dy
       IP.Dlam IP.b IP.c IP.rp IP.rd IP.rpd IP.mu IP.rhs_sol IP.BigMat
       IP.SmallMat IP.E IP.vectn IP.vectm IP.sol_chrono IP.verbose
  ].

(** The same, in the hypotheses too. *)
Ltac state_simpl_all :=
  cbn [
       IP.assign IP.set_m IP.set_n IP.set_solver_call
       IP.set_iteration_count IP.set_iteration_count_max
       IP.set_EQUAL_STEP_LENGTH IP.set_ADAPTIVE_ETA IP.set_ONLY_PREDICT
       IP.set_warm_start_broken IP.set_warm_start IP.set_IPtolerances
       IP.set_IPres IP.set_mu_tolerance IP.set_KKT_solve_method IP.set_x
       IP.set_y IP.set_lam IP.set_x_pred IP.set_y_pred IP.set_lam_pred
       IP.set_x_corr IP.set_y_corr IP.set_lam_corr IP.set_Dx IP.set_Dy
       IP.set_Dlam IP.set_b IP.set_c IP.set_rp IP.set_rd IP.set_rpd
       IP.set_mu IP.set_rhs_sol IP.set_BigMat IP.set_SmallMat IP.set_E
       IP.set_vectn IP.set_vectm IP.set_sol_chrono IP.set_verbose IP.m
       IP.n IP.solver_call IP.iteration_count IP.iteration_count_max
       IP.EQUAL_STEP_LENGTH IP.ADAPTIVE_ETA IP.ONLY_PREDICT
       IP.warm_start_broken IP.warm_start IP.IPtolerances IP.IPres
       IP.mu_tolerance IP.KKT_solve_method IP.x IP.y IP.lam IP.x_pred
       IP.y_pred IP.lam_pred IP.x_corr IP.y_corr IP.lam_corr IP.Dx IP.Dy
       IP.Dlam IP.b IP.c IP.rp IP.rd IP.rpd IP.mu IP.rhs_sol IP.BigMat
       IP.SmallMat IP.E IP.vectn IP.vectm IP.sol_chrono IP.verbose
  ] in *.

(** Runs a block of assignments on a solver given field by field. *)
Ltac state_run :=
  cbv beta iota delta [
       IP.seq IP.assign IP.set_m IP.set_n IP.set_solver_call
       IP.set_iteration_count IP.set_iteration_count_max
       IP.set_EQUAL_STEP_LENGTH IP.set_ADAPTIVE_ETA IP.set_ONLY_PREDICT
       IP.set_warm_start_broken IP.set_warm_start IP.set_IPtolerances
       IP.set_IPres IP.set_mu_tolerance IP.set_KKT_solve_method IP.set_x
       IP.set_y IP.set_lam IP.set_x_pred IP.set_y_pred IP.set_lam_pred
       IP.set_x_corr IP.set_y_corr IP.set_lam_corr IP.set_Dx IP.set_Dy
       IP.set_Dlam IP.set_b IP.set_c IP.set_rp IP.set_rd IP.set_rpd
       IP.set_mu IP.set_rhs_sol IP.set_BigMat IP.set_SmallMat IP.set_E
       IP.set_vectn IP.set_vectm IP.set_sol_chrono IP.set_verbose IP.m
       IP.n IP.solver_call IP.iteration_count IP.iteration_count_max
       IP.EQUAL_STEP_LENGTH IP.ADAPTIVE_ETA IP.ONLY_PREDICT
       IP.warm_start_broken IP.warm_start IP.IPtolerances IP.IPres
       IP.mu_tolerance IP.KKT_solve_method IP.x IP.y IP.lam IP.x_pred
       IP.y_pred IP.lam_pred IP.x_corr IP.y_corr IP.lam_corr IP.Dx IP.Dy
       IP.Dlam IP.b IP.c IP.rp IP.rd IP.rpd IP.mu IP.rhs_sol IP.BigMat
       IP.SmallMat IP.E IP.vectn IP.vectm IP.sol_chrono IP.verbose
  ].

Lemma hoare_skip (P : IP.t -> Prop) : hoare P IP.skip P.
Proof. intros s H. exact H. Qed.

Lemma hoare_ifs (P Q : IP.t -> Prop) (c : IP.t -> bool) (a b : IP.stmt) :
  hoare P a Q -> hoare P b Q -> hoare P (IP.ifs c a b) Q.
Proof. intros Ha Hb s H. unfold IP.ifs. destruct (c s); [apply Ha|apply Hb]; exact H. Qed.

Lemma hoare_when (P : IP.t -> Prop) (c : IP.t -> bool) (a : IP.stmt) :
  hoare P a P -> hoare P (IP.when c a) P.
Proof. intros Ha. apply hoare_ifs; [exact Ha|apply hoare_skip]. Qed.

Lemma hoare_switch (P Q : IP.t -> Prop) (a b c : IP.stmt) :
  hoare P a Q -> hoare P b Q -> hoare P c Q -> hoare P (IP.switch_KKT a b c) Q.
Proof.
  intros Ha Hb Hc s H. unfold IP.switch_KKT.
  destruct (IP.KKT_solve_method s); [apply Ha|apply Hb|apply Hc]; exact H.
Qed.

Lemma hoare_local_any {V : Type} (P Q : IP.t -> Prop) (e : IP.t -> V)
    (k : V -> IP.stmt) :
  (forall v, hoare P (k v) Q) -> hoare P (IP.local e k) Q.
Proof. intros Hk s H. unfold IP.local. apply Hk, H. Qed.

Lemma MatMultiplyClipped_length (M : SparseMatrix.t) (vect_in vect_out : vector)
    (a b c d e f : Z) :
  length (SparseMatrix.MatMultiplyClipped M vect_in vect_out a b c d e f)
  = length vect_out.
Proof.
  unfold SparseMatrix.MatMultiplyClipped.
  apply (fill_loop_length (fun i => (Z.to_nat f + i)%nat)).
Qed.

Lemma MatMultiply_length (M : SparseMatrix.t) (vect_in vect_out : vector) :
  length (SparseMatrix.MatMultiply M vect_in vect_out) = length vect_out.
Proof. apply MatMultiplyClipped_length. Qed.

Lemma multiplyG_length (s : IP.t) (vect_in vect_out : vector) :
  length (IP.multiplyG s vect_in vect_out) = length vect_out.
Proof.
  unfold IP.multiplyG. cbv zeta.
  destruct (IP.KKT_solve_method s); [| |reflexivity];
    apply MatMultiplyClipped_length.
Qed.

Lemma multiplyNegAT_length (s : IP.t) (vect_in vect_out : vector) :
  length (IP.multiplyNegAT s vect_in vect_out) = length vect_out.
Proof.
  unfold IP.multiplyNegAT. cbv zeta.
  destruct (IP.KKT_solve_method s); [| |reflexivity];
    apply MatMultiplyClipped_length.
Qed.

Lemma clamp_loop_length (m : nat) (v : vector) :
  length (IP.clamp_loop m v) = length v.
Proof.
  unfold IP.clamp_loop. induction m as [|m IH]; [reflexivity|].
  rewrite for_loop_S, SetElement_length. exact IH.
Qed.

Lemma read_loop_length (src : vector) (pos : nat -> nat) (k : nat) (v : vector) :
  length (for_loop k (fun i w => Vec.SetElement w i (Vec.GetElement src (pos i))) v)
  = length v.
Proof. apply (fill_loop_length (fun i => i)). Qed.

(** The length of a vector expression of the solver. *)
Ltac len_solve :=
  unfold Vec.add, Vec.sub, Vec.MatrScale, Vec.MatrScaleV, Vec.MatrAddScalar,
    Vec.FillElem;
  repeat first
    [ rewrite length_zip_with
    | rewrite length_map
    | rewrite multiplyA_length
    | rewrite multiplyG_length
    | rewrite multiplyNegAT_length
    | rewrite MatMultiply_length
    | rewrite clamp_loop_length
    | rewrite read_loop_length
    | rewrite Resize_length ];
  lia.

Ltac rows_assign :=
  let s := fresh "s" in
  intros s (? & ? & (? & ? & ? & ? & ? & ? & ?)
            & (? & ? & ? & ? & ? & ? & ? & ? & ? & ? & ? & ?));
  unfold sized, cols_len, rows_len; state_simpl;
  repeat split; first [assumption | len_solve].

(** Walks the text of a member function, statement by statement, with the
    sizes as the invariant. *)
Ltac rows :=
  lazymatch goal with
  | |- hoare _ IP.skip _ => apply hoare_skip
  | |- hoare ?P (IP.seq _ _) _ => apply (hoare_seq P P); rows
  | |- hoare _ (IP.ifs _ _ _) _ => apply hoare_ifs; rows
  | |- hoare _ (IP.when _ _) _ => apply hoare_when; rows
  | |- hoare _ (IP.local _ _) _ => apply hoare_local_any; intro; rows
  | |- hoare _ (IP.switch_KKT _ _ _) _ => apply hoare_switch; rows
  | |- hoare _ (IP.assign _ _) _ => rows_assign
  | |- hoare _ (let _ := _ in _) _ => cbv zeta; rows
  | |- hoare _ (IP.KKTsolve _ _ _) _ => unfold IP.KKTsolve; rows
  | |- hoare _ (IP.KKTsolve_assemble _ _) _ => unfold IP.KKTsolve_assemble; rows
  | |- hoare _ (IP.KKTsolve_extract _) _ => unfold IP.KKTsolve_extract; rows
  | |- hoare _ IP.KKTsolve_normal _ => unfold IP.KKTsolve_normal; rows
  | |- hoare _ (IP.call_linear_solver _) _ => unfold IP.call_linear_solver; rows
  | |- hoare _ (IP.fullupdate_residual _) _ => unfold IP.fullupdate_residual; rows
  | |- hoare _ (IP.VerifyKKTconditions _ _) _ => unfold IP.VerifyKKTconditions; rows
  | |- hoare _ (IP.starting_point_Nocedal _ _ _ _) _ =>
      unfold IP.starting_point_Nocedal; rows
  | |- hoare _ (IP.only_predict_block _ _ _) _ => unfold IP.only_predict_block; rows
  | |- hoare _ (IP.correction_phase _ _ _) _ => unfold IP.correction_phase; rows
  | |- hoare _ (IP.iterate _ _) _ => unfold IP.iterate; rows
  | |- hoare _ IP.update_history _ => unfold IP.update_history; rows
  | |- hoare _ (IP.generate_solution _) _ => unfold IP.generate_solution; rows
  | |- hoare _ IP.make_positive_definite _ => unfold IP.make_positive_definite; rows
  | |- hoare _ (IP.SetTolerances _ _ _) _ => unfold IP.SetTolerances; rows
  end.

Section Interior.

Variable env : Env.
Variable cfg : Macros.

Lemma KKTsolve_sized (sigma : Q) (n0 m0 : nat) :
  hoare (sized n0 m0) (IP.KKTsolve env cfg sigma) (sized n0 m0).
Proof. rows. Qed.


Lemma starting_point_Nocedal_sized (n_old m_old n0 m0 : nat) :
  hoare (sized n0 m0) (IP.starting_point_Nocedal env cfg n_old m_old) (sized n0 m0).
Proof. rows. Qed.


Lemma MatrDot_from (l : list (Q * Q)) (a : Q) :
  Forall (fun p => 0 < fst p * snd p) l ->
  a <= fold_left (fun tot p => tot + fst p * snd p) l a /\
  (l <> [] -> a < fold_left (fun tot p => tot + fst p * snd p) l a).
Proof.
  intros H. revert a. induction H as [|p l Hp _ IH]; intros a.
  - cbn. split; [lra|congruence].
  - cbn [fold_left]. destruct (IH (a + fst p * snd p)) as [H1 _].
    split; [lra|intros _; lra].
Qed.




Lemma correction_phase_mu (mu_pred : Q) (s : IP.t) :
  IP.mu (IP.correction_phase env cfg mu_pred s)
  = Vec.MatrDot (IP.y (IP.correction_phase env cfg mu_pred s))
      (IP.lam (IP.correction_phase env cfg mu_pred s))
    / IP.to_double (IP.m (IP.correction_phase env cfg mu_pred s)).
Proof.
  unfold IP.correction_phase.
  cbv beta delta [IP.local IP.seq].
  generalize (IP.KKTsolve env cfg
                (mu_pred / IP.mu s * (mu_pred / IP.mu s) * (mu_pred / IP.mu s)) s).
  intros s1.
  generalize (IP.step_lengths (IP.correction_eta env s1) s1). intros alfa.
  cbv zeta.
  match goal with
  | |- context [IP.when ?c ?blk (IP.assign IP.set_mu ?f ?X)] =>
      generalize X; intros K; unfold IP.when, IP.ifs;
      destruct (c (IP.assign IP.set_mu f K))
  end; reflexivity.
Qed.

(** [iterate] ends with [mu] recomputed from the [y] and [lam] it
    leaves. *)
Lemma iterate_mu (s : IP.t) :
  IP.mu (IP.iterate env cfg s)
  = Vec.MatrDot (IP.y (IP.iterate env cfg s)) (IP.lam (IP.iterate env cfg s))
    / IP.to_double (IP.m (IP.iterate env cfg s)).
Proof.
  unfold IP.iterate. cbv beta zeta delta [IP.local IP.seq].
  apply correction_phase_mu.
Qed.





End Interior.

(** ** [reset_dimensions] *)

Section ResetDimensions.

Variable cfg : Macros.

Lemma reset_dimensions_cols (n_old m_old N M : nat) (s : IP.t) :
  IP.n s = N -> IP.m s = M -> cols_len n_old s -> rows_len m_old s ->
  let s1 :=
    IP.when (fun s => negb (Nat.eqb n_old (IP.n s)))
      (IP.seq (IP.assign IP.set_x (fun s => Vec.Resize (IP.n s) (IP.x s)))
      (IP.seq (IP.assign IP.set_x_pred (fun s => Vec.Resize (IP.n s) (IP.x_pred s)))
      (IP.seq (IP.assign IP.set_x_corr (fun s => Vec.Resize (IP.n s) (IP.x_corr s)))
      (IP.seq (IP.assign IP.set_Dx (fun s => Vec.Resize (IP.n s) (IP.Dx s)))
      (IP.seq (IP.assign IP.set_c (fun s => Vec.Resize (IP.n s) (IP.c s)))
      (IP.seq (IP.assign IP.set_rd (fun s => Vec.Resize (IP.n s) (IP.rd s)))
              (IP.assign IP.set_vectn (fun s => Vec.Resize (IP.n s) (IP.vectn s))))))))) s in
  (IP.n s1 = N /\ IP.m s1 = M /\ cols_len N s1 /\ rows_len m_old s1) /\
  IP.KKT_solve_method s1 = IP.KKT_solve_method s /\
  IP.rhs_sol s1 = IP.rhs_sol s /\ IP.BigMat s1 = IP.BigMat s.
Proof.
  intros Hn Hm Hc Hr. cbv zeta. unfold IP.when, IP.ifs, IP.skip.
  destruct_state s. unfold cols_len, rows_len in *. state_simpl_all.
  destruct (Nat.eqb_spec n_old n) as [Heq|Hne]; cbn [negb].
  - subst n_old N. repeat split; tauto.
  - state_run. rewrite !Resize_length. repeat split; tauto.
Qed.

Lemma reset_dimensions_rows (m_old N M : nat) (s : IP.t) :
  IP.n s = N -> IP.m s = M -> cols_len N s -> rows_len m_old s ->
  let s1 :=
    IP.when (fun s => negb (Nat.eqb m_old (IP.m s)))
      (IP.seq (IP.assign IP.set_y (fun s => Vec.Resize (IP.m s) (IP.y s)))
      (IP.seq (IP.assign IP.set_lam (fun s => Vec.Resize (IP.m s) (IP.lam s)))
      (IP.seq (IP.assign IP.set_y_pred (fun s => Vec.Resize (IP.m s) (IP.y_pred s)))
      (IP.seq (IP.assign IP.set_lam_pred (fun s => Vec.Resize (IP.m s) (IP.lam_pred s)))
      (IP.seq (IP.assign IP.set_y_corr (fun s => Vec.Resize (IP.m s) (IP.y_corr s)))
      (IP.seq (IP.assign IP.set_lam_corr (fun s => Vec.Resize (IP.m s) (IP.lam_corr s)))
      (IP.seq (IP.assign IP.set_Dy (fun s => Vec.Resize (IP.m s) (IP.Dy s)))
      (IP.seq (IP.assign IP.set_Dlam (fun s => Vec.Resize (IP.m s) (IP.Dlam s)))
      (IP.seq (IP.assign IP.set_b (fun s => Vec.Resize (IP.m s) (IP.b s)))
      (IP.seq (IP.assign IP.set_rp (fun s => Vec.Resize (IP.m s) (IP.rp s)))
      (IP.seq (IP.assign IP.set_rpd (fun s => Vec.Resize (IP.m s) (IP.rpd s)))
              (IP.assign IP.set_vectm
                 (fun s => Vec.Resize (IP.m s) (IP.vectm s)))))))))))))) s in
  sized N M s1 /\ IP.KKT_solve_method s1 = IP.KKT_solve_method s /\
  IP.rhs_sol s1 = IP.rhs_sol s /\ IP.BigMat s1 = IP.BigMat s.
Proof.
  intros Hn Hm Hc Hr. cbv zeta. unfold IP.when, IP.ifs, IP.skip.
  destruct_state s. unfold sized, cols_len, rows_len in *. state_simpl_all.
  destruct (Nat.eqb_spec m_old m) as [Heq|Hne]; cbn [negb].
  - subst m_old M. repeat split; tauto.
  - state_run. rewrite !Resize_length. repeat split; tauto.
Qed.

Lemma reset_dimensions_layout (N M : nat) (s : IP.t) :
  sized N M s ->
  let s1 :=
    IP.switch_KKT
      (IP.seq
         (IP.assign IP.set_BigMat
            (fun s => SparseMatrix.Reset (2 * IP.m s + IP.n s) (2 * IP.m s + IP.n s)
                        (IP.BigMat s)))
         (IP.assign IP.set_rhs_sol
            (fun s => Vec.Resize (2 * IP.m s + IP.n s) (IP.rhs_sol s))))
      (IP.seq
         (IP.assign IP.set_BigMat
            (fun s => SparseMatrix.Reset (IP.n s + IP.m s) (IP.n s + IP.m s)
                        (IP.BigMat s)))
         (IP.assign IP.set_rhs_sol
            (fun s => Vec.Resize (IP.n s + IP.m s) (IP.rhs_sol s))))
      IP.skip
      (IP.ifs (fun _ => SKIP_CONTACTS_UV cfg)
         (IP.assign IP.set_sol_chrono
            (fun s => Vec.Resize (IP.n s + 3 * IP.m s) (IP.sol_chrono s)))
         (IP.assign IP.set_sol_chrono
            (fun s => Vec.Resize (IP.n s + IP.m s) (IP.sol_chrono s))) s) in
  sized N M s1 /\
  length (IP.sol_chrono s1) = emitted_size (SKIP_CONTACTS_UV cfg) N M /\
  match IP.KKT_solve_method s with
  | IP.STANDARD =>
      length (IP.rhs_sol s1) = (2 * M + N)%nat /\
      forall r c, SparseMatrix.GetElement (IP.BigMat s1) r c = 0
  | IP.AUGMENTED =>
      length (IP.rhs_sol s1) = (N + M)%nat /\
      forall r c, SparseMatrix.GetElement (IP.BigMat s1) r c = 0
  | IP.NORMAL => IP.rhs_sol s1 = IP.rhs_sol s /\ IP.BigMat s1 = IP.BigMat s
  end.
Proof.
  intros Hs. cbv zeta. unfold IP.switch_KKT, IP.ifs, IP.skip, emitted_size.
  destruct_state s. unfold sized, cols_len, rows_len in *. state_simpl_all.
  destruct Hs as (-> & -> & Hc & Hr).
  destruct (SKIP_CONTACTS_UV cfg); state_run; destruct method; state_run;
    rewrite ?Resize_length; repeat split; tauto.
Qed.

(** X9: [reset_dimensions] brings every vector to the size of the problem.
    From vectors of the old sizes [n_old] and [m_old], every vector of [n]
    rows has [n] rows afterwards and every vector of [m] rows has [m]
    rows; [sol_chrono] has the length of the emitted solution; in the
    STANDARD and AUGMENTED layouts [rhs_sol] has the order of the KKT
    system and [BigMat] reads 0 everywhere, and in the NORMAL layout both
    are left as they are. *)
Theorem reset_dimensions_gives_sizes (n_old m_old : nat) (s : IP.t) :
  cols_len n_old s -> rows_len m_old s ->
  let s' := IP.reset_dimensions cfg n_old m_old s in
  sized (IP.n s) (IP.m s) s' /\
  length (IP.sol_chrono s') = emitted_size (SKIP_CONTACTS_UV cfg) (IP.n s) (IP.m s) /\
  match IP.KKT_solve_method s with
  | IP.STANDARD =>
      length (IP.rhs_sol s') = (2 * IP.m s + IP.n s)%nat /\
      forall r c, SparseMatrix.GetElement (IP.BigMat s') r c = 0
  | IP.AUGMENTED =>
      length (IP.rhs_sol s') = (IP.n s + IP.m s)%nat /\
      forall r c, SparseMatrix.GetElement (IP.BigMat s') r c = 0
  | IP.NORMAL => IP.rhs_sol s' = IP.rhs_sol s /\ IP.BigMat s' = IP.BigMat s
  end.
Proof.
  intros Hc Hr. cbv zeta. unfold IP.reset_dimensions.
  cbv beta delta [IP.seq].
  destruct (reset_dimensions_cols n_old m_old (IP.n s) (IP.m s) s
              eq_refl eq_refl Hc Hr) as [(Hn1 & Hm1 & Hc1 & Hr1) (Hk1 & Hv1 & Hb1)].
  cbv zeta in Hn1, Hm1, Hc1, Hr1, Hk1, Hv1, Hb1.
  cbv beta delta [IP.seq] in Hn1, Hm1, Hc1, Hr1, Hk1, Hv1, Hb1.
  revert Hn1 Hm1 Hc1 Hr1 Hk1 Hv1 Hb1.
  match goal with
  | |- IP.n ?S1 = _ -> _ => generalize S1
  end.
  intros s1 Hn1 Hm1 Hc1 Hr1 Hk1 Hv1 Hb1.
  destruct (reset_dimensions_rows m_old (IP.n s) (IP.m s) s1 Hn1 Hm1 Hc1 Hr1)
    as (Hs2 & Hk2 & Hv2 & Hb2).
  cbv zeta in Hs2, Hk2, Hv2, Hb2. cbv beta delta [IP.seq] in Hs2, Hk2, Hv2, Hb2.
  revert Hs2 Hk2 Hv2 Hb2.
  match goal with
  | |- sized _ _ ?S2 -> _ => generalize S2
  end.
  intros s2 Hs2 Hk2 Hv2 Hb2.
  pose proof (reset_dimensions_layout (IP.n s) (IP.m s) s2 Hs2) as H3.
  cbv zeta in H3. cbv beta delta [IP.seq] in H3.
  rewrite Hk2, Hk1, Hv2, Hv1, Hb2, Hb1 in H3. exact H3.
Qed.


End ResetDimensions.

Lemma reset_dimensions_gives_sizes_witness :
  (cols_len 0 undimensioned_solver /\ rows_len 0 undimensioned_solver) /\
  sized 1 2 (IP.reset_dimensions source_macros 0 0 undimensioned_solver) /\
  length (IP.sol_chrono (IP.reset_dimensions source_macros 0 0 undimensioned_solver))
  = emitted_size (SKIP_CONTACTS_UV source_macros) 1 2 /\
  length (IP.rhs_sol (IP.reset_dimensions source_macros 0 0 undimensioned_solver))
  = 3%nat /\
  forall r c,
    SparseMatrix.GetElement
      (IP.BigMat (IP.reset_dimensions source_macros 0 0 undimensioned_solver)) r c = 0.
Proof.
  assert (Hc : cols_len 0 undimensioned_solver) by (repeat split).
  assert (Hr : rows_len 0 undimensioned_solver) by (repeat split).
  split; [split; assumption|].
  exact (reset_dimensions_gives_sizes source_macros 0 0 undimensioned_solver Hc Hr).
Defined.


(** ** From [initialize] to the end of [Solve] *)

Section StrictlyFeasible.

Variable env : Env.
Variable cfg : Macros.








End StrictlyFeasible.



(** ** One call of [iterate] *)

Ltac kept_by_iterate :=
  match goal with
  | |- ?p (IP.iterate ?env ?cfg ?s) = ?p ?s =>
      exact ((ltac:(frame) : preserves p (IP.iterate env cfg)) s)
  end.

Section OneIteration.

Variable env : Env.
Variable cfg : Macros.

(** X11: [iterate] keeps every vector at the size of the problem, in every
    layout and whatever the option switches are. *)
Theorem iterate_keeps_sizes (n0 m0 : nat) (s : IP.t) :
  sized n0 m0 s -> sized n0 m0 (IP.iterate env cfg s).
Proof. revert s. change (hoare (sized n0 m0) (IP.iterate env cfg) (sized n0 m0)). rows. Qed.

(** X12: [iterate] works on the iterate and on the scratch vectors only: the
    dimensions, the problem data [b], [c], [E] and [SmallMat], the option
    switches, the tolerances and the cap, the counters, the KKT layout and
    the emitted vector are as before; and it ends with [mu] recomputed
    from the [y] and [lam] it leaves. *)
Theorem iterate_leaves_problem_alone (s : IP.t) :
  let s' := IP.iterate env cfg s in
  (IP.n s' = IP.n s /\ IP.m s' = IP.m s /\ IP.b s' = IP.b s /\ IP.c s' = IP.c s /\
   IP.E s' = IP.E s /\ IP.SmallMat s' = IP.SmallMat s) /\
  (IP.EQUAL_STEP_LENGTH s' = IP.EQUAL_STEP_LENGTH s /\
   IP.ADAPTIVE_ETA s' = IP.ADAPTIVE_ETA s /\ IP.ONLY_PREDICT s' = IP.ONLY_PREDICT s /\
   IP.KKT_solve_method s' = IP.KKT_solve_method s) /\
  (IP.IPtolerances s' = IP.IPtolerances s /\ IP.mu_tolerance s' = IP.mu_tolerance s /\
   IP.iteration_count_max s' = IP.iteration_count_max s /\
   IP.iteration_count s' = IP.iteration_count s /\
   IP.solver_call s' = IP.solver_call s /\ IP.sol_chrono s' = IP.sol_chrono s) /\
  IP.mu s' = Vec.MatrDot (IP.y s') (IP.lam s') / IP.to_double (IP.m s').
Proof.
  cbv zeta.
  split; [|split; [|split]].
  - repeat split; kept_by_iterate.
  - repeat split; kept_by_iterate.
  - repeat split; kept_by_iterate.
  - apply iterate_mu.
Qed.

End OneIteration.

Lemma iterate_keeps_sizes_witness :
  sized 1 1 example_solver /\
  sized 1 1 (IP.iterate example_env source_macros example_solver).
Proof.
  assert (Hs : sized 1 1 example_solver) by (vm_compute; repeat split).
  split; [exact Hs|].
  exact (iterate_keeps_sizes example_env source_macros 1 1 example_solver Hs).
Defined.

(** ** [Solve] without constraints *)

Section NoConstraints.

Variable env : Env.
Variable cfg : Macros.

Lemma reset_dimensions_rhs_sol (n_old m_old N M : nat) (k : IP.KKT_SOLUTION_METHOD) :
  k <> IP.NORMAL ->
  hoare (fun s => IP.n s = N /\ IP.m s = M /\ IP.KKT_solve_method s = k)
    (IP.reset_dimensions cfg n_old m_old)
    (fun s => IP.n s = N /\ IP.m s = M /\ IP.KKT_solve_method s = k /\
              length (IP.rhs_sol s) = KKT_order k N M).
Proof.
  intros Hk. unfold IP.reset_dimensions.
  do 3 (eapply hoare_seq;
        [apply (hoare_preserved
                  (fun s => (IP.n s, IP.m s, IP.KKT_solve_method s))
                  (fun d => fst (fst d) = N /\ snd (fst d) = M /\ snd d = k)); frame|]).
  intros s (Hn & Hm & Hmeth). cbn [fst snd] in Hn, Hm, Hmeth.
  unfold IP.switch_KKT. rewrite Hmeth.
  destruct k; [| |congruence];
    unfold IP.seq, IP.assign, KKT_order; state_simpl;
    rewrite Resize_length; repeat split; congruence.
Qed.

Lemma initialize_loaded_prefix (sysd : ChLcpSystemDescriptor)
    (k : IP.KKT_SOLUTION_METHOD) (tail : nat -> nat -> IP.stmt) (Q : IP.t -> Prop) :
  k <> IP.NORMAL ->
  (forall n_old m_old, hoare (loaded cfg sysd k) (tail n_old m_old) Q) ->
  hoare (fun s => IP.KKT_solve_method s = k)
    (IP.seq (IP.assign IP.set_verbose (fun _ => true))
       (IP.local (fun s => IP.n s) (fun n_old =>
        IP.local (fun s => IP.m s) (fun m_old =>
        IP.seq (IP.assign IP.set_n (fun _ => CountActiveVariables sysd))
       (IP.seq (IP.assign IP.set_m
                  (fun _ => CountActiveConstraints sysd false (SKIP_CONTACTS_UV cfg)))
       (IP.seq (IP.reset_dimensions cfg n_old m_old)
       (IP.seq
          (IP.switch_KKT
             (IP.seq
                (IP.assign IP.set_BigMat
                   (fun s => ConvertToMatrixForm_Z sysd (IP.BigMat s) false
                               (SKIP_CONTACTS_UV cfg) 2))
                IP.make_positive_definite)
             (IP.seq
                (IP.assign IP.set_BigMat
                   (fun s => ConvertToMatrixForm_Z sysd (IP.BigMat s) false
                               (SKIP_CONTACTS_UV cfg) 1))
                IP.make_positive_definite)
             (IP.local
                (fun s => ConvertToMatrixForm_Cq_M sysd (IP.SmallMat s) (IP.BigMat s)
                            false true)
                (fun Cq_M =>
                   IP.seq (IP.assign IP.set_SmallMat (fun _ => fst Cq_M))
                     (IP.assign IP.set_BigMat (fun _ => snd Cq_M)))))
       (IP.seq (IP.assign IP.set_c
                  (fun s => ConvertToMatrixForm_Fvector sysd (IP.c s) false
                              (SKIP_CONTACTS_UV cfg)))
       (IP.seq (IP.assign IP.set_b
                  (fun s => ConvertToMatrixForm_Bvector sysd (IP.b s) false
                              (SKIP_CONTACTS_UV cfg)))
       (IP.seq (IP.assign IP.set_c (fun s => Vec.MatrScale (-1) (IP.c s)))
       (IP.seq (IP.assign IP.set_b (fun s => Vec.MatrScale (-1) (IP.b s)))
               (tail n_old m_old))))))))))))
    Q.
Proof.
  intros Hk Htail.
  set (N := CountActiveVariables sysd).
  set (M := CountActiveConstraints sysd false (SKIP_CONTACTS_UV cfg)).
  eapply hoare_seq;
    [apply (hoare_preserved IP.KKT_solve_method (fun d => d = k)); frame|].
  apply hoare_local_any; intros n_old. apply hoare_local_any; intros m_old.
  apply (hoare_seq _ (fun s => IP.n s = N /\ IP.KKT_solve_method s = k)).
  { intros s Hs. split; [reflexivity|exact Hs]. }
  apply (hoare_seq _ (fun s => IP.n s = N /\ IP.m s = M /\ IP.KKT_solve_method s = k)).
  { intros s [Hn Hs]. split; [exact Hn|]. split; [reflexivity|exact Hs]. }
  eapply hoare_seq; [apply reset_dimensions_rhs_sol; exact Hk|].
  eapply hoare_seq.
  { apply (hoare_preserved
             (fun s => (IP.n s, IP.m s, IP.KKT_solve_method s, IP.rhs_sol s))
             (fun d => fst (fst (fst d)) = N /\ snd (fst (fst d)) = M /\
                       snd (fst d) = k /\ length (snd d) = KKT_order k N M)).
    frame. }
  apply (hoare_seq _ (fun s => (IP.n s = N /\ IP.m s = M /\ IP.KKT_solve_method s = k /\
                                length (IP.rhs_sol s) = KKT_order k N M) /\
                               exists buffer,
                                 IP.c s = ConvertToMatrixForm_Fvector sysd buffer false
                                            (SKIP_CONTACTS_UV cfg))).
  { intros s Hs. cbn [fst snd] in Hs. split; [exact Hs|].
    exists (IP.c s). reflexivity. }
  apply (hoare_seq _ (fun s => (IP.n s = N /\ IP.m s = M /\ IP.KKT_solve_method s = k /\
                                length (IP.rhs_sol s) = KKT_order k N M) /\
                               exists buffer,
                                 IP.c s = ConvertToMatrixForm_Fvector sysd buffer false
                                            (SKIP_CONTACTS_UV cfg))).
  { intros s Hs. exact Hs. }
  apply (hoare_seq _ (loaded cfg sysd k)).
  { intros s ((Hn & Hm & Hmeth & Hlen) & buffer & Hc).
    unfold loaded. state_simpl. fold N M. rewrite Hn, Hm.
    repeat split; try assumption.
    exists buffer. rewrite Hc. reflexivity. }
  apply (hoare_seq _ (loaded cfg sysd k)).
  { intros s Hs. exact Hs. }
  apply Htail.
Qed.

(** The branch of [initialize] taken when no constraint is active. *)
Lemma initialize_unconstrained_branch (sysd : ChLcpSystemDescriptor)
    (k : IP.KKT_SOLUTION_METHOD) (s : IP.t) :
  loaded cfg sysd k s ->
  CountActiveConstraints sysd false (SKIP_CONTACTS_UV cfg) = 0%nat ->
  let s' :=
    IP.seq
      (IP.assign IP.set_rhs_sol
         (fun s =>
            for_loop (IP.n s)
              (fun row_sel rhs =>
                 Vec.SetElement rhs row_sel (- Vec.GetElement (IP.c s) row_sel))
              (IP.rhs_sol s)))
      (IP.call_linear_solver env) s in
  loaded cfg sysd k s /\
  exists rhs,
    IP.rhs_sol s' = MumpsCall env (IP.BigMat s') rhs /\
    length rhs = CountActiveVariables sysd /\
    (forall j, (j < CountActiveVariables sysd)%nat ->
       rhs !! j = Some (- Vec.GetElement (IP.c s') j)) /\
    IP.c s' = IP.c s /\ IP.m s' = 0%nat /\ IP.n s' = CountActiveVariables sysd.
Proof.
  intros Hl Hm0. split; [exact Hl|].
  destruct Hl as (Hn & Hm & Hmeth & Hlen & buffer & Hc).
  rewrite Hm0 in Hm. rewrite Hm, Hn in Hlen.
  assert (Hlen' : length (IP.rhs_sol s) = CountActiveVariables sysd)
    by (rewrite Hlen; unfold KKT_order; destruct k; lia).
  exists (for_loop (IP.n s)
            (fun row_sel rhs =>
               Vec.SetElement rhs row_sel (- Vec.GetElement (IP.c s) row_sel))
            (IP.rhs_sol s)).
  split; [reflexivity|]. split.
  - rewrite (fill_loop_length (fun i => i)). exact Hlen'.
  - split; [|repeat split; assumption].
    intros j Hj.
    apply (fill_loop_hit (fun i => i) (fun i => - Vec.GetElement (IP.c s) i));
      [rewrite Hn; exact Hj|rewrite Hlen'; exact Hj|auto].
Qed.

Lemma initialize_unconstrained (sysd : ChLcpSystemDescriptor)
    (k : IP.KKT_SOLUTION_METHOD) :
  k <> IP.NORMAL ->
  CountActiveConstraints sysd false (SKIP_CONTACTS_UV cfg) = 0%nat ->
  hoare (fun s => IP.KKT_solve_method s = k)
    (IP.initialize env cfg sysd)
    (fun s' =>
       IP.m s' = 0%nat /\
       (exists buffer,
          IP.c s' = Vec.MatrScale (-1)
                      (ConvertToMatrixForm_Fvector sysd buffer false
                         (SKIP_CONTACTS_UV cfg))) /\
       exists rhs,
         IP.rhs_sol s' = MumpsCall env (IP.BigMat s') rhs /\
         length rhs = CountActiveVariables sysd /\
         forall j, (j < CountActiveVariables sysd)%nat ->
           rhs !! j = Some (- Vec.GetElement (IP.c s') j)).
Proof.
  intros Hk Hm0. unfold IP.initialize.
  apply initialize_loaded_prefix; [exact Hk|].
  intros n_old m_old s Hl.
  assert (Hz : Nat.eqb (IP.m s) 0 = true).
  { destruct Hl as (_ & Hm & _). rewrite Hm, Hm0. reflexivity. }
  assert (Hifs : forall c f g, c s = true -> IP.ifs c f g s = f s)
    by (intros c f g Hc; unfold IP.ifs; rewrite Hc; reflexivity).
  rewrite (Hifs _ _ _ Hz). clear Hifs.
  destruct (initialize_unconstrained_branch sysd k s Hl Hm0)
    as (_ & rhs & Hsol & Hlen & Hrhs & Hc & Hm & Hn).
  revert Hsol Hrhs Hc Hm Hn.
  match goal with |- context [IP.rhs_sol ?S1] => generalize S1 end.
  intros s' Hsol Hrhs Hc Hm Hn. cbv beta.
  destruct Hl as (_ & _ & _ & _ & buffer & Hc0).
  split; [exact Hm|]. split.
  - exists buffer. rewrite Hc. exact Hc0.
  - exists rhs. repeat split; assumption.
Qed.

(** X13: With no active constraint and the STANDARD or AUGMENTED layout,
    [Solve] hands [FromVectorToUnknowns] the answer of one call of the
    linear solver on the loaded matrix, the right-hand side being [-c], that
    is the force vector of the descriptor; no iteration runs, and the
    iteration counter and the tolerances stay as they were. *)
Theorem Solve_without_constraints (sysd : ChLcpSystemDescriptor) (s : IP.t) :
  CountActiveConstraints sysd false (SKIP_CONTACTS_UV cfg) = 0%nat ->
  IP.KKT_solve_method s <> IP.NORMAL ->
  let s' := fst (IP.Solve env cfg sysd s) in
  (exists rhs,
     snd (IP.Solve env cfg sysd s) = MumpsCall env (IP.BigMat s') rhs /\
     length rhs = CountActiveVariables sysd /\
     forall j, (j < CountActiveVariables sysd)%nat ->
       rhs !! j = Some (- Vec.GetElement (IP.c s') j)) /\
  (exists buffer,
     IP.c s' = Vec.MatrScale (-1)
                 (ConvertToMatrixForm_Fvector sysd buffer false (SKIP_CONTACTS_UV cfg))) /\
  IP.iteration_count s' = IP.iteration_count s /\
  IP.IPtolerances s' = IP.IPtolerances s /\
  IP.mu_tolerance s' = IP.mu_tolerance s.
Proof.
  intros Hm0 Hk.
  pose proof (initialize_unconstrained sysd (IP.KKT_solve_method s) Hk Hm0
                (IP.assign IP.set_solver_call (fun s => S (IP.solver_call s)) s)
                eq_refl) as (Hm & Hc & rhs & Hsol & Hlen & Hrhs).
  assert (Hkeep : forall p : IP.t -> nat * IP.IPresidual_t * Q,
            preserves p (IP.assign IP.set_solver_call (fun s => S (IP.solver_call s))) ->
            preserves p (IP.initialize env cfg sysd) ->
            p (IP.initialize env cfg sysd
                 (IP.assign IP.set_solver_call (fun s => S (IP.solver_call s)) s)) = p s).
  { intros p H1 H2. rewrite H2. apply H1. }
  specialize (Hkeep (fun s => (IP.iteration_count s, IP.IPtolerances s, IP.mu_tolerance s))
                ltac:(frame) ltac:(frame)).
  unfold IP.Solve. cbv beta zeta delta [IP.seq].
  revert Hm Hc Hsol Hrhs Hkeep.
  generalize (IP.initialize env cfg sysd
                (IP.assign IP.set_solver_call (fun s => S (IP.solver_call s)) s)).
  intros s1 Hm Hc Hsol Hrhs Hkeep.
  rewrite Hm. cbn [Nat.eqb fst snd].
  injection Hkeep as Hi Ht Hmu.
  split; [exists rhs; repeat split; assumption|].
  repeat split; assumption.
Qed.

End NoConstraints.

Lemma Solve_without_constraints_witness :
  let s' := fst (IP.Solve example_env source_macros free_sysd IP.make) in
  (exists rhs,
     snd (IP.Solve example_env source_macros free_sysd IP.make)
       = MumpsCall example_env (IP.BigMat s') rhs /\
     length rhs = CountActiveVariables free_sysd /\
     forall j, (j < CountActiveVariables free_sysd)%nat ->
       rhs !! j = Some (- Vec.GetElement (IP.c s') j)) /\
  (exists buffer,
     IP.c s' = Vec.MatrScale (-1)
                 (ConvertToMatrixForm_Fvector free_sysd buffer false
                    (SKIP_CONTACTS_UV source_macros))) /\
  IP.iteration_count s' = IP.iteration_count IP.make /\
  IP.IPtolerances s' = IP.IPtolerances IP.make /\
  IP.mu_tolerance s' = IP.mu_tolerance IP.make.
Proof.
  apply (Solve_without_constraints example_env source_macros free_sysd IP.make).
  - reflexivity.
  - discriminate.
Defined.

(** ** The exit test is stricter than the one specified *)

Lemma MatrDot_nonnegative (v w : vector) :
  positive v -> positive w -> 0 <= Vec.MatrDot v w.
Proof.
  intros Pv Pw. unfold Vec.MatrDot. apply MatrDot_from.
  apply List.Forall_forall. intros [a b] Hin. cbn [fst snd].
  unfold positive in Pv, Pw. rewrite List.Forall_forall in Pv, Pw.
  assert (0 < a) by (apply Pv; eapply in_combine_l; eauto).
  assert (0 < b) by (apply Pw; eapply in_combine_r; eauto).
  nra.
Qed.

Lemma to_double_at_least_1 (k : nat) : k <> 0%nat -> 1 <= IP.to_double k.
Proof.
  intros Hk. unfold IP.to_double, Qle. cbn. lia.
Qed.

(** X14: Whenever the exit test of the code answers [true], whatever its
    [only_mu] argument, the three conditions of the exit test hold with the
    complementarity measure [(y . lam) / m] in the place of [y . lam]:
    with [y] and [lam] positive and [m >= 1] the code never stops the loop
    on an iterate that the test on [mu] would refuse. *)
Theorem check_exit_conditions_sound (env : Env) (only_mu : bool) (s : IP.t) :
  IP.m s <> 0%nat -> positive (IP.y s) -> positive (IP.lam s) ->
  fst (IP.check_exit_conditions env only_mu s) = true ->
  spec_exit_test env s.
Proof.
  intros Hm Py Pl Hexit.
  apply check_exit_conditions_true_iff in Hexit. destruct Hexit as (Hgap & Hrp & Hrd).
  split; [|split; assumption].
  pose proof (MatrDot_nonnegative _ _ Py Pl) as Hdot.
  pose proof (to_double_at_least_1 _ Hm) as Hmd.
  revert Hgap Hdot Hmd.
  generalize (Vec.MatrDot (IP.y s) (IP.lam s)), (IP.to_double (IP.m s)), (IP.mu_tolerance s).
  intros dot md tol Hgap Hdot Hmd.
  apply Qle_lt_trans with (y := dot); [|exact Hgap].
  apply Qle_shift_div_r; [lra|nra].
Qed.

Lemma check_exit_conditions_sound_witness :
  (IP.m converged_solver <> 0%nat /\
   positive (IP.y converged_solver) /\ positive (IP.lam converged_solver) /\
   fst (IP.check_exit_conditions example_env true converged_solver) = true) /\
  spec_exit_test example_env converged_solver.
Proof.
  assert (Hm : IP.m converged_solver <> 0%nat) by discriminate.
  assert (Py : positive (IP.y converged_solver))
    by (repeat constructor).
  assert (Pl : positive (IP.lam converged_solver))
    by (repeat constructor).
  assert (He : fst (IP.check_exit_conditions example_env true converged_solver) = true)
    by (vm_compute; reflexivity).
  split; [repeat split; assumption|].
  exact (check_exit_conditions_sound example_env true converged_solver Hm Py Pl He).
Defined.

(** ** The KKT system of the STANDARD layout *)

Lemma SparseMatrix_get_set_at (M : SparseMatrix.t) (r c r' c' : nat) (v : Q) :
  SparseMatrix.GetElement (SparseMatrix.SetElement M r c v true) r' c'
  = if decide (r' = r /\ c' = c) then v else SparseMatrix.GetElement M r' c'.
Proof.
  rewrite SparseMatrix_get_set.
  destruct (decide ((r, c) = (r', c'))) as [Heq|Hne];
    destruct (decide (r' = r /\ c' = c)) as [[-> ->]|Hn]; try reflexivity.
  - exfalso. apply Hn. injection Heq as -> ->. split; reflexivity.
  - exfalso. apply Hne. reflexivity.
Qed.

(** The loop of the STANDARD case over the three diagonal blocks, the
    lower blocks starting at row [a] and the middle one at row [b]. *)
Lemma standard_loop_get (a b : nat) (f g : nat -> Q) (k : nat) (M : SparseMatrix.t)
    (r c : nat) :
  (b + k <= a)%nat ->
  SparseMatrix.GetElement
    (for_loop k
       (fun d N =>
          let N := SparseMatrix.SetElement N (a + d) (b + d) (f d) true in
          let N := SparseMatrix.SetElement N (a + d) (a + d) (g d) true in
          SparseMatrix.SetElement N (b + d) (b + d) (-1) true) M) r c
  = if decide (b <= r < b + k /\ c = r)%nat then -1
    else if decide (a <= r < a + k /\ c = r)%nat then g (r - a)%nat
    else if decide (a <= r < a + k /\ c + a = r + b)%nat then f (r - a)%nat
    else SparseMatrix.GetElement M r c.
Proof.
  cbv zeta. induction k as [|k IH]; intros Hk.
  - cbn [for_loop seq fold_left].
    repeat case_decide; try reflexivity; exfalso; lia.
  - rewrite for_loop_S. cbv beta. rewrite !SparseMatrix_get_set_at.
    rewrite IH by lia. clear IH.
    repeat case_decide; try reflexivity; try (exfalso; lia);
      f_equal; lia.
Qed.

Lemma pair_fill_loop_length (n0 m0 : nat) (f g : nat -> Q) (k : nat) (v : vector) :
  length (for_loop k
            (fun row w =>
               let w := Vec.SetElement w (row + n0) (f row) in
               Vec.SetElement w (row + n0 + m0) (g row)) v) = length v.
Proof.
  cbv zeta. induction k as [|k IH]; [reflexivity|].
  rewrite for_loop_S. cbv beta. unfold Vec.SetElement at 1 2.
  rewrite !length_insert. exact IH.
Qed.

Lemma pair_fill_loop_lookup (n0 m0 : nat) (f g : nat -> Q) (k : nat) (v : vector)
    (j : nat) :
  (k <= m0)%nat -> (n0 + m0 + k <= length v)%nat ->
  for_loop k
    (fun row w =>
       let w := Vec.SetElement w (row + n0) (f row) in
       Vec.SetElement w (row + n0 + m0) (g row)) v !! j
  = if decide (n0 + m0 <= j < n0 + m0 + k)%nat then Some (g (j - n0 - m0)%nat)
    else if decide (n0 <= j < n0 + k)%nat then Some (f (j - n0)%nat)
    else v !! j.
Proof.
  pose proof (pair_fill_loop_length n0 m0 f g) as Hsame.
  cbv zeta in Hsame |- *. induction k as [|k IH]; intros Hk Hlen.
  - cbn [for_loop seq fold_left]. repeat case_decide; try reflexivity; exfalso; lia.
  - rewrite for_loop_S. cbv beta. unfold Vec.SetElement at 1 2.
    destruct (decide (j = k + n0 + m0)%nat) as [->|Hne1].
    + rewrite list_lookup_insert_eq
        by (rewrite length_insert, Hsame; lia).
      rewrite decide_True by lia. do 2 f_equal. lia.
    + rewrite list_lookup_insert_ne by lia.
      destruct (decide (j = k + n0)%nat) as [->|Hne2].
      * rewrite list_lookup_insert_eq by (rewrite Hsame; lia).
        rewrite decide_False by lia. rewrite decide_True by lia. do 2 f_equal. lia.
      * rewrite list_lookup_insert_ne by lia.
        rewrite IH by lia.
        repeat case_decide; try reflexivity; exfalso; lia.
Qed.

Lemma GetElement_zip_with (f : Q -> Q -> Q) (v w : vector) (i : nat) :
  (i < length v)%nat -> (i < length w)%nat ->
  Vec.GetElement (zip_with f v w) i = f (Vec.GetElement v i) (Vec.GetElement w i).
Proof.
  intros Hv Hw. unfold Vec.GetElement. rewrite lookup_zip_with.
  destruct (lookup_lt_is_Some_2 v i Hv) as [a ->].
  destruct (lookup_lt_is_Some_2 w i Hw) as [b ->]. reflexivity.
Qed.

Lemma GetElement_map (f : Q -> Q) (v : vector) (i : nat) :
  (i < length v)%nat ->
  Vec.GetElement (map f v) i = f (Vec.GetElement v i).
Proof.
  intros Hv. unfold Vec.GetElement.
  change (map f v) with (f <$> v). rewrite list_lookup_fmap.
  destruct (lookup_lt_is_Some_2 v i Hv) as [a ->]. reflexivity.
Qed.

Section Standard.

Variable env : Env.
Variable cfg : Macros.

Lemma KKTsolve_assemble_standard_BigMat (sigma : Q) (s : IP.t) :
  IP.KKT_solve_method s = IP.STANDARD ->
  IP.BigMat (IP.KKTsolve_assemble cfg sigma s)
  = for_loop (IP.m s)
      (fun d N =>
         let N := SparseMatrix.SetElement N (IP.n s + IP.m s + d) (IP.n s + d)
                    (Vec.GetElement (IP.lam s) d) true in
         let N := SparseMatrix.SetElement N (IP.n s + IP.m s + d) (IP.n s + IP.m s + d)
                    (Vec.GetElement (IP.y s) d) true in
         SparseMatrix.SetElement N (IP.n s + d) (IP.n s + d) (-1) true)
      (IP.BigMat s).
Proof.
  intros Hm. unfold IP.KKTsolve_assemble, IP.switch_KKT. rewrite Hm.
  unfold IP.ifs, IP.seq. destruct (negb (Qeq_bool sigma 0)); reflexivity.
Qed.

Lemma KKTsolve_assemble_standard_rpd (sigma : Q) (s : IP.t) :
  IP.KKT_solve_method s = IP.STANDARD ->
  IP.rpd (IP.KKTsolve_assemble cfg sigma s)
  = if negb (Qeq_bool sigma 0)
    then Vec.add (IP.rpd s)
           (Vec.MatrAddScalar (- sigma * IP.mu s) (Vec.MatrScaleV (IP.Dy s) (IP.Dlam s)))
    else Vec.MatrScaleV (IP.lam s) (IP.y s).
Proof.
  intros Hm. unfold IP.KKTsolve_assemble, IP.switch_KKT. rewrite Hm.
  unfold IP.ifs, IP.seq. destruct (negb (Qeq_bool sigma 0)); reflexivity.
Qed.

Lemma KKTsolve_assemble_standard_rhs_sol (sigma : Q) (s : IP.t) :
  IP.KKT_solve_method s = IP.STANDARD ->
  IP.rhs_sol (IP.KKTsolve_assemble cfg sigma s)
  = for_loop (IP.m s)
      (fun row w =>
         let w := Vec.SetElement w (row + IP.n s) (- Vec.GetElement (IP.rp s) row) in
         Vec.SetElement w (row + IP.n s + IP.m s)
           (- Vec.GetElement (IP.rpd (IP.KKTsolve_assemble cfg sigma s)) row))
      (for_loop (IP.n s)
         (fun row w => Vec.SetElement w row (- Vec.GetElement (IP.rd s) row))
         (IP.rhs_sol s)).
Proof.
  intros Hm. unfold IP.KKTsolve_assemble, IP.switch_KKT. rewrite Hm.
  unfold IP.ifs, IP.seq. destruct (negb (Qeq_bool sigma 0)); reflexivity.
Qed.

(** X15: In the STANDARD layout the linear solver is called on the [BigMat]
    and [rhs_sol] that [KKTsolve] has just assembled.  For [i < m] the
    matrix holds [lam_i] at [(n+m+i, n+i)], [y_i] at [(n+m+i, n+m+i)] and
    [-1] at [(n+i, n+i)], and no other entry is touched.  The right-hand
    side is [[-rd; -rp; -rpd]], where [rpd] has become [y o lam] for
    [sigma = 0] and has been increased by [Dy o Dlam - sigma * mu]
    otherwise. *)
Theorem KKTsolve_standard_system (sigma : Q) (s : IP.t) :
  IP.KKT_solve_method s = IP.STANDARD ->
  length (IP.rhs_sol s) = (2 * IP.m s + IP.n s)%nat ->
  rows_len (IP.m s) s ->
  let assembled := IP.KKTsolve_assemble cfg sigma s in
  (IP.KKTsolve env cfg sigma s
     = IP.KKTsolve_extract cfg (IP.call_linear_solver env assembled) /\
   IP.rhs_sol (IP.call_linear_solver env assembled)
     = MumpsCall env (IP.BigMat assembled) (IP.rhs_sol assembled)) /\
  (forall i, (i < IP.m s)%nat ->
     SparseMatrix.GetElement (IP.BigMat assembled) (IP.n s + IP.m s + i) (IP.n s + i)
       = Vec.GetElement (IP.lam s) i /\
     SparseMatrix.GetElement (IP.BigMat assembled)
       (IP.n s + IP.m s + i) (IP.n s + IP.m s + i) = Vec.GetElement (IP.y s) i /\
     SparseMatrix.GetElement (IP.BigMat assembled) (IP.n s + i) (IP.n s + i) = -1) /\
  (forall r c,
     ~ ((IP.n s <= r < IP.n s + IP.m s)%nat /\ c = r) ->
     ~ ((IP.n s + IP.m s <= r < IP.n s + 2 * IP.m s)%nat /\
        (c = r \/ c + IP.m s = r)%nat) ->
     SparseMatrix.GetElement (IP.BigMat assembled) r c
     = SparseMatrix.GetElement (IP.BigMat s) r c) /\
  length (IP.rhs_sol assembled) = (2 * IP.m s + IP.n s)%nat /\
  (forall j, (j < IP.n s)%nat ->
     IP.rhs_sol assembled !! j = Some (- Vec.GetElement (IP.rd s) j)) /\
  (forall i, (i < IP.m s)%nat ->
     IP.rhs_sol assembled !! (IP.n s + i)%nat = Some (- Vec.GetElement (IP.rp s) i) /\
     IP.rhs_sol assembled !! (IP.n s + IP.m s + i)%nat
       = Some (- Vec.GetElement (IP.rpd assembled) i) /\
     Vec.GetElement (IP.rpd assembled) i
       = if Qeq_bool sigma 0
         then Vec.GetElement (IP.y s) i * Vec.GetElement (IP.lam s) i
         else Vec.GetElement (IP.rpd s) i
              + (Vec.GetElement (IP.Dlam s) i * Vec.GetElement (IP.Dy s) i
                 + - sigma * IP.mu s)).
Proof.
  intros Hm Hlen Hrows assembled.
  destruct Hrows as (Hy & Hlam & _ & _ & _ & _ & HDy & HDlam & _ & _ & Hrpd & _).
  split; [|split; [|split; [|split; [|split]]]].
  - split; [|reflexivity].
    unfold IP.KKTsolve, IP.switch_KKT. rewrite Hm. reflexivity.
  - intros i Hi. unfold assembled.
    rewrite KKTsolve_assemble_standard_BigMat by exact Hm.
    rewrite !standard_loop_get by lia.
    split; [|split].
    + rewrite decide_False by lia. rewrite decide_False by lia.
      rewrite decide_True by lia. f_equal. lia.
    + rewrite decide_False by lia. rewrite decide_True by lia. f_equal. lia.
    + rewrite decide_True by lia. reflexivity.
  - intros r c H1 H2. unfold assembled.
    rewrite KKTsolve_assemble_standard_BigMat by exact Hm.
    rewrite standard_loop_get by lia.
    rewrite decide_False by lia. rewrite decide_False by lia.
    rewrite decide_False by lia. reflexivity.
  - unfold assembled.
    rewrite KKTsolve_assemble_standard_rhs_sol by exact Hm.
    rewrite pair_fill_loop_length.
    rewrite (fill_loop_length (fun row => row)). exact Hlen.
  - intros j Hj. unfold assembled.
    rewrite KKTsolve_assemble_standard_rhs_sol by exact Hm.
    rewrite pair_fill_loop_lookup
      by (rewrite ?(fill_loop_length (fun row => row)); lia).
    rewrite decide_False by lia. rewrite decide_False by lia.
    apply (fill_loop_hit (fun row => row)
             (fun row => - Vec.GetElement (IP.rd s) row)); [exact Hj|lia|auto].
  - intros i Hi. fold assembled. split; [|split].
    + unfold assembled at 1.
      rewrite KKTsolve_assemble_standard_rhs_sol by exact Hm. fold assembled.
      rewrite pair_fill_loop_lookup
        by (rewrite ?(fill_loop_length (fun row => row)); lia).
      rewrite decide_False by lia. rewrite decide_True by lia.
      do 3 f_equal. lia.
    + unfold assembled at 1.
      rewrite KKTsolve_assemble_standard_rhs_sol by exact Hm. fold assembled.
      rewrite pair_fill_loop_lookup
        by (rewrite ?(fill_loop_length (fun row => row)); lia).
      rewrite decide_True by lia. do 3 f_equal. lia.
    + unfold assembled.
      rewrite KKTsolve_assemble_standard_rpd by exact Hm.
      destruct (Qeq_bool sigma 0); cbn [negb].
      * unfold Vec.MatrScaleV. apply GetElement_zip_with; lia.
      * unfold Vec.add, Vec.MatrAddScalar, Vec.MatrScaleV.
        rewrite GetElement_zip_with
          by (rewrite ?length_map, ?length_zip_with; lia).
        rewrite GetElement_map by (rewrite length_zip_with; lia).
        rewrite GetElement_zip_with by lia. reflexivity.
Qed.

(** X16: In the STANDARD layout [KKTsolve] reads the three steps off the
    vector the linear solver gives back: [Dx] is its first [n] entries,
    [Dy] the next [m] and [Dlam] the last [m]. *)
Theorem KKTsolve_standard_steps (sigma : Q) (s : IP.t) :
  IP.KKT_solve_method s = IP.STANDARD ->
  length (IP.Dx s) = IP.n s -> length (IP.Dy s) = IP.m s ->
  length (IP.Dlam s) = IP.m s ->
  let assembled := IP.KKTsolve_assemble cfg sigma s in
  let sol := MumpsCall env (IP.BigMat assembled) (IP.rhs_sol assembled) in
  let s' := IP.KKTsolve env cfg sigma s in
  IP.rhs_sol s' = sol /\
  (length (IP.Dx s') = IP.n s /\ length (IP.Dy s') = IP.m s /\
   length (IP.Dlam s') = IP.m s) /\
  (forall j, (j < IP.n s)%nat -> IP.Dx s' !! j = Some (Vec.GetElement sol j)) /\
  (forall i, (i < IP.m s)%nat ->
     IP.Dy s' !! i = Some (Vec.GetElement sol (IP.n s + i)) /\
     IP.Dlam s' !! i = Some (Vec.GetElement sol (IP.n s + IP.m s + i))).
Proof.
  intros Hm HDx HDy HDlam assembled sol s'.
  assert (Hs' : s' = IP.KKTsolve_extract cfg (IP.call_linear_solver env assembled)).
  { unfold s', IP.KKTsolve, IP.switch_KKT. rewrite Hm. reflexivity. }
  assert (Hsol : IP.rhs_sol (IP.call_linear_solver env assembled) = sol) by reflexivity.
  assert (Hkeep : (IP.n (IP.call_linear_solver env assembled),
                   IP.m (IP.call_linear_solver env assembled),
                   IP.KKT_solve_method (IP.call_linear_solver env assembled),
                   IP.Dx (IP.call_linear_solver env assembled),
                   IP.Dy (IP.call_linear_solver env assembled),
                   IP.Dlam (IP.call_linear_solver env assembled))
                  = (IP.n s, IP.m s, IP.KKT_solve_method s,
                     IP.Dx s, IP.Dy s, IP.Dlam s)).
  { unfold assembled.
    exact ((ltac:(frame) :
              preserves (fun s => (IP.n s, IP.m s, IP.KKT_solve_method s,
                                   IP.Dx s, IP.Dy s, IP.Dlam s))
                (IP.seq (IP.KKTsolve_assemble cfg sigma) (IP.call_linear_solver env))) s). }
  clearbody s' sol. subst s'. revert Hsol Hkeep.
  generalize (IP.call_linear_solver env assembled). clear assembled.
  intros s1 Hsol Hkeep.
  injection Hkeep as Hn1 Hm1 Hmeth1 HDx1 HDy1 HDlam1. rewrite Hm in Hmeth1.
  unfold IP.KKTsolve_extract, IP.switch_KKT. rewrite Hmeth1.
  unfold IP.seq, IP.assign. state_simpl.
  rewrite Hn1, Hm1, HDx1, HDy1, HDlam1, Hsol.
  split; [reflexivity|]. split; [|split].
  - rewrite !(fill_loop_length (fun row => row)). repeat split; assumption.
  - intros j Hj.
    apply (fill_loop_hit (fun row => row) (fun row => Vec.GetElement sol row));
      [exact Hj|lia|auto].
  - intros i Hi. split.
    + replace (IP.n s + i)%nat with (i + IP.n s)%nat by lia.
      apply (fill_loop_hit (fun row => row)
               (fun row => Vec.GetElement sol (row + IP.n s))); [exact Hi|lia|auto].
    + replace (IP.n s + IP.m s + i)%nat with (i + IP.n s + IP.m s)%nat by lia.
      apply (fill_loop_hit (fun row => row)
               (fun row => Vec.GetElement sol (row + IP.n s + IP.m s)));
        [exact Hi|lia|auto].
Qed.

End Standard.

Lemma KKTsolve_standard_system_witness :
  let s := standard_solver in
  let assembled := IP.KKTsolve_assemble source_macros 0 s in
  (IP.KKT_solve_method s = IP.STANDARD /\
   length (IP.rhs_sol s) = (2 * IP.m s + IP.n s)%nat /\
   rows_len (IP.m s) s) /\
  (forall i, (i < IP.m s)%nat ->
     SparseMatrix.GetElement (IP.BigMat assembled) (IP.n s + IP.m s + i) (IP.n s + i)
       = Vec.GetElement (IP.lam s) i /\
     SparseMatrix.GetElement (IP.BigMat assembled)
       (IP.n s + IP.m s + i) (IP.n s + IP.m s + i) = Vec.GetElement (IP.y s) i /\
     SparseMatrix.GetElement (IP.BigMat assembled) (IP.n s + i) (IP.n s + i) = -1) /\
  length (IP.rhs_sol assembled) = (2 * IP.m s + IP.n s)%nat.
Proof.
  intros s assembled.
  assert (Hm : IP.KKT_solve_method s = IP.STANDARD) by (vm_compute; reflexivity).
  assert (Hl : length (IP.rhs_sol s) = (2 * IP.m s + IP.n s)%nat)
    by (vm_compute; reflexivity).
  assert (Hr : rows_len (IP.m s) s) by (vm_compute; repeat split).
  split; [repeat split; assumption|].
  pose proof (KKTsolve_standard_system example_env source_macros 0 s Hm Hl Hr)
    as (_ & Hmat & _ & Hlen & _).
  split; [exact Hmat|exact Hlen].
Defined.

Lemma KKTsolve_standard_steps_witness :
  let s := standard_solver in
  let assembled := IP.KKTsolve_assemble source_macros 0 s in
  let sol := MumpsCall example_env (IP.BigMat assembled) (IP.rhs_sol assembled) in
  let s' := IP.KKTsolve example_env source_macros 0 s in
  (IP.KKT_solve_method s = IP.STANDARD /\
   length (IP.Dx s) = IP.n s /\ length (IP.Dy s) = IP.m s /\
   length (IP.Dlam s) = IP.m s) /\
  IP.rhs_sol s' = sol /\
  (length (IP.Dx s') = IP.n s /\ length (IP.Dy s') = IP.m s /\
   length (IP.Dlam s') = IP.m s) /\
  (forall j, (j < IP.n s)%nat -> IP.Dx s' !! j = Some (Vec.GetElement sol j)) /\
  (forall i, (i < IP.m s)%nat ->
     IP.Dy s' !! i = Some (Vec.GetElement sol (IP.n s + i)) /\
     IP.Dlam s' !! i = Some (Vec.GetElement sol (IP.n s + IP.m s + i))).
Proof.
  intros s assembled sol s'.
  assert (Hm : IP.KKT_solve_method s = IP.STANDARD) by (vm_compute; reflexivity).
  assert (H1 : length (IP.Dx s) = IP.n s) by (vm_compute; reflexivity).
  assert (H2 : length (IP.Dy s) = IP.m s) by (vm_compute; reflexivity).
  assert (H3 : length (IP.Dlam s) = IP.m s) by (vm_compute; reflexivity).
  split; [repeat split; assumption|].
  exact (KKTsolve_standard_steps example_env source_macros 0 s Hm H1 H2 H3).
Defined.

(** ** The steps of the AUGMENTED layout, and the NORMAL layout *)

Section OtherLayouts.

Variable env : Env.
Variable cfg : Macros.

(** X17: In the AUGMENTED layout [KKTsolve] reads [Dx] and [Dlam] off the
    vector the linear solver gives back, its first [n] entries and the
    next [m], and, without compliance, rebuilds [Dy] as [A * Dx + rp] with
    the [Dx] just read. *)
Theorem KKTsolve_augmented_steps (sigma : Q) (s : IP.t) :
  IP.KKT_solve_method s = IP.AUGMENTED -> ADD_COMPLIANCE cfg = false ->
  length (IP.Dx s) = IP.n s -> length (IP.Dlam s) = IP.m s ->
  let assembled := IP.KKTsolve_assemble cfg sigma s in
  let sol := MumpsCall env (IP.BigMat assembled) (IP.rhs_sol assembled) in
  let s' := IP.KKTsolve env cfg sigma s in
  IP.rhs_sol s' = sol /\
  (length (IP.Dx s') = IP.n s /\ length (IP.Dlam s') = IP.m s) /\
  (forall j, (j < IP.n s)%nat -> IP.Dx s' !! j = Some (Vec.GetElement sol j)) /\
  (forall i, (i < IP.m s)%nat ->
     IP.Dlam s' !! i = Some (Vec.GetElement sol (IP.n s + i))) /\
  IP.Dy s' = Vec.add (IP.multiplyA s' (IP.Dx s') (IP.Dy s)) (IP.rp s).
Proof.
  intros Hm Hcomp HDx HDlam assembled sol s'.
  assert (Hs' : s' = IP.KKTsolve_extract cfg (IP.call_linear_solver env assembled)).
  { unfold s', IP.KKTsolve, IP.switch_KKT. rewrite Hm. reflexivity. }
  assert (Hsol : IP.rhs_sol (IP.call_linear_solver env assembled) = sol) by reflexivity.
  assert (Hkeep : (IP.n (IP.call_linear_solver env assembled),
                   IP.m (IP.call_linear_solver env assembled),
                   IP.KKT_solve_method (IP.call_linear_solver env assembled),
                   IP.Dx (IP.call_linear_solver env assembled),
                   IP.Dy (IP.call_linear_solver env assembled),
                   IP.Dlam (IP.call_linear_solver env assembled),
                   IP.rp (IP.call_linear_solver env assembled))
                  = (IP.n s, IP.m s, IP.KKT_solve_method s,
                     IP.Dx s, IP.Dy s, IP.Dlam s, IP.rp s)).
  { unfold assembled.
    exact ((ltac:(frame) :
              preserves (fun s => (IP.n s, IP.m s, IP.KKT_solve_method s,
                                   IP.Dx s, IP.Dy s, IP.Dlam s, IP.rp s))
                (IP.seq (IP.KKTsolve_assemble cfg sigma) (IP.call_linear_solver env))) s). }
  clearbody s' sol. subst s'. revert Hsol Hkeep.
  generalize (IP.call_linear_solver env assembled). clear assembled.
  intros s1 Hsol Hkeep.
  injection Hkeep as Hn1 Hm1 Hmeth1 HDx1 HDy1 HDlam1 Hrp1. rewrite Hm in Hmeth1.
  unfold IP.KKTsolve_extract, IP.switch_KKT. rewrite Hmeth1.
  unfold IP.when, IP.ifs. rewrite Hcomp.
  unfold IP.seq, IP.assign, IP.skip, IP.multiplyA. state_simpl.
  rewrite Hn1, Hm1, HDx1, HDy1, HDlam1, Hrp1, Hsol, Hmeth1.
  split; [reflexivity|]. split; [|split; [|split]].
  - rewrite !(fill_loop_length (fun row => row)). split; assumption.
  - intros j Hj.
    apply (fill_loop_hit (fun row => row) (fun row => Vec.GetElement sol row));
      [exact Hj|lia|auto].
  - intros i Hi.
    replace (IP.n s + i)%nat with (i + IP.n s)%nat by lia.
    apply (fill_loop_hit (fun row => row)
             (fun row => Vec.GetElement sol (row + IP.n s))); [exact Hi|lia|auto].
  - reflexivity.
Qed.

(** X18: In the NORMAL layout [KKTsolve] solves nothing: the linear solver is
    not called, and [rhs_sol] and the steps [Dx], [Dy] and [Dlam] are
    left as they were; only [BigMat] is written. *)
Theorem KKTsolve_normal_solves_nothing (sigma : Q) (s : IP.t) :
  IP.KKT_solve_method s = IP.NORMAL ->
  let s' := IP.KKTsolve env cfg sigma s in
  s' = IP.set_BigMat (IP.BigMat s') s /\
  IP.rhs_sol s' = IP.rhs_sol s /\
  IP.Dx s' = IP.Dx s /\ IP.Dy s' = IP.Dy s /\ IP.Dlam s' = IP.Dlam s.
Proof.
  intros Hm s'.
  assert (Hs' : s' = IP.KKTsolve_normal s).
  { unfold s', IP.KKTsolve, IP.switch_KKT. rewrite Hm. reflexivity. }
  clearbody s'. subst s'. unfold IP.KKTsolve_normal, IP.assign.
  generalize (for_loop (IP.n s)
     (fun (row_sel : nat) (M : SparseMatrix.t) =>
      for_loop (IP.n s)
        (fun (col_sel : nat) (M0 : SparseMatrix.t) =>
         snd
           (for_loop (IP.m s)
              (fun (el_sel : nat) (tM : Z * SparseMatrix.t) =>
               let temp :=
                 IP.to_int
                   (inject_Z (fst tM)
                    + Vec.GetElement (IP.lam s) el_sel / Vec.GetElement (IP.y s) el_sel
                      * SparseMatrix.GetElement (IP.SmallMat s) el_sel row_sel
                      * SparseMatrix.GetElement (IP.SmallMat s) el_sel col_sel) in
               if negb (Z.eqb temp 0)
               then (temp, SparseMatrix.SetElement (snd tM) row_sel col_sel
                             (inject_Z temp) false)
               else (temp, snd tM))
              (0%Z, M0)))
        M)
     (IP.BigMat s)).
  intros B. destruct s. repeat split.
Qed.

End OtherLayouts.

Lemma KKTsolve_augmented_steps_witness :
  let s := example_solver in
  let assembled := IP.KKTsolve_assemble source_macros 0 s in
  let sol := MumpsCall example_env (IP.BigMat assembled) (IP.rhs_sol assembled) in
  let s' := IP.KKTsolve example_env source_macros 0 s in
  (IP.KKT_solve_method s = IP.AUGMENTED /\ ADD_COMPLIANCE source_macros = false /\
   length (IP.Dx s) = IP.n s /\ length (IP.Dlam s) = IP.m s) /\
  IP.rhs_sol s' = sol /\
  (length (IP.Dx s') = IP.n s /\ length (IP.Dlam s') = IP.m s) /\
  (forall j, (j < IP.n s)%nat -> IP.Dx s' !! j = Some (Vec.GetElement sol j)) /\
  (forall i, (i < IP.m s)%nat ->
     IP.Dlam s' !! i = Some (Vec.GetElement sol (IP.n s + i))) /\
  IP.Dy s' = Vec.add (IP.multiplyA s' (IP.Dx s') (IP.Dy s)) (IP.rp s).
Proof.
  intros s assembled sol s'.
  assert (Hm : IP.KKT_solve_method s = IP.AUGMENTED) by (vm_compute; reflexivity).
  assert (Hc : ADD_COMPLIANCE source_macros = false) by reflexivity.
  assert (H1 : length (IP.Dx s) = IP.n s) by (vm_compute; reflexivity).
  assert (H2 : length (IP.Dlam s) = IP.m s) by (vm_compute; reflexivity).
  split; [repeat split; assumption|].
  exact (KKTsolve_augmented_steps example_env source_macros 0 s Hm Hc H1 H2).
Defined.

Lemma KKTsolve_normal_solves_nothing_witness :
  let s := IP.SetKKTSolutionMethod IP.NORMAL example_solver in
  let s' := IP.KKTsolve example_env source_macros 0 s in
  IP.KKT_solve_method s = IP.NORMAL /\
  s' = IP.set_BigMat (IP.BigMat s') s /\
  IP.rhs_sol s' = IP.rhs_sol s /\
  IP.Dx s' = IP.Dx s /\ IP.Dy s' = IP.Dy s /\ IP.Dlam s' = IP.Dlam s.
Proof.
  intros s s'.
  assert (Hm : IP.KKT_solve_method s = IP.NORMAL) by reflexivity.
  split; [exact Hm|].
  exact (KKTsolve_normal_solves_nothing example_env source_macros 0 s Hm).
Defined.

(** ** The CSR matrix without free slots *)

Lemma GetNNZ_without_gaps_witness :
  ChCSR3Matrix.no_gaps csr_compressed /\
  ChCSR3Matrix.GetNNZ csr_compressed = ChCSR3Matrix.initialized_count csr_compressed.
Proof.
  assert (H : ChCSR3Matrix.no_gaps csr_compressed).
  { split; [vm_compute; discriminate|].
    intros k. change (ChCSR3Matrix.GetTrailingIndexLength csr_compressed) with 2%Z.
    destruct k as [|[|[|k]]]; cbn; split; intros Hk;
      first [reflexivity|lia|discriminate]. }
  split; [exact H|].
  exact (GetNNZ_without_gaps csr_compressed H).
Defined.
